(** * GalSim rendering engine: Series cache, Series classes, drawImage

    A shallow embedding of the parts of [galsim/series.py] and
    [galsim/gsobject.py] that carry the image-rendering contract:

    - [SeriesCache]: the process-wide LRU caches of basis-image tables
      ([Series.__init__], [Series._basisCube], [Series._basisKCube],
      [Series.drawImage], [Series.drawKImage]).  A cache is a dict from
      keys to links of a circular doubly-linked list; the links are Python
      lists that alias each other, so the model keeps an explicit heap of
      links addressed by object identity, shared by both caches.
    - [Convolution]: [SeriesConvolution] with its operand list, the
      attributes it patches onto plain profiles, [_getCoeffs] and
      [_getBasisFuncs].
    - [Draw]: [GSObject.drawImage] with its helpers [_setup_image],
      [_local_wcs], [_parse_offset], [_get_shape], [_fix_center] and
      [_determine_wcs], over the rationals.
    - [Affine]: [SpergelSeries] and [MoffatSeries] with the transforms, the
      lazily cached decomposition [_decomposeA], [_getCoeffs] and
      [_getBasisFuncs], over the real numbers.
    - [Optical]: [nollZernikeDict] and [LinearOpticalSeries], over the real
      numbers.

    Python exceptions are values of [exn]; a call returns a [result]
    together with the state it leaves behind, so that what was mutated
    before an exception was raised stays visible. *)

From Stdlib Require Import QArith ZArith Lia Reals Lra.
From stdpp Require Import gmap strings list fin_maps sorting.

Set Warnings "-clear-no-such-hyp".

(** ** Exceptions and results *)

Inductive exn : Type :=
| ValueError (msg : string)
| TypeError (msg : string)
| KeyError
| IndexError
| ZeroDivisionError
| AttributeError (attr : string)
| NotImplementedError (msg : string)
| RuntimeError (msg : string)
| FloatingPointError.

Inductive result (A : Type) : Type :=
| Ok (a : A)
| Raise (e : exn).
Arguments Ok {A} a.
Arguments Raise {A} e.

Definition is_ok {A} (r : result A) : bool :=
  match r with Ok _ => true | Raise _ => false end.

(** A computation over a mutable store [S]: the store is returned on both
    outcomes. *)
Definition M (S A : Type) : Type := S → result A * S.

Definition ret {S A} (a : A) : M S A := λ σ, (Ok a, σ).
Definition raise {S A} (e : exn) : M S A := λ σ, (Raise e, σ).
Definition bind {S A B} (m : M S A) (k : A → M S B) : M S B :=
  λ σ, match m σ with
       | (Ok a, σ') => k a σ'
       | (Raise e, σ') => (Raise e, σ')
       end.
Definition lift {S A} (r : result A) : M S A := λ σ, (r, σ).
Definition gets {S A} (f : S → A) : M S A := λ σ, (Ok (f σ), σ).
Definition modify {S} (f : S → S) : M S unit := λ σ, (Ok tt, f σ).

Declare Scope py_scope.
Delimit Scope py_scope with py.
Notation "'do' x <- m ; k" := (bind m (λ x, k))
  (at level 10, x name, m at level 100, k at level 200,
   format "'[v' 'do'  x  <-  m ; '/' k ']'") : py_scope.
Notation "'do' ' p <- m ; k" := (bind m (λ x, match x with p => k end))
  (at level 10, p strict pattern, m at level 100, k at level 200) : py_scope.
Notation "m ;; k" := (bind m (λ _, k))
  (at level 100, k at level 200, right associativity) : py_scope.

(** Monadic loop over a list, left to right ([for x in xs: body]). *)
Fixpoint for_each {S A} (xs : list A) (body : A → M S unit) : M S unit :=
  match xs with
  | [] => ret tt
  | x :: xs' => bind (body x) (λ _, for_each xs' body)
  end.

(** Monadic map, left to right (a list comprehension with effects). *)
Fixpoint map_M {S A B} (f : A → M S B) (xs : list A) : M S (list B) :=
  match xs with
  | [] => ret []
  | x :: xs' => bind (f x) (λ y, bind (map_M f xs') (λ ys, ret (y :: ys)))
  end.

(** ** Least-recently-used order, as a specification on lists *)

Module LRU.
Section Spec.
Context {X : Type} `{EqDecision X}.

(** Moving [k] to the most-recently-used end. *)
Definition touch (c : list X) (k : X) : list X :=
  filter (λ x, x ≠ k) c ++ [k].

(** The distinct keys of a trace of accesses, ordered by their last access,
    least recently accessed first. *)
Definition recency (trace : list X) : list X := foldl touch [] trace.

(** A cache of fixed capacity as a list of keys, least recently used
    first: a hit moves the key to the end, a miss drops the first key and
    appends the new one. *)
Definition lru_access (c : list X) (k : X) : list X :=
  if decide (k ∈ c) then touch c k else tail c ++ [k].

(** The last [n] elements. *)
Definition lastn (n : nat) (l : list X) : list X := drop (length l - n) l.

End Spec.
End LRU.

(** ** The Series cache (series.py, class [Series]) *)

Module SeriesCache.

(** A drawn image array: [im.array.shape] and the row-major pixel data
    ([im.array.ravel()]). *)
Record ndarray : Type := NdArray {
  shape : nat * nat;
  ravel : list Q
}.

(** Object identities: links of the LRU ring and the [object()] placeholder
    keys are allocated from one counter. *)
Abbreviation addr := nat (only parsing).

Section Cache.
Context {Idx Arg Val : Type}.
Context `{Countable Idx, Countable Arg, Countable Val}.
Context {B : Type}.

(** The cache key built by [Series.drawImage]:
    [(self._series_idx(), args, tuple(sorted(kwargs.items())))]. *)
Definition ckey : Type := Idx * Arg * list (string * Val).

(** Dict keys: the [object()] placeholders of [__init__] or a key tuple. *)
Inductive key : Type :=
| Placeholder (id : addr)
| Tuple (k : ckey).

#[export] Instance key_eq_dec : EqDecision key.
Proof. solve_decision. Defined.

#[export] Instance key_countable : Countable key.
Proof.
  refine (inj_countable'
    (λ k, match k with Placeholder i => inl i | Tuple t => inr t end)
    (λ s, match s with inl i => Placeholder i | inr t => Tuple t end) _).
  by intros [].
Defined.

(** The cached values: [(cube, shape)] for [_basisCube] and
    [(recube, imcube, shape)] for [_basisKCube], a cube stored as one row
    of flattened pixels per basis function. *)
Inductive table : Type :=
| Table (cube : list (list Q)) (shape : nat * nat)
| KTable (recube imcube : list (list Q)) (shape : nat * nat).

(** Link layout: [[PREV, NEXT, KEY, RESULT]]; each slot may hold [None]. *)
Record link : Type := Link {
  PREV : option addr;
  NEXT : option addr;
  KEY : option key;
  RESULT : option table
}.

(** One recorded call [obj.drawImage] with the forwarded arguments on a basis profile. *)
Definition drawcall : Type := B * Arg * gmap string Val.

(** Class attributes of [Series] plus the heap of link objects. *)
Record state : Type := State {
  heap : gmap addr link;
  _cache : gmap key addr;
  _kcache : gmap key addr;
  _root : option addr;
  _kroot : option addr;
  next_id : addr;
  drawn : list drawcall
}.

Definition empty_state : state :=
  State ∅ ∅ ∅ None None 0 [].

Definition set_heap (f : gmap addr link → gmap addr link) (σ : state) : state :=
  State (f (heap σ)) (_cache σ) (_kcache σ) (_root σ) (_kroot σ) (next_id σ) (drawn σ).
Definition set_cache (f : gmap key addr → gmap key addr) (σ : state) : state :=
  State (heap σ) (f (_cache σ)) (_kcache σ) (_root σ) (_kroot σ) (next_id σ) (drawn σ).
Definition set_kcache (f : gmap key addr → gmap key addr) (σ : state) : state :=
  State (heap σ) (_cache σ) (f (_kcache σ)) (_root σ) (_kroot σ) (next_id σ) (drawn σ).
Definition set_root (r : option addr) (σ : state) : state :=
  State (heap σ) (_cache σ) (_kcache σ) r (_kroot σ) (next_id σ) (drawn σ).
Definition set_kroot (r : option addr) (σ : state) : state :=
  State (heap σ) (_cache σ) (_kcache σ) (_root σ) r (next_id σ) (drawn σ).
Definition log_draw (c : drawcall) (σ : state) : state :=
  State (heap σ) (_cache σ) (_kcache σ) (_root σ) (_kroot σ) (next_id σ) (drawn σ ++ [c]).

Definition log_draws (cs : list drawcall) (σ : state) : state :=
  State (heap σ) (_cache σ) (_kcache σ) (_root σ) (_kroot σ) (next_id σ) (drawn σ ++ cs).

(** Allocation of a fresh object identity. *)
Definition bump (σ : state) : state :=
  State (heap σ) (_cache σ) (_kcache σ) (_root σ) (_kroot σ) (S (next_id σ)) (drawn σ).

Definition new_id : M state addr := λ σ, (Ok (next_id σ), bump σ).

(** [[prev, next, key, result]]: a new list object. *)
Definition alloc (l : link) (σ : state) : state :=
  set_heap (insert (next_id σ) l) (bump σ).

Definition new_link (l : link) : M state addr := λ σ, (Ok (next_id σ), alloc l σ).

(** [r[i]]: subscripting [None] raises [TypeError]. *)
Definition getitem (r : option addr) : M state link :=
  λ σ, match r with
       | None => (Raise (TypeError "'NoneType' object is not subscriptable"), σ)
       | Some a =>
           match heap σ !! a with
           | Some l => (Ok l, σ)
           | None => (Raise (TypeError "not a link"), σ)
           end
       end.

(** [r[i] = v]: item assignment on [None] raises [TypeError]. *)
Definition setitem (upd : link → link) (r : option addr) : M state unit :=
  λ σ, match r with
       | None => (Raise (TypeError "'NoneType' object does not support item assignment"), σ)
       | Some a =>
           match heap σ !! a with
           | Some _ => (Ok tt, set_heap (alter upd a) σ)
           | None => (Raise (TypeError "not a link"), σ)
           end
       end.

Definition set_PREV (v : option addr) (l : link) : link :=
  Link v (NEXT l) (KEY l) (RESULT l).
Definition set_NEXT (v : option addr) (l : link) : link :=
  Link (PREV l) v (KEY l) (RESULT l).
Definition set_KEY (v : option key) (l : link) : link :=
  Link (PREV l) (NEXT l) v (RESULT l).
Definition set_RESULT (v : option table) (l : link) : link :=
  Link (PREV l) (NEXT l) (KEY l) v.

(** The loop of [__init__] that chains [n] placeholder links after [last]:
    [cache[key] = last[1] = last = [last, root, key, None]].  The targets of
    the chained assignment are assigned left to right. *)
Fixpoint init_links (kspace : bool) (n : nat) (root last : addr) : M state addr :=
  match n with
  | O => ret last
  | S n' =>
      (do k <- new_id;
       do l <- new_link (Link (Some last) (Some root) (Some (Placeholder k)) None);
       modify ((if kspace then set_kcache else set_cache) (insert (Placeholder k) l));;
       setitem (set_NEXT (Some l)) (Some last);;
       init_links kspace n' root l)%py
  end.

(** [Series.__init__(self, maxcache=100)].  The caches are built only when
    [Series._root] is still [None].  The last statement stores the last link
    of the real-space ring, [last], into [kroot[0]]. *)
Definition Series__init__ (maxcache : Z) : M state unit :=
  (do r0 <- gets _root;
   match r0 with
   | Some _ => ret tt
   | None =>
       do root <- new_link (Link None None None None);
       modify (set_root (Some root));;
       do last <- init_links false (Z.to_nat maxcache) root root;
       setitem (set_PREV (Some last)) (Some root);;
       do kroot <- new_link (Link None None None None);
       modify (set_kroot (Some kroot));;
       do klast <- init_links true (Z.to_nat maxcache) kroot kroot;
       setitem (set_PREV (Some last)) (Some kroot)
   end)%py.

(** The interface every [Series] subclass provides; the base class raises
    [NotImplementedError] for each. *)
Record Series : Type := MkSeries {
  _series_idx : result Idx;
  _getBasisFuncs : result (list B);
  _getCoeffs : result (list Q)
}.

Definition abstract_Series : Series :=
  MkSeries
    (Raise (NotImplementedError "subclasses of Series must define _series_idx() method"))
    (Raise (NotImplementedError "subclasses of Series must define _getBasisFuncs() method"))
    (Raise (NotImplementedError "subclasses of Series must define _getCoeffs() method")).

(** [obj.drawImage(...).array] for a basis profile: the
    renderer of gsobject.py, abstracted to its result. *)
Variable drawImage_basis : B → Arg → gmap string Val → result ndarray.

Definition draw (obj : B) (args : Arg) (kwargs : gmap string Val) : M state ndarray :=
  (modify (log_draw (obj, args, kwargs));;
   lift (drawImage_basis obj args kwargs))%py.

(** [cube[i] = row]: numpy copies a row of the right width, broadcasts a
    single value, and raises [ValueError] otherwise. *)
Definition assign_row (width : nat) (row : list Q) : result (list Q) :=
  if decide (length row = width) then Ok row
  else match row with
       | [x] => Ok (replicate width x)
       | _ => Raise (ValueError "could not broadcast input array")
       end.

(** [Series._basisCube(self, key)]. *)
Definition _basisCube (self : Series) (k : ckey) : M state (option table) :=
  (do cache <- gets _cache;
   do root <- gets _root;
   match cache !! Tuple k with
   | Some link =>
       do l <- getitem (Some link);
       let link_prev := PREV l in
       let link_next := NEXT l in
       let result := RESULT l in
       setitem (set_NEXT link_next) link_prev;;
       setitem (set_PREV link_prev) link_next;;
       do r <- getitem root;
       let last := PREV r in
       setitem (set_NEXT (Some link)) last;;
       setitem (set_PREV (Some link)) root;;
       setitem (set_PREV last) (Some link);;
       setitem (set_NEXT root) (Some link);;
       ret result
   | None =>
       let '(series_idx, args, kwargs_items) := k in
       let kwargs : gmap string Val := list_to_map kwargs_items in
       do objs <- lift (_getBasisFuncs self);
       do im0 <- match objs with
                 | [] => raise IndexError
                 | obj0 :: _ => draw obj0 args kwargs
                 end;
       let shp := shape im0 in
       do cube <- map_M (λ obj,
                    do im <- draw obj args kwargs;
                    lift (assign_row (fst shp * snd shp) (ravel im))) objs;
       setitem (set_KEY (Some (Tuple k))) root;;
       setitem (set_RESULT (Some (Table cube shp))) root;;
       let oldroot := root in
       do r <- getitem root;
       let root := NEXT r in
       modify (set_root root);;
       do r' <- getitem root;
       let oldkey := KEY r' in
       setitem (set_KEY None) root;;
       do r'' <- getitem root;
       let oldvalue := RESULT r'' in
       setitem (set_RESULT None) root;;
       match oldkey with
       | Some ok =>
           do c <- gets _cache;
           match c !! ok with
           | Some _ => modify (set_cache (delete ok))
           | None => raise KeyError
           end
       | None => raise KeyError
       end;;
       match oldroot with
       | Some a => modify (set_cache (insert (Tuple k) a))
       | None => ret tt
       end;;
       ret (Some (Table cube shp))
   end)%py.

(** [tuple(sorted(kwargs.items()))]: the items of the keyword dict, sorted;
    the names are distinct, so the order is the order of the names. *)
Definition items_le (x y : string * Val) : Prop := String.leb (fst x) (fst y) = true.

#[export] Instance items_le_dec (x y : string * Val) : Decision (items_le x y).
Proof. unfold items_le. apply _. Defined.

Definition sorted_items (kwargs : gmap string Val) : list (string * Val) :=
  merge_sort items_le (map_to_list kwargs).

(** [np.dot(coeffs, cube)]: the linear combination of the rows of the cube;
    the lengths must agree. *)
Definition add_rows (r1 r2 : list Q) : list Q := zip_with Qplus r1 r2.

Definition np_dot (coeffs : list Q) (cube : list (list Q)) (width : nat) : result (list Q) :=
  if decide (length coeffs = length cube)
  then Ok (foldr (λ cr acc, add_rows (map (Qmult (fst cr)) (snd cr)) acc)
                 (replicate width 0%Q) (zip coeffs cube))
  else Raise (ValueError "shapes not aligned").

(** [Series.drawImage(self, *args, **kwargs)]. *)
Definition drawImage (self : Series) (args : Arg) (kwargs : gmap string Val)
  : M state ndarray :=
  (do idx <- lift (_series_idx self);
   let k : ckey := (idx, args, sorted_items kwargs) in
   do r <- _basisCube self k;
   match r with
   | None => raise (TypeError "'NoneType' object is not iterable")
   | Some (Table cube shp) =>
       do coeffs <- lift (_getCoeffs self);
       do im <- lift (np_dot coeffs cube (fst shp * snd shp));
       ret (NdArray shp im)
   | Some (KTable _ _ _) => raise (ValueError "too many values to unpack")
   end)%py.

(** [obj.drawKImage(...)] for a basis profile: the real and the imaginary
    image.  These calls are not entered in the log [drawn], which records
    the [drawImage] calls only. *)
Variable drawKImage_basis : B → Arg → gmap string Val → result (ndarray * ndarray).

(** [Series._basisKCube(self, key)]: the code of [_basisCube] on
    [Series._kcache] and [Series._kroot], storing
    [(recube, imcube, shape)]. *)
Definition _basisKCube (self : Series) (k : ckey) : M state (option table) :=
  (do cache <- gets _kcache;
   do root <- gets _kroot;
   match cache !! Tuple k with
   | Some link =>
       do l <- getitem (Some link);
       let link_prev := PREV l in
       let link_next := NEXT l in
       let result := RESULT l in
       setitem (set_NEXT link_next) link_prev;;
       setitem (set_PREV link_prev) link_next;;
       do r <- getitem root;
       let last := PREV r in
       setitem (set_NEXT (Some link)) last;;
       setitem (set_PREV (Some link)) root;;
       setitem (set_PREV last) (Some link);;
       setitem (set_NEXT root) (Some link);;
       ret result
   | None =>
       let '(series_idx, args, kwargs_items) := k in
       let kwargs : gmap string Val := list_to_map kwargs_items in
       do objs <- lift (_getBasisFuncs self);
       do reim0 <- match objs with
                   | [] => raise IndexError
                   | obj0 :: _ => lift (drawKImage_basis obj0 args kwargs)
                   end;
       let shp := shape (snd reim0) in
       do rows <- map_M (λ obj,
                    do tmp <- lift (drawKImage_basis obj args kwargs);
                    do re <- lift (assign_row (fst shp * snd shp) (ravel (fst tmp)));
                    do im <- lift (assign_row (fst shp * snd shp) (ravel (snd tmp)));
                    ret (re, im)) objs;
       let recube := rows.*1 in
       let imcube := rows.*2 in
       setitem (set_KEY (Some (Tuple k))) root;;
       setitem (set_RESULT (Some (KTable recube imcube shp))) root;;
       let oldroot := root in
       do r <- getitem root;
       let root := NEXT r in
       modify (set_kroot root);;
       do r' <- getitem root;
       let oldkey := KEY r' in
       setitem (set_KEY None) root;;
       do r'' <- getitem root;
       let oldvalue := RESULT r'' in
       setitem (set_RESULT None) root;;
       match oldkey with
       | Some ok =>
           do c <- gets _kcache;
           match c !! ok with
           | Some _ => modify (set_kcache (delete ok))
           | None => raise KeyError
           end
       | None => raise KeyError
       end;;
       match oldroot with
       | Some a => modify (set_kcache (insert (Tuple k) a))
       | None => ret tt
       end;;
       ret (Some (KTable recube imcube shp))
   end)%py.

(** [Series.drawKImage(self, *args, **kwargs)]: the real and the imaginary
    image. *)
Definition drawKImage (self : Series) (args : Arg) (kwargs : gmap string Val)
  : M state (ndarray * ndarray) :=
  (do idx <- lift (_series_idx self);
   let k : ckey := (idx, args, sorted_items kwargs) in
   do r <- _basisKCube self k;
   match r with
   | None => raise (TypeError "'NoneType' object is not iterable")
   | Some (Table _ _) => raise (ValueError "need more than 2 values to unpack")
   | Some (KTable recube imcube shp) =>
       do coeffs <- lift (_getCoeffs self);
       do reim <- lift (np_dot coeffs recube (fst shp * snd shp));
       do imim <- lift (np_dot coeffs imcube (fst shp * snd shp));
       ret (NdArray shp reim, NdArray shp imim)
   end)%py.

(** One call of a session: [s.drawImage(...)] or [s.drawKImage(...)], keyed
    as [drawImage] and [drawKImage] key their caches. *)
Inductive call : Type :=
| Real (self : Series) (k : ckey)
| Fourier (self : Series) (k : ckey).

Definition run_call (c : call) : M state (option table) :=
  match c with
  | Real s k => _basisCube s k
  | Fourier s k => _basisKCube s k
  end.

(** [Series.__init__(maxcache)] on a fresh interpreter followed by cube
    look-ups in either cache. *)
Definition session (maxcache : Z) (calls : list call) : result unit * state :=
  bind (Series__init__ maxcache)
       (λ _, for_each calls (λ c, bind (run_call c) (λ _, ret tt))) empty_state.

(** *** Reading the ring *)

(** The store left by a successful [a[i] = v]. *)
Definition upd (a : addr) (f : link → link) (σ : state) : state :=
  set_heap (alter f a) σ.

Definition nextof (σ : state) (a : addr) : option addr := heap σ !! a ≫= NEXT.
Definition prevof (σ : state) (a : addr) : option addr := heap σ !! a ≫= PREV.
Definition keyof (σ : state) (a : addr) : option key := heap σ !! a ≫= KEY.
Definition resultof (σ : state) (a : addr) : option table := heap σ !! a ≫= RESULT.

(** [b] follows [a]: [a[NEXT] is b] and [b[PREV] is a]. *)
Definition linked (σ : state) (a b : addr) : Prop :=
  nextof σ a = Some b ∧ prevof σ b = Some a.

Fixpoint path (σ : state) (ns : list addr) : Prop :=
  match ns with
  | a :: tl => match tl with
               | b :: _ => linked σ a b ∧ path σ tl
               | [] => True
               end
  | [] => True
  end.

Arguments path : simpl never.

(** What a link of the ring holds: its key, its cached result, and the dict
    entry that points back at it. *)
Definition holds (σ : state) (a : addr) (e : key * option table) : Prop :=
  keyof σ a = Some (fst e) ∧ resultof σ a = snd e ∧ _cache σ !! fst e = Some a.

(** The representation invariant of the real-space cache: the ring starts
    at the root [r] (whose key is [None]) and runs through the links [l],
    least recently used first, back to [r]; [ents] are the entries of the
    links in that order, and the dict has no other entry. *)
Record cache_inv (σ : state) (r : addr) (l : list addr)
    (ents : list (key * option table)) : Prop := CacheInv {
  inv_root : _root σ = Some r;
  inv_nodup : NoDup (r :: l);
  inv_path : path σ (r :: l ++ [r]);
  inv_root_key : keyof σ r = None;
  inv_ents : Forall2 (holds σ) l ents;
  inv_dict : ∀ k a, _cache σ !! k = Some a → a ∈ l ∧ keyof σ a = Some k
}.

(** The invariant of the loop of [__init__] that builds the real-space
    ring: the links [ls] made so far are chained after the root, the last
    of them points forward to the root, and [root[PREV]] is not set yet. *)
Record init_inv (σ : state) (r : addr) (ls : list addr)
    (ents : list (key * option table)) : Prop := InitInv {
  ii_root : _root σ = Some r;
  ii_nodup : NoDup (r :: ls);
  ii_path : path σ (r :: ls);
  ii_tail : ls ≠ [] → nextof σ (List.last ls r) = Some r;
  ii_bound : ∀ a, is_Some (heap σ !! a) → a < next_id σ;
  ii_in : ∀ a, a ∈ r :: ls → is_Some (heap σ !! a);
  ii_root_key : keyof σ r = None;
  ii_ents : Forall2 (holds σ) ls ents;
  ii_dict : ∀ k a, _cache σ !! k = Some a → a ∈ ls ∧ keyof σ a = Some k;
  ii_fresh : ∀ i a, _cache σ !! Placeholder i = Some a → i < next_id σ;
  ii_placeholders : Forall (λ e, (∃ i, fst e = Placeholder i) ∧ snd e = None) ents
}.

(** [σ'] agrees with [σ] on the real-space cache and on every link below
    [bound]. *)
Definition below (bound : addr) (σ σ' : state) : Prop :=
  (∀ a, a < bound → heap σ' !! a = heap σ !! a) ∧
  _cache σ' = _cache σ ∧ _root σ' = _root σ ∧ drawn σ' = drawn σ.

(** The table a miss builds, as a function of the basis list and the draw
    arguments (the draws themselves only append to the log). *)
Definition build_rows (objs : list B) (args : Arg) (kwargs : gmap string Val)
    (width : nat) : result (list (list Q)) :=
  foldr (λ obj acc,
           match drawImage_basis obj args kwargs with
           | Raise e => Raise e
           | Ok im =>
               match assign_row width (ravel im) with
               | Raise e => Raise e
               | Ok row => match acc with
                           | Ok rows => Ok (row :: rows)
                           | Raise e => Raise e
                           end
               end
           end) (Ok []) objs.

Definition build_table (self : Series) (k : ckey) : result table :=
  let '(_, args, kwargs_items) := k in
  let kwargs : gmap string Val := list_to_map kwargs_items in
  match _getBasisFuncs self with
  | Raise e => Raise e
  | Ok [] => Raise IndexError
  | Ok (obj0 :: objs') =>
      match drawImage_basis obj0 args kwargs with
      | Raise e => Raise e
      | Ok im0 =>
          let shp := shape im0 in
          match build_rows (obj0 :: objs') args kwargs (fst shp * snd shp) with
          | Raise e => Raise e
          | Ok cube => Ok (Table cube shp)
          end
      end
  end.

(** The draw calls of a successful miss: the first basis profile once for
    the shape, then every basis profile in order. *)
Definition miss_draws (self : Series) (k : ckey) : list drawcall :=
  let '(_, args, kwargs_items) := k in
  let kwargs : gmap string Val := list_to_map kwargs_items in
  match _getBasisFuncs self with
  | Ok (obj0 :: objs') => map (λ o, (o, args, kwargs)) (obj0 :: obj0 :: objs')
  | _ => []
  end.

(** A call whose basis profiles can all be drawn into one cube. *)
Definition drawable (c : Series * ckey) : Prop :=
  is_ok (build_table (fst c) (snd c)) = true.

(** A sequence of calls [self._basisCube(key)]. *)
Definition accesses (calls : list (Series * ckey)) : M state unit :=
  for_each calls (λ c, bind (_basisCube (fst c) (snd c)) (λ _, ret tt)).

(** [Series.__init__(maxcache)] on a fresh interpreter followed by a
    sequence of [_basisCube] calls. *)
Definition fresh_run (maxcache : Z) (calls : list (Series * ckey)) : result unit * state :=
  bind (Series__init__ maxcache) (λ _, accesses calls) empty_state.

End Cache.

(** *** Concrete instances used to exercise the model

    Series identities, positional arguments and keyword values are numbers;
    basis profile [b] draws as the 1x1 image holding [b]. *)

Definition unit_draw (b : nat) (args : nat) (kwargs : gmap string nat) : result ndarray :=
  Ok (NdArray (1, 1) [inject_Z (Z.of_nat b)]).

(** A series with identity [i] and the two basis profiles [i] and [i+1]. *)
Definition toy_series (i : nat) : @Series nat nat :=
  MkSeries (Ok i) (Ok [i; S i]) (Ok [1%Q; 2%Q]).

Definition toy_key (i : nat) : @ckey nat nat nat := (i, 0, []).

(** A second instance with the identity of [toy_series 0] and other
    coefficients. *)
Definition toy_twin : @Series nat nat :=
  MkSeries (Ok 0) (Ok [0; 1]) (Ok [5%Q; 7%Q]).

Definition toy_kwargs : gmap string nat := {[ "scale" := 1 ]}.

Definition toy_call (i : nat) : @Series nat nat * @ckey nat nat nat :=
  (toy_series i, toy_key i).

(** Basis profile [b] draws in Fourier space as the 1x1 images holding [b]
    and 0. *)
Definition unit_drawK (b : nat) (args : nat) (kwargs : gmap string nat)
  : result (ndarray * ndarray) :=
  Ok (NdArray (1, 1) [inject_Z (Z.of_nat b)], NdArray (1, 1) [0%Q]).

Definition toy_session (maxcache : Z) (calls : list (@call nat nat nat nat))
  : result unit * @state nat nat nat _ _ _ _ _ _ nat :=
  session unit_draw unit_drawK maxcache calls.

Definition toy_real (i : nat) : @call nat nat nat nat := Real (toy_series i) (toy_key i).
Definition toy_fourier (i : nat) : @call nat nat nat nat := Fourier (toy_series i) (toy_key i).

End SeriesCache.

(** ** SeriesConvolution (series.py) *)

Module Convolution.

(** What can sit in [self.objlist]: a plain profile ([galsim.GSObject]),
    known by its identity; a Series that is not a SeriesConvolution, with
    the basis profiles and coefficients its own methods return; or any
    other object, which [__init__] appends unchecked. *)
Inductive operand : Type :=
| Profile (id : nat)
| Prim (id : nat) (basis : list nat) (coeffs : list Q)
| Junk.

#[export] Instance Q_eq_dec : EqDecision Q.
Proof. solve_decision. Defined.

#[export] Instance operand_eq_dec : EqDecision operand.
Proof. solve_decision. Defined.

(** A Python value passed to the constructor. *)
Inductive pyobj : Type :=
| Operand (o : operand)
| SC (objlist : list operand).

Inductive posarg : Type :=
| Obj (o : pyobj)
| PyList (l : list pyobj).

Record SeriesConvolution : Type := MkSC {
  objlist : list operand;
  gsparams : option nat
}.

(** The result of [galsim.Convolve( *o )] for a tuple [o]. *)
Inductive basisfn : Type :=
| Convolve (o : list pyobj).

(** The part of the interpreter state the constructor touches.  A lambda
    keeps the variable [obj] of the call that created it, not its value:
    [cells] holds the current value of that variable for every call of
    [__init__], and [patched] tells which cell the three lambdas patched
    onto a plain profile refer to. *)
Record store : Type := Store {
  cells : gmap nat pyobj;
  patched : gmap nat nat;
  next_cell : nat
}.

Definition empty_store : store := Store ∅ ∅ 0.

(** [obj = v] in the call whose variable lives in cell [c]. *)
Definition assign (c : nat) (v : pyobj) : M store unit :=
  modify (λ st, Store (<[c := v]> (cells st)) (patched st) (next_cell st)).

(** [obj._getCoeffs = lambda: [1.0]; obj._getBasisFuncs = lambda: [obj];
    obj._series_idx = lambda: id(obj)] on the profile with identity [g]. *)
Definition patch (g c : nat) : M store unit :=
  modify (λ st, Store (cells st) (<[g := c]> (patched st)) (next_cell st)).

Definition new_cell : M store nat :=
  λ st, (Ok (next_cell st), Store (cells st) (patched st) (S (next_cell st))).

(** The first branch of [__init__], on the number and kind of arguments. *)
Definition unpack_args (args : list posarg) : result (list pyobj) :=
  match args with
  | [] => Raise (ValueError "Must provide at least one Series or GSObject")
  | [Obj (Operand Junk)] =>
      Raise (TypeError "Single input argument must be a Series or GSObject or a list of them.")
  | [Obj o] => Ok [o]
  | [PyList l] => Ok l
  | _ => Ok (map (λ a, match a with Obj o => o | PyList _ => Operand Junk end) args)
  end.

(** The loop [for obj in args] that unpacks convolutions of convolutions
    into [self.objlist]; [c] is the cell of the loop variable. *)
Fixpoint unpack_loop (c : nat) (args : list pyobj) (acc : list operand)
  : M store (list operand) :=
  match args with
  | [] => ret acc
  | obj :: rest =>
      bind (assign c obj) (λ _,
        match obj with
        | SC l => unpack_loop c rest (acc ++ l)
        | Operand o => unpack_loop c rest (acc ++ [o])
        end)
  end.

(** The loop [for obj in self.objlist] that patches the plain profiles. *)
Definition patch_loop (c : nat) (objl : list operand) : M store unit :=
  for_each objl (λ obj,
    bind (assign c (Operand obj)) (λ _,
      match obj with
      | Profile g => patch g c
      | _ => ret tt
      end)).

(** [SeriesConvolution.__init__(self, *args, **kwargs)]; [extra] are the
    keyword names other than [gsparams].  The call [super().__init__()] at
    the end only initialises the Series cache (module [SeriesCache]) and is
    left out here. *)
Definition __init__ (args : list posarg) (gsp : option nat) (extra : list string)
  : M store SeriesConvolution :=
  (do args <- lift (unpack_args args);
   match extra with
   | _ :: _ => raise (TypeError "Got unexpected keyword argument(s)")
   | [] =>
       do c <- new_cell;
       do objl <- unpack_loop c args [];
       patch_loop c objl;;
       ret (MkSC objl gsp)
   end)%py.

(** The operand list the constructor builds: convolutions are replaced by
    their operands, one level deep. *)
Definition flatten (args : list pyobj) : list operand :=
  concat (map (λ obj, match obj with SC l => l | Operand o => [o] end) args).

(** [obj._getCoeffs()] and [obj._getBasisFuncs()] for a member of
    [objlist]: a Series answers itself, a plain profile answers through the
    lambdas patched onto it, which read the variable [obj] when called. *)
Definition operand_coeffs (st : store) (o : operand) : result (list Q) :=
  match o with
  | Prim _ _ coeffs => Ok coeffs
  | Profile g =>
      match patched st !! g with
      | Some _ => Ok [1%Q]
      | None => Raise (AttributeError "_getCoeffs")
      end
  | Junk => Raise (AttributeError "_getCoeffs")
  end.

Definition operand_basis (st : store) (o : operand) : result (list pyobj) :=
  match o with
  | Prim _ basis _ => Ok (map (λ b, Operand (Profile b)) basis)
  | Profile g =>
      match patched st !! g with
      | Some c =>
          match cells st !! c with
          | Some v => Ok [v]
          | None => Raise (RuntimeError "free variable 'obj' referenced before assignment")
          end
      | None => Raise (AttributeError "_getBasisFuncs")
      end
  | Junk => Raise (AttributeError "_getBasisFuncs")
  end.

(** A list comprehension over calls that may raise. *)
Fixpoint collect {A X} (f : A → result X) (xs : list A) : result (list X) :=
  match xs with
  | [] => Ok []
  | x :: xs' =>
      match f x with
      | Raise e => Raise e
      | Ok y => match collect f xs' with
                | Raise e => Raise e
                | Ok ys => Ok (y :: ys)
                end
      end
  end.

(** [itertools.product( *lists )]: the last list varies fastest. *)
Fixpoint product {X} (lists : list (list X)) : list (list X) :=
  match lists with
  | [] => [[]]
  | l :: rest => flat_map (λ x, map (cons x) (product rest)) l
  end.

(** The outer product of two coefficient arrays, raveled in C order. *)
Definition outer (xs ys : list Q) : list Q :=
  flat_map (λ x, map (Qmult x) ys) xs.

(** The shape [np.ix_] gives the [k]-th of [n] one-dimensional arrays: [n]
    dimensions, the length [len] of the array on axis [k] and 1 on every
    other axis. *)
Definition ix_shape (n k len : nat) : list nat :=
  replicate k 1%nat ++ len :: replicate (n - S k) 1%nat.

(** [np.ix_( *arrays )] from the [k]-th array on: each array with the
    shape of its open mesh, its entries in order. *)
Fixpoint ix_from (n k : nat) (arrays : list (list Q)) : list (list nat * list Q) :=
  match arrays with
  | [] => []
  | a :: rest => (ix_shape n k (length a), a) :: ix_from n (S k) rest
  end.

Definition ix_ (arrays : list (list Q)) : list (list nat * list Q) :=
  ix_from (length arrays) 0 arrays.

(** [np.multiply.reduce(t).ravel()] for the tuple [t] that [np.ix_]
    returned.  numpy first makes one array of the tuple, whose shape is
    the number of members followed by the leading dimensions all members
    share:
    - no member: the empty array, whose product is [1.0];
    - members of one shape: an array of numbers with one more axis,
      multiplied entry by entry along it;
    - members whose first dimensions differ: a one-dimensional array of
      objects, the members themselves, multiplied left to right with
      broadcasting, which for an open mesh is the outer product;
    - members whose first dimensions agree but whose shapes differ: numpy
      sets out to fill an array of the shared leading dimensions with the
      members, which do not fit, and raises [ValueError] (could not
      broadcast input array from shape ... into shape ...). *)
Definition multiply_reduce (t : list (list nat * list Q)) : result (list Q) :=
  match t with
  | [] => Ok [1%Q]
  | (s, a) :: rest =>
      if forallb (λ m, bool_decide (fst m = s)) rest then
        Ok (foldl (zip_with Qmult) a (map snd rest))
      else if forallb (λ m, bool_decide (head (fst m) = head s)) rest then
        Raise (ValueError "could not broadcast input array")
      else Ok (foldl outer a (map snd rest))
  end.

(** [np.multiply.reduce(np.ix_( *arrays )).ravel()]. *)
Definition multiply_reduce_ix (arrays : list (list Q)) : result (list Q) :=
  multiply_reduce (ix_ arrays).

(** [SeriesConvolution._getCoeffs(self)]. *)
Definition _getCoeffs (st : store) (self : SeriesConvolution) : result (list Q) :=
  match collect (operand_coeffs st) (objlist self) with
  | Raise e => Raise e
  | Ok arrays => multiply_reduce_ix arrays
  end.

(** [SeriesConvolution._getBasisFuncs(self)]. *)
Definition _getBasisFuncs (st : store) (self : SeriesConvolution) : result (list basisfn) :=
  match collect (operand_basis st) (objlist self) with
  | Raise e => Raise e
  | Ok lists => Ok (map Convolve (product lists))
  end.

(** *** The expansion the operands stand for

    A Series stands for its own basis and coefficients; a plain profile
    stands for the one-term series of itself with coefficient [1.0], as the
    lambdas of [__init__] spell out. *)
Definition intended_basis (o : operand) : result (list pyobj) :=
  match o with
  | Prim _ basis _ => Ok (map (λ b, Operand (Profile b)) basis)
  | Profile g => Ok [Operand (Profile g)]
  | Junk => Raise (AttributeError "_getBasisFuncs")
  end.

Definition intended_coeffs (o : operand) : result (list Q) :=
  match o with
  | Prim _ _ coeffs => Ok coeffs
  | Profile g => Ok [1%Q]
  | Junk => Raise (AttributeError "_getCoeffs")
  end.

(** What the patched lambdas answer once [__init__] has returned: the
    variable [obj] then holds the last member [lastv] of [objlist],
    whichever profile the lambda was patched onto. *)
Definition late_basis (lastv : operand) (o : operand) : result (list pyobj) :=
  match o with
  | Profile _ => Ok [Operand lastv]
  | _ => intended_basis o
  end.

(** Two plain profiles and a two-term series, to exercise the model. *)
Definition g1 : pyobj := Operand (Profile 1).
Definition g2 : pyobj := Operand (Profile 2).
Definition spergel : pyobj := Operand (Prim 10 [100; 101] [2%Q; 3%Q]).

(** The product of one tuple of coefficients, left to right. *)
Definition tuple_product (t : list Q) : Q :=
  match t with
  | [] => 1%Q
  | x :: rest => foldl Qmult x rest
  end.

(** The coefficient arrays numpy can reduce: a single array, a first
    array with other than one entry, or arrays of one entry each. *)
Definition reduce_ok (arrays : list (list Q)) : bool :=
  match arrays with
  | [] => true
  | a :: rest => negb (length a =? 1)%nat || forallb (λ b, (length b =? 1)%nat) rest
  end.

(** An operand that keeps the length invariant itself: a Series answers
    as many coefficients as basis profiles. *)
Definition balanced (o : operand) : Prop :=
  match o with
  | Prim _ basis coeffs => length basis = length coeffs
  | _ => True
  end.

End Convolution.

(** ** drawImage (gsobject.py) *)

Module Draw.
#[local] Open Scope Q_scope.

Definition PositionD : Type := Q * Q.

(** [galsim.BoundsI]: undefined, or [xmin, xmax, ymin, ymax]. *)
Inductive BoundsI : Type :=
| Undefined
| Bounds (xmin xmax ymin ymax : Z).

Definition isDefined (b : BoundsI) : bool :=
  match b with Undefined => false | Bounds _ _ _ _ => true end.

(** The local linear map of a coordinate system at one point. *)
Inductive LocalWCS : Type :=
| LocalScale (scale : Q)
| LocalJacobian (dudx dudy dvdx dvdy : Q).

(** [galsim.BaseWCS]: a pixel scale, another uniform system, or a system
    that varies over the image (known by a name; its local map at a point
    is given by the library). *)
Inductive WCS : Type :=
| PixelScale (scale : Q)
| JacobianWCS (dudx dudy dvdx dvdy : Q)
| NonUniform (name : nat).

Definition isUniform (w : WCS) : bool :=
  match w with NonUniform _ => false | _ => true end.

Definition Qabs' (x : Q) : Q := if Qle_bool 0 x then x else Qopp x.

(** [local_wcs.pixelArea()]. *)
Definition pixelArea (lw : LocalWCS) : Q :=
  match lw with
  | LocalScale s => s * s
  | LocalJacobian a b c d => Qabs' (a * d - b * c)
  end.

(** Profiles as [drawImage] builds them from the object being drawn. *)
Inductive Profile : Type :=
| Base (id : nat)
| ToImage (lw : LocalWCS) (p : Profile)
| ConvolvePixel (real_space : option bool) (p : Profile)
| Shift (offset : PositionD) (p : Profile)
| ScaleFlux (flux_ratio : Q) (p : Profile).

Inductive ImageArg (I : Type) : Type :=
| NoImage
| NotAnImage
| AnImage (im : I).
Arguments NoImage {I}.
Arguments NotAnImage {I}.
Arguments AnImage {I} im.

Inductive OffsetArg : Type :=
| NoOffset
| Position (x y : Q)
| Pair (x y : Q)
| BadOffset.

Inductive RngArg : Type :=
| NoRng
| Deviate (seed : nat)
| NotADeviate.

Section Renderer.
(** Pixel buffers and the numerical back end ([SBProfile], [Image],
    [Bounds]) are outside gsobject.py. *)
Context {Px : Type}.
Variable zeros : BoundsI → Px.
Variable nyquistScale : Profile → Q.
Variable getGoodImageSize : Profile → Q → Q → Z.
Variable trueCenter : BoundsI → PositionD.
Variable center : BoundsI → PositionD.
Variable local_at : nat → PositionD → LocalWCS.
Variable SBdraw : Profile → BoundsI → Px → Q → Px * Q.
Variable SBdrawShoot :
  Profile → BoundsI → Px → Q → option nat → Q → bool → bool → result (Px * Q).

Record Image : Type := MkImage {
  bounds : BoundsI;
  wcs : option WCS;
  pixels : Px;
  added_flux : option Q
}.

(** The image the call works on (the caller's, once given or made) and the
    profiles handed to the back end for drawing. *)
Record world : Type := World {
  image : option Image;
  drawn : list Profile
}.

Definition with_image (f : Image → Image) : M world unit :=
  modify (λ w, World (f <$> image w) (drawn w)).

Definition set_wcs (v : option WCS) (im : Image) : Image :=
  MkImage (bounds im) v (pixels im) (added_flux im).
Definition setZero (im : Image) : Image :=
  MkImage (bounds im) (wcs im) (zeros (bounds im)) (added_flux im).
Definition resize (b : BoundsI) (im : Image) : Image :=
  MkImage b (wcs im) (zeros b) (added_flux im).
Definition set_added_flux (v : Q) (im : Image) : Image :=
  MkImage (bounds im) (wcs im) (pixels im) (Some v).
Definition set_pixels (v : Px) (im : Image) : Image :=
  MkImage (bounds im) (wcs im) v (added_flux im).

(** [galsim.Image(bounds=bounds)] and [galsim.Image(nx, ny)]. *)
Definition new_Image (b : BoundsI) : Image := MkImage b None (zeros b) None.

Definition make_image (b : BoundsI) : M world unit :=
  modify (λ w, World (Some (new_Image b)) (drawn w)).

(** [GSObject._setup_image]. *)
Definition _setup_image (self : Profile) (nx ny : option Z) (bnds : option BoundsI)
    (wmult : Q) (add_to_image : bool) (dtype : option nat) : M world unit :=
  (do im <- gets image;
   match im with
   | Some _ =>
       if bool_decide (bnds ≠ None) then
         raise (ValueError "Cannot provide bounds if image is provided")
       else if bool_decide (nx ≠ None ∨ ny ≠ None) then
         raise (ValueError "Cannot provide nx,ny if image is provided")
       else if bool_decide (dtype ≠ None) then
         raise (ValueError "Cannot specify dtype if image is provided")
       else ret tt
   | None => ret tt
   end;;
   match im with
   | None =>
       if add_to_image then raise (ValueError "Cannot add_to_image if image is None")
       else match bnds with
            | Some b =>
                if bool_decide (nx ≠ None ∨ ny ≠ None) then
                  raise (ValueError "Cannot set both bounds and (nx, ny)")
                else make_image b
            | None =>
                match nx, ny with
                | None, None =>
                    let N := getGoodImageSize self 1 wmult in
                    make_image (Bounds 1 N 1 N)
                | Some x, Some y => make_image (Bounds 1 x 1 y)
                | _, _ => raise (ValueError "Must set either both or neither of nx, ny")
                end
            end
   | Some i =>
       if negb (isDefined (bounds i)) then
         if add_to_image then
           raise (ValueError "Cannot add_to_image if image bounds are not defined")
         else
           let N := getGoodImageSize self 1 wmult in
           with_image (resize (Bounds 1 N 1 N));;
           with_image setZero
       else
         if negb add_to_image then with_image setZero else ret tt
   end)%py.

(** [wcs.local()] for a uniform system. *)
Definition local_uniform (w : WCS) : LocalWCS :=
  match w with
  | PixelScale s => LocalScale s
  | JacobianWCS a b c d => LocalJacobian a b c d
  | NonUniform n => local_at n (0, 0)
  end.

Definition pos_add (p q : PositionD) : PositionD := (fst p + fst q, snd p + snd q).

(** [GSObject._local_wcs]. *)
Definition _local_wcs (w : WCS) (offset : PositionD) (use_true_center : bool)
  : M world LocalWCS :=
  (do im <- gets image;
   if isUniform w then ret (local_uniform w)
   else match im with
        | None => raise (ValueError "Cannot provide non-local wcs when image is None")
        | Some i =>
            if negb (isDefined (bounds i)) then
              raise (ValueError "Cannot provide non-local wcs when image has undefined bounds")
            else
              let obj_cen := if use_true_center then trueCenter (bounds i)
                             else center (bounds i) in
              let obj_cen := pos_add obj_cen offset in
              match w with
              | NonUniform n => ret (local_at n obj_cen)
              | _ => ret (local_uniform w)
              end
        end)%py.

(** [GSObject._parse_offset]. *)
Definition _parse_offset (offset : OffsetArg) : result PositionD :=
  match offset with
  | NoOffset => Ok (0, 0)
  | Position x y => Ok (x, y)
  | Pair x y => Ok (x, y)
  | BadOffset => Raise (TypeError "offset is not a position")
  end.

(** [GSObject._get_shape]: numpy order, [(ny, nx)]. *)
Definition _get_shape (im : option Image) (nx ny : option Z) (bnds : option BoundsI)
  : Z * Z :=
  match im with
  | Some (MkImage (Bounds xmin xmax ymin ymax) _ _ _) =>
      (ymax - ymin + 1, xmax - xmin + 1)
  | _ =>
      match nx, ny with
      | Some x, Some y => (y, x)
      | _, _ =>
          match bnds with
          | Some (Bounds xmin xmax ymin ymax) => (ymax - ymin + 1, xmax - xmin + 1)
          | _ => (0, 0)
          end
      end
  end%Z.

Definition pos_eqb (p q : PositionD) : bool :=
  Qeq_bool (fst p) (fst q) && Qeq_bool (snd p) (snd q).

(** [GSObject._fix_center]. *)
Definition _fix_center (self : Profile) (shp : Z * Z) (offset : PositionD)
    (use_true_center reverse : bool) : Profile :=
  let offset :=
    if use_true_center then
      let dx := fst offset in
      let dy := snd offset in
      let dx := if (snd shp mod 2 =? 0)%Z then dx - (1 # 2) else dx in
      let dy := if (fst shp mod 2 =? 0)%Z then dy - (1 # 2) else dy in
      (dx, dy)
    else offset in
  let offset := if reverse then (- fst offset, - snd offset) else offset in
  if pos_eqb offset (0, 0) then self else Shift offset self.

(** [GSObject._determine_wcs] with [default_wcs=None]. *)
Definition _determine_wcs (self : Profile) (scale : option Q) (w : option WCS)
  : M world WCS :=
  (do im <- gets image;
   do w1 <-
     match w with
     | Some wc =>
         match scale with
         | Some _ => raise (ValueError "Cannot provide both wcs and scale")
         | None =>
             (if negb (isUniform wc) then
                match im with
                | None => raise (ValueError "Cannot provide non-local wcs when image is None")
                | Some i =>
                    if negb (isDefined (bounds i)) then
                      raise (ValueError
                               "Cannot provide non-local wcs when image has undefined bounds")
                    else ret tt
                end
              else ret tt);;
             with_image (set_wcs None);;
             ret (Some wc)
         end
     | None =>
         match scale with
         | Some sc => with_image (set_wcs None);; ret (Some (PixelScale sc))
         | None =>
             match im with
             | Some i => ret (wcs i)
             | None => ret None
             end
         end
     end;
   match w1 with
   | None => ret (PixelScale (nyquistScale self))
   | Some (PixelScale sc) =>
       if Qle_bool sc 0 then ret (PixelScale (nyquistScale self)) else ret (PixelScale sc)
   | Some wc => ret wc
   end)%py.

(** [local_wcs.toImage(self)]. *)
Definition toImage (lw : LocalWCS) (p : Profile) : Profile := ToImage lw p.

(** The keyword arguments of [drawImage]. *)
Record DrawArgs : Type := MkArgs {
  a_image : ImageArg Image;
  a_nx : option Z;
  a_ny : option Z;
  a_bounds : option BoundsI;
  a_scale : option Q;
  a_wcs : option WCS;
  a_dtype : option nat;
  a_method : string;
  a_area : Q;
  a_exptime : Q;
  a_gain : Q;
  a_add_to_image : bool;
  a_use_true_center : bool;
  a_offset : OffsetArg;
  a_n_photons : Q;
  a_rng : RngArg;
  a_max_extra_noise : Q;
  a_poisson_flux : option bool;
  a_setup_only : bool;
  a_dx : option Q;
  a_wmult : option Q
}.

(** The scale after the obsolete alias [dx] is resolved. *)
Definition effective_scale (a : DrawArgs) : option Q :=
  match a_dx a, a_scale a with
  | Some d, None => Some d
  | _, sc => sc
  end.

Definition valid_methods : list string :=
  ["auto"; "fft"; "real_space"; "phot"; "no_pixel"; "sb"].

Definition Qeqb0 (x : Q) : bool := Qeq_bool x 0.

(** The checks of [drawImage] that only concern [method='phot'], or forbid
    its parameters for the other methods; the result is the resolved
    [poisson_flux]. *)
Definition check_phot (a : DrawArgs) : result bool :=
  if String.eqb (a_method a) "phot" then
    if negb (Qle_bool 0 (a_n_photons a)) then Raise (ValueError "Invalid n_photons < 0.")
    else
      let poisson_flux :=
        match a_poisson_flux a with
        | Some b => b
        | None => Qeqb0 (a_n_photons a)
        end in
      match a_rng a with
      | NotADeviate => Raise (TypeError "The rng provided is not a BaseDeviate")
      | _ => Ok poisson_flux
      end
  else
    if negb (Qeqb0 (a_n_photons a)) then
      Raise (ValueError "n_photons is only relevant for method='phot'")
    else if negb (match a_rng a with NoRng => true | _ => false end) then
      Raise (ValueError "rng is only relevant for method='phot'")
    else if negb (Qeqb0 (a_max_extra_noise a)) then
      Raise (ValueError "max_extra_noise is only relevant for method='phot'")
    else match a_poisson_flux a with
         | Some _ => Raise (ValueError "poisson_flux is only relevant for method='phot'")
         | None => Ok false
         end.

Definition rng_seed (r : RngArg) : option nat :=
  match r with Deviate s => Some s | _ => None end.

(** [flux_scale = area * exptime / gain], divided by the pixel area for
    [method='sb']; dividing by a zero pixel area raises. *)
Definition flux_scale (a : DrawArgs) (lw : LocalWCS) : result Q :=
  let fs := a_area a * a_exptime a / a_gain a in
  if String.eqb (a_method a) "sb" then
    if Qeqb0 (pixelArea lw) then Raise ZeroDivisionError
    else Ok (fs / pixelArea lw)
  else Ok fs.

(** Everything [drawImage] does before the flux is scaled: validation, the
    coordinate system, the image-coordinate profile with the pixel
    convolved in and the centre fixed, and the image set up.  The result is
    the profile, the local coordinate system, [wmult] and the resolved
    [poisson_flux]. *)
Definition prepare (self : Profile) (a : DrawArgs)
  : M world (Profile * LocalWCS * Q * bool) :=
  (let scale := effective_scale a in
   let wmult := match a_wmult a with Some w => w | None => 1 end in
   match a_image a with
   | NotAnImage => raise (ValueError "image is not an Image instance")
   | _ => ret tt
   end;;
   (if Qle_bool (a_gain a) 0 then raise (ValueError "Invalid gain <= 0.") else ret tt);;
   (if Qle_bool (a_area a) 0 then raise (ValueError "Invalid area <= 0.") else ret tt);;
   (if Qle_bool (a_exptime a) 0 then raise (ValueError "Invalid exptime <= 0.") else ret tt);;
   (if bool_decide (a_method a ∈ valid_methods) then ret tt
    else raise (ValueError "Invalid method name"));;
   do poisson_flux <- lift (check_phot a);
   (if bool_decide (scale = None ∧ a_wcs a = None ∧
                    (a_nx a ≠ None ∨ a_ny a ≠ None ∨ a_bounds a ≠ None))
    then raise (ValueError "Must provide scale if providing nx,ny or bounds")
    else ret tt);;
   do w <- _determine_wcs self scale (a_wcs a);
   do offset <- lift (_parse_offset (a_offset a));
   do local_wcs <- _local_wcs w offset (a_use_true_center a);
   let prof := toImage local_wcs self in
   let prof :=
     if bool_decide (a_method a ∈ ["auto"; "fft"; "real_space"]) then
       let real_space :=
         if String.eqb (a_method a) "auto" then None
         else if String.eqb (a_method a) "fft" then Some false
         else Some true in
       ConvolvePixel real_space prof
     else prof in
   do im <- gets image;
   let shp := _get_shape im (a_nx a) (a_ny a) (a_bounds a) in
   let prof := _fix_center prof shp offset (a_use_true_center a) false in
   _setup_image prof (a_nx a) (a_ny a) (a_bounds a) wmult (a_add_to_image a) (a_dtype a);;
   with_image (set_wcs (Some w));;
   ret (prof, local_wcs, wmult, poisson_flux))%py.

Definition log_profile (p : Profile) : M world unit :=
  modify (λ w, World (image w) (drawn w ++ [p])).

(** [GSObject.drawImage]; the state starts with the caller's image, if
    any, and ends with the image that is returned. *)
Definition drawImage (self : Profile) (a : DrawArgs) : M world Image :=
  (do '(prof, local_wcs, wmult, poisson_flux) <- prepare self a;
   if a_setup_only a then
     with_image (set_added_flux 0);;
     do im <- gets image;
     match im with Some i => ret i | None => raise (RuntimeError "no image") end
   else
     do fs <- lift (flux_scale a local_wcs);
     let prof := ScaleFlux fs prof in
     do im <- gets image;
     match im with
     | None => raise (RuntimeError "no image")
     | Some i =>
         log_profile prof;;
         do added_photons <-
           (if String.eqb (a_method a) "phot" then
              match SBdrawShoot prof (bounds i) (pixels i) (a_n_photons a)
                      (rng_seed (a_rng a)) (a_max_extra_noise a) poisson_flux
                      (a_add_to_image a) with
              | Ok (px, n) => with_image (set_pixels px);; ret n
              | Raise e => raise e
              end
            else
              let '(px, n) := SBdraw prof (bounds i) (pixels i) wmult in
              with_image (set_pixels px);; ret n);
         with_image (set_added_flux (added_photons / fs));;
         do im' <- gets image;
         match im' with Some i' => ret i' | None => raise (RuntimeError "no image") end
     end)%py.

(** The state a call starts from. *)
Definition start (a : DrawArgs) : world :=
  World (match a_image a with AnImage im => Some im | _ => None end) [].

(** The image-coordinate profile before centring: convolved with the unit
    pixel for the methods that integrate over the pixel. *)
Definition image_profile (self : Profile) (a : DrawArgs) (lw : LocalWCS) : Profile :=
  if bool_decide (a_method a ∈ ["auto"; "fft"; "real_space"]) then
    ConvolvePixel
      (if String.eqb (a_method a) "auto" then None
       else if String.eqb (a_method a) "fft" then Some false
       else Some true)
      (toImage lw self)
  else toImage lw self.

(** The shape [drawImage] passes to [_fix_center]. *)
Definition target_shape (a : DrawArgs) : Z * Z :=
  _get_shape (image (start a)) (a_nx a) (a_ny a) (a_bounds a).

End Renderer.

(** The error class the design names ConfigurationError: the exceptions
    Python code raises for invalid arguments. *)
Definition is_ConfigurationError (e : exn) : bool :=
  match e with
  | ValueError _ | TypeError _ => true
  | _ => false
  end.

Definition is_ValueError (e : exn) : bool :=
  match e with ValueError _ => true | _ => false end.

(** What a step may change while nothing has been drawn: the profiles
    handed to the back end and the pixels and bounds of the caller's image
    stay as they are. *)
Definition untouched {Px} (w w' : @world Px) : Prop :=
  drawn w' = drawn w ∧
  pixels <$> image w' = pixels <$> image w ∧
  bounds <$> image w' = bounds <$> image w.

(** The argument combinations for which [drawImage] must refuse to draw. *)
Definition misconfigured {Px} (a : @DrawArgs Px) : Prop :=
  a_method a ∉ valid_methods ∨
  a_gain a <= 0 ∨ a_area a <= 0 ∨ a_exptime a <= 0 ∨
  ((a_nx a ≠ None ∨ a_ny a ≠ None ∨ a_bounds a ≠ None) ∧
   effective_scale a = None ∧ a_wcs a = None) ∨
  (is_Some (image (start a)) ∧
   (a_nx a ≠ None ∨ a_ny a ≠ None ∨ a_bounds a ≠ None)) ∨
  (is_Some (effective_scale a) ∧ is_Some (a_wcs a)).

(** The shift of C7 read without [use_true_center]: the user offset less
    half a pixel along every even axis. *)
Definition half_pixel_offset (shp : Z * Z) (offset : PositionD) : PositionD :=
  (if (snd shp mod 2 =? 0)%Z then fst offset - (1 # 2) else fst offset,
   if (fst shp mod 2 =? 0)%Z then snd offset - (1 # 2) else snd offset).

(** The shift [_fix_center] applies for [reverse=False]. *)
Definition centering_offset (use_true_center : bool) (shp : Z * Z) (offset : PositionD)
  : PositionD :=
  if use_true_center then half_pixel_offset shp offset else offset.

(** [self.shift(offset)] unless the offset is zero. *)
Definition shifted (offset : PositionD) (p : Profile) : Profile :=
  if pos_eqb offset (0, 0) then p else Shift offset p.

(** *** A back end for examples: one-value pixel buffers, a Nyquist scale
    of 1, automatic images of 16 pixels a side, and a draw that reports
    unit flux. *)
Definition toy_zeros (b : BoundsI) : unit := tt.
Definition toy_nyquist (p : Profile) : Q := 1.
Definition toy_size (p : Profile) (dx wmult : Q) : Z := 16%Z.
Definition toy_center (b : BoundsI) : PositionD := (0, 0).
Definition toy_local (n : nat) (p : PositionD) : LocalWCS := LocalScale 1.
Definition toy_draw (p : Profile) (b : BoundsI) (px : unit) (wmult : Q) : unit * Q :=
  (tt, 1).
Definition toy_shoot (p : Profile) (b : BoundsI) (px : unit) (n : Q) (seed : option nat)
    (noise : Q) (poisson add : bool) : result (unit * Q) := Ok (tt, 1).

Definition toy_drawImage (self : Profile) (a : DrawArgs) : result (@Image unit) * @world unit :=
  drawImage toy_zeros toy_nyquist toy_size toy_center toy_center toy_local
    toy_draw toy_shoot self a (start a).

(** [drawImage()] with every argument at its default. *)
Definition default_args : @DrawArgs unit :=
  MkArgs NoImage None None None None None None "auto" 1 1 1 false true NoOffset
         0 NoRng 0 None false None None.

Definition with_method (m : string) (a : @DrawArgs unit) : @DrawArgs unit :=
  MkArgs (a_image a) (a_nx a) (a_ny a) (a_bounds a) (a_scale a) (a_wcs a) (a_dtype a)
         m (a_area a) (a_exptime a) (a_gain a) (a_add_to_image a) (a_use_true_center a)
         (a_offset a) (a_n_photons a) (a_rng a) (a_max_extra_noise a) (a_poisson_flux a)
         (a_setup_only a) (a_dx a) (a_wmult a).

(** A 4x4 image with a pixel scale of 1. *)
Definition image4 : @Image unit := MkImage (Bounds 1 4 1 4) (Some (PixelScale 1)) tt None.

(** [drawImage(image4, method='no_pixel', use_true_center=False)]. *)
Definition integer_center_args : @DrawArgs unit :=
  MkArgs (AnImage image4) None None None None None None "no_pixel" 1 1 1 false false
         NoOffset 0 NoRng 0 None false None None.

(** [drawImage(image4, method='no_pixel')]. *)
Definition true_center_args : @DrawArgs unit :=
  MkArgs (AnImage image4) None None None None None None "no_pixel" 1 1 1 false true
         NoOffset 0 NoRng 0 None false None None.

(** [drawImage(nx=4, ny=4, gain=0)]: two things wrong at once. *)
Definition bad_args : @DrawArgs unit :=
  MkArgs NoImage (Some 4%Z) (Some 4%Z) None None None None "auto" 1 1 0 false true
         NoOffset 0 NoRng 0 None false None None.

(** [drawImage(image4, method='no_pixel', setup_only=True)]. *)
Definition setup_only_args : @DrawArgs unit :=
  MkArgs (AnImage image4) None None None None None None "no_pixel" 1 1 1 false true
         NoOffset 0 NoRng 0 None true None None.

(** [drawImage(method='fft', n_photons=10)]. *)
Definition photon_args : @DrawArgs unit :=
  MkArgs NoImage None None None None None None "fft" 1 1 1 false true
         NoOffset 10 NoRng 0 None false None None.

(** [drawImage(scale=2, method='no_pixel')]. *)
Definition scaled_args : @DrawArgs unit :=
  MkArgs NoImage None None None (Some 2) None None "no_pixel" 1 1 1 false true
         NoOffset 0 NoRng 0 None false None None.

(** Photon-shooting parameters that [drawImage] refuses: a negative
    [n_photons] or a [rng] that is no deviate for [method='phot'], any of
    them set for another method. *)
Definition bad_photon_args {Px} (a : @DrawArgs Px) : Prop :=
  (a_method a = "phot" ∧ (a_n_photons a < 0 ∨ a_rng a = NotADeviate)) ∨
  (a_method a ≠ "phot" ∧
   (¬ a_n_photons a == 0 ∨ a_rng a ≠ NoRng ∨ ¬ a_max_extra_noise a == 0 ∨
    a_poisson_flux a ≠ None)).
End Draw.

(** ** SpergelSeries and MoffatSeries (series.py) *)

Module Affine.
#[local] Open Scope R_scope.

(** A 2x2 [np.matrix], [[[a, b], [c, d]]]. *)
Record matrix : Type := Matrix {
  m00 : R;
  m01 : R;
  m10 : R;
  m11 : R
}.

(** [A * J] for [np.matrix] operands: the matrix product. *)
Definition mmul (A J : matrix) : matrix :=
  Matrix (m00 A * m00 J + m01 A * m10 J) (m00 A * m01 J + m01 A * m11 J)
         (m10 A * m00 J + m11 A * m10 J) (m10 A * m01 J + m11 A * m11 J).

Definition det (A : matrix) : R := m00 A * m11 A - m01 A * m10 A.

(** The two classes share the code modelled here; they differ in [Delta]
    and in the coefficients. *)
Inductive cls : Type :=
| SpergelSeries
| MoffatSeries.

(** The attributes of an instance ([self.__dict__]).  [index] is [nu] or
    [beta].  [_A] refers to a mutable matrix object.  [ellip], [phi0] and
    [Delta] exist only once [_decomposeA] has set them. *)
Record series : Type := Obj {
  kind : cls;
  index : R;
  jmax : Z;
  dlnr : R;
  flux : R;
  gsparams : option nat;
  _A : nat;
  ellip : option R;
  phi0 : option R;
  scale_radius : R;
  Delta : option R
}.

(** Objects and matrices by identity; identities come from one counter. *)
Record store : Type := Store {
  objs : gmap nat series;
  mats : gmap nat matrix;
  next_id : nat
}.

Definition empty_store : store := Store ∅ ∅ 0.

Definition new_id : M store nat :=
  λ σ, (Ok (next_id σ), Store (objs σ) (mats σ) (S (next_id σ))).

Definition get_obj (a : nat) : M store series :=
  λ σ, match objs σ !! a with
       | Some o => (Ok o, σ)
       | None => (Raise (TypeError "not a series"), σ)
       end.

Definition set_obj (a : nat) (o : series) : M store unit :=
  modify (λ σ, Store (<[a := o]> (objs σ)) (mats σ) (next_id σ)).

Definition get_mat (a : nat) : M store matrix :=
  λ σ, match mats σ !! a with
       | Some A => (Ok A, σ)
       | None => (Raise (TypeError "not a matrix"), σ)
       end.

Definition set_mat (a : nat) (A : matrix) : M store unit :=
  modify (λ σ, Store (objs σ) (<[a := A]> (mats σ)) (next_id σ)).

(** *** Floating-point operations, over the reals

    Rounding is not modelled.  [math.sqrt] and [math.acosh] raise
    [ValueError] outside their domain.  Where numpy arithmetic would leave
    the finite numbers (division by zero, logarithm of zero, square root of
    a negative number: numpy warns and yields inf or nan) the model stops
    with [FloatingPointError], the exception numpy raises for these under
    [np.seterr(all='raise')]. *)
Definition math_sqrt (x : R) : result R :=
  if Rlt_dec x 0 then Raise (ValueError "math domain error") else Ok (sqrt x).

Definition np_sqrt (x : R) : result R :=
  if Rlt_dec x 0 then Raise FloatingPointError else Ok (sqrt x).

Definition np_div (x y : R) : result R :=
  if Req_dec_T y 0 then Raise FloatingPointError else Ok (x / y).

Definition np_log (x : R) : result R :=
  if Rle_dec x 0 then Raise FloatingPointError else Ok (ln x).

(** [np.modf(x)]: the fractional and the integral part, both with the sign
    of [x]. *)
Definition np_modf (x : R) : R * Z :=
  let i := if Rle_dec 0 x then Int_part x else (- Int_part (- x))%Z in
  (x - IZR i, i).

(** [math.factorial(n)]. *)
Definition math_factorial (n : Z) : result R :=
  if (n <? 0)%Z then Raise (ValueError "factorial() not defined for negative values")
  else Ok (INR (fact (Z.to_nat n))).

Definition Reqb (x y : R) : bool := if Req_dec_T x y then true else false.

Definition and_then {A B} (r : result A) (k : A → result B) : result B :=
  match r with
  | Ok a => k a
  | Raise e => Raise e
  end.

Notation "'let!' x := r 'in' k" := (and_then r (λ x, k))
  (at level 10, x name, r at level 100, k at level 200).

(** [xrange(lo, hi)]. *)
Definition xrange (lo hi : Z) : list Z :=
  map (λ i, lo + Z.of_nat i)%Z (seq 0 (Z.to_nat (hi - lo))).

(** The index pairs of the two nested loops
    [for j in xrange(jmax+1): for q in xrange(-j, j+1)]. *)
Definition jq_indices (jmax : Z) : list (Z * Z) :=
  flat_map (λ j, map (λ q, (j, q)) (xrange (- j) (j + 1))) (xrange 0 (jmax + 1)).

(** The lines of [_decomposeA] that snap [x = log(r0)/dlnr] to the nearest
    integer: the fractional part is brought into [0, 1) and then into
    (-1/2, 1/2]. *)
Definition nearest_step (x : R) : R * Z :=
  let '(f, i) := np_modf x in
  let '(f, i) := if Rlt_dec f 0 then (f + 1, (i - 1)%Z) else (f, i) in
  if Rlt_dec (1 / 2) f then (f - 1, (i + 1)%Z) else (f, i).

(** A basis profile: [Spergelet(nu, scale_radius, j, q, gsparams)] or
    [Moffatlet(beta, scale_radius, j, q, gsparams)]. *)
Record basislet : Type := Basislet {
  let_kind : cls;
  let_index : R;
  let_scale_radius : R;
  let_j : Z;
  let_q : Z;
  let_gsparams : option nat
}.

(** What [shear] can be handed. *)
Inductive pyarg (Shear : Type) : Type :=
| IsShear (s : Shear)
| Number (x : R).
Arguments IsShear {Shear} s.
Arguments Number {Shear} x.

Section Library.
(** Library functions used by series.py: [math.atan2], [math.acosh], the
    [e1] of [galsim.Shear(eta1=eta)], the scale radius of a [galsim.Spergel]
    or [galsim.Moffat] given by half-light radius or FWHM, and
    [galsim.Shear] with its matrix. *)
Variable atan2 : R → R → R.
Variable acosh : R → R.
Variable shear_e1 : R → R.
Variable getScaleRadius : cls → R → bool → R → result R.
Context {Shear : Type}.
Variable getMatrix : Shear → matrix.
Variable make_Shear : gmap string (pyarg Shear) → result Shear.

Definition math_acosh (x : R) : result R :=
  if Rlt_dec x 1 then Raise (ValueError "math domain error") else Ok (acosh x).

(** [mu], [ellip] and [r0] of [_decomposeA]: the continuous scale of the
    matrix. *)
Definition continuous_scale (A : matrix) : result (R * R * R) :=
  let a := m00 A in
  let b := m01 A in
  let c := m10 A in
  let d := m11 A in
  let! mu := math_sqrt (a * d - b * c) in
  let! x := np_div (1 / 2 * ((a - d) ^ 2 + (b + c) ^ 2)) (mu ^ 2) in
  let! eta := math_acosh (x + 1) in
  let ellip := shear_e1 eta in
  let! s1 := np_sqrt (1 - ellip ^ 2) in
  let! s2 := np_sqrt s1 in
  let! r0 := np_div mu s2 in
  Ok (mu, ellip, r0).

(** The body of the [if] of [_decomposeA]: [(ellip, phi0, scale_radius,
    Delta)] from the matrix. *)
Definition decompose (k : cls) (dlnr : R) (A : matrix) : result (R * R * R * R) :=
  let a := m00 A in
  let b := m01 A in
  let c := m10 A in
  let d := m11 A in
  let! mu := math_sqrt (a * d - b * c) in
  let phi0 := atan2 (c - b) (a + d) in
  let beta := atan2 (b + c) (a - d) + phi0 in
  let! x := np_div (1 / 2 * ((a - d) ^ 2 + (b + c) ^ 2)) (mu ^ 2) in
  let! eta := math_acosh (x + 1) in
  let ellip := shear_e1 eta in
  let! s1 := np_sqrt (1 - ellip ^ 2) in
  let! s2 := np_sqrt s1 in
  let! r0 := np_div mu s2 in
  let! lg := np_log r0 in
  let! x := np_div lg dlnr in
  let '(f, i) := nearest_step x in
  let scale_radius := exp (dlnr * IZR i) in
  let! Delta :=
    match k with
    | SpergelSeries => let! t := np_div r0 scale_radius in Ok (1 - t ^ 2)
    | MoffatSeries => let! t := np_div scale_radius r0 in Ok (1 - t ^ 2)
    end in
  Ok (ellip, phi0 + beta / 2, scale_radius, Delta).

Definition with_decomposition (e p s D : R) (o : series) : series :=
  Obj (kind o) (index o) (jmax o) (dlnr o) (flux o) (gsparams o) (_A o)
      (Some e) (Some p) s (Some D).

(** [del ret.ellip]. *)
Definition del_ellip (o : series) : series :=
  Obj (kind o) (index o) (jmax o) (dlnr o) (flux o) (gsparams o) (_A o)
      None (phi0 o) (scale_radius o) (Delta o).

Definition with_A (a : nat) (o : series) : series :=
  Obj (kind o) (index o) (jmax o) (dlnr o) (flux o) (gsparams o) a
      (ellip o) (phi0 o) (scale_radius o) (Delta o).

(** [SpergelSeries._decomposeA(self)] and [MoffatSeries._decomposeA(self)]. *)
Definition _decomposeA (self : nat) : M store (R * R * R * R) :=
  (do o <- get_obj self;
   match ellip o with
   | None =>
       do A <- get_mat (_A o);
       do '(e, p, s, D) <- lift (decompose (kind o) (dlnr o) A);
       set_obj self (with_decomposition e p s D o)
   | Some _ => ret tt
   end;;
   do o <- get_obj self;
   match ellip o with
   | None => raise (AttributeError "ellip")
   | Some e =>
       match phi0 o with
       | None => raise (AttributeError "phi0")
       | Some p =>
           match Delta o with
           | None => raise (AttributeError "Delta")
           | Some D => ret (e, p, scale_radius o, D)
           end
       end
   end)%py.

(** [self.copy()]: a new object whose attributes are [copy.copy] of the
    receiver's; the numbers are immutable, the matrix is copied into a new
    matrix object. *)
Definition copy (self : nat) : M store nat :=
  (do o <- get_obj self;
   do r <- new_id;
   do A <- get_mat (_A o);
   do a <- new_id;
   set_mat a A;;
   set_obj r (with_A a o);;
   ret r)%py.

(** [_applyMatrix(self, J)]; [ret._A *= J] multiplies the matrix object of
    the copy in place. *)
Definition _applyMatrix (self : nat) (J : matrix) : M store nat :=
  (do r <- copy self;
   do o <- get_obj r;
   do A <- get_mat (_A o);
   set_mat (_A o) (mmul A J);;
   match ellip o with
   | Some _ => set_obj r (del_ellip o)
   | None => ret tt
   end;;
   ret r)%py.

(** [dilate(self, scale)]. *)
Definition dilate (self : nat) (scale : R) : M store nat :=
  _applyMatrix self (Matrix scale 0 0 scale).

(** [rotate(self, theta)], with [rad = theta.rad()]. *)
Definition rotate (self : nat) (rad : R) : M store nat :=
  let cth := cos rad in
  let sth := sin rad in
  _applyMatrix self (Matrix cth (- sth) sth cth).

(** [shear._shear.getMatrix()]: a number has no attribute [_shear]. *)
Definition shear_matrix (v : pyarg Shear) : result matrix :=
  match v with
  | IsShear s => Ok (getMatrix s)
  | Number _ => Raise (AttributeError "_shear")
  end.

(** [shear(self, *args, **kwargs)]. *)
Definition shear (self : nat) (args : list (pyarg Shear))
    (kwargs : gmap string (pyarg Shear)) : M store nat :=
  (do sh <-
     match args with
     | [x] =>
         if bool_decide (kwargs ≠ ∅) then
           raise (TypeError "Gave both unnamed and named arguments!")
         else match x with
              | IsShear s => ret (IsShear s)
              | Number _ => raise (TypeError "Unnamed argument is not a Shear!")
              end
     | _ :: _ :: _ => raise (TypeError "Too many unnamed arguments!")
     | [] =>
         match kwargs !! "shear" with
         | Some v =>
             if bool_decide (delete "shear" kwargs ≠ ∅) then
               raise (TypeError "Too many kwargs provided!")
             else ret v
         | None => do s <- lift (make_Shear kwargs); ret (IsShear s)
         end
     end;
   do J <- lift (shear_matrix sh);
   _applyMatrix self J)%py.

(** The transforms, as calls. *)
Inductive transform : Type :=
| Dilate (scale : R)
| ShearBy (s : Shear)
| Rotate (rad : R).

Definition apply_transform (t : transform) (self : nat) : M store nat :=
  match t with
  | Dilate scale => dilate self scale
  | ShearBy s => shear self [IsShear s] ∅
  | Rotate rad => rotate self rad
  end.

Definition transform_matrix (t : transform) : matrix :=
  match t with
  | Dilate scale => Matrix scale 0 0 scale
  | ShearBy s => getMatrix s
  | Rotate rad => Matrix (cos rad) (- sin rad) (sin rad) (cos rad)
  end.

(** [SpergelSeries.__init__] and [MoffatSeries.__init__]; [fwhm] is a
    parameter of [MoffatSeries] only.  Without any size, [scale_radius] is
    [None] and [np.identity(2)*self.scale_radius] raises.  The call of
    [Series.__init__] at the end acts on the class-level cache (module
    [SeriesCache]) and is left out here. *)
Definition __init__ (k : cls) (idx : R) (jmx : Z) (dlnr_arg : option R)
    (half_light_radius scale_radius_arg fwhm : option R) (flx : R)
    (gsp : option nat) : M store nat :=
  (match k, fwhm with
   | SpergelSeries, Some _ =>
       raise (TypeError "__init__() got an unexpected keyword argument 'fwhm'")
   | _, _ => ret tt
   end;;
   do self <- new_id;
   let dl := match dlnr_arg with Some x => x | None => ln (13 / 10) end in
   do sr <-
     match half_light_radius with
     | Some h => do s <- lift (getScaleRadius k idx true h); ret (Some s)
     | None =>
         match k, fwhm with
         | MoffatSeries, Some w => do s <- lift (getScaleRadius k idx false w); ret (Some s)
         | _, _ => ret scale_radius_arg
         end
     end;
   match sr with
   | None => raise (TypeError "unsupported operand type(s) for *: 'float' and 'NoneType'")
   | Some s =>
       do a <- new_id;
       set_mat a (Matrix (1 * s) (0 * s) (0 * s) (1 * s));;
       set_obj self (Obj k idx jmx dl flx gsp a None None s None);;
       ret self
   end)%py.

(** One term of the inner sum of [_getCoeffs], for [m] with [m+q] even. *)
Definition term (k : cls) (e D : R) (j q m : Z) : result R :=
  let n := ((q + m) / 2)%Z in
  let num :=
    match k with
    | SpergelSeries => powerRZ (D - 1) m
    | MoffatSeries => powerRZ (1 - D) (m + 1)
    end in
  let num := if Reqb D 0 && bool_decide (j = m) then num else num * powerRZ D (j - m) in
  let num := if Reqb e 0 && bool_decide (m = 0%Z) then num else num * powerRZ e m in
  let! f1 := math_factorial (j - m) in
  let! f2 := math_factorial (m - n) in
  let! f3 := math_factorial n in
  let den := powerRZ 2 (m - 1) * f1 * f2 * f3 in
  np_div num den.

(** [coeff += num/den] over [m in range(abs(q), j+1)], skipping odd
    [m+q]. *)
Fixpoint sum_terms (k : cls) (e D : R) (j q : Z) (ms : list Z) (coeff : R) : result R :=
  match ms with
  | [] => Ok coeff
  | m :: ms' =>
      if ((m + q) mod 2 =? 1)%Z then sum_terms k e D j q ms' coeff
      else let! t := term k e D j q m in sum_terms k e D j q ms' (coeff + t)
  end.

(** The coefficient appended for one pair [(j, q)]. *)
Definition coeff (k : cls) (flx e p D : R) (jq : Z * Z) : result R :=
  let '(j, q) := jq in
  let! c := sum_terms k e D j q (xrange (Z.abs q) (j + 1)) 0 in
  let! norm :=
    match k with
    | SpergelSeries => Ok flx
    | MoffatSeries => let! s := math_sqrt (1 - e ^ 2) in Ok (flx * s)
    end in
  if (0 <? q)%Z then Ok (c * (norm * cos (2 * IZR q * p)))
  else if (q <? 0)%Z then Ok (c * (norm * sin (2 * IZR q * p)))
  else Ok (c * (norm * (1 / 2))).

Fixpoint collect {A X} (f : A → result X) (xs : list A) : result (list X) :=
  match xs with
  | [] => Ok []
  | x :: xs' =>
      let! y := f x in
      let! ys := collect f xs' in
      Ok (y :: ys)
  end.

(** [_getCoeffs(self)]. *)
Definition _getCoeffs (self : nat) : M store (list R) :=
  (do '(e, p, s, D) <- _decomposeA self;
   do o <- get_obj self;
   lift (collect (coeff (kind o) (flux o) e p D) (jq_indices (jmax o))))%py.

(** [_getBasisFuncs(self)]. *)
Definition _getBasisFuncs (self : nat) : M store (list basislet) :=
  (do '(e, p, s, D) <- _decomposeA self;
   do o <- get_obj self;
   ret (map (λ jq, Basislet (kind o) (index o) s (fst jq) (snd jq) (gsparams o))
            (jq_indices (jmax o))))%py.

(** [_series_idx(self)]. *)
Definition _series_idx (self : nat) : M store (cls * R * Z * R) :=
  (do '(e, p, s, D) <- _decomposeA self;
   do o <- get_obj self;
   ret (kind o, index o, jmax o, s))%py.

(** The transforms that keep the determinant positive. *)
Definition keeps_orientation (t : transform) : Prop :=
  match t with
  | Dilate scale => scale ≠ 0
  | ShearBy s => 0 < det (getMatrix s)
  | Rotate _ => True
  end.

(** The cached decomposition, when present, is the decomposition of the
    current matrix; every object and matrix was allocated. *)
Definition cache_valid (σ : store) (o : series) : Prop :=
  ∃ A, mats σ !! _A o = Some A ∧
    ∀ e, ellip o = Some e →
      ∃ p D, phi0 o = Some p ∧ Delta o = Some D ∧
             decompose (kind o) (dlnr o) A = Ok (e, p, scale_radius o, D).

Record wf (σ : store) : Prop := Wf {
  wf_objs : ∀ a o, objs σ !! a = Some o → (a < next_id σ)%nat ∧ cache_valid σ o;
  wf_mats : ∀ a, is_Some (mats σ !! a) → (a < next_id σ)%nat
}.

(** What [_decomposeA] keeps: everything but the four cached attributes. *)
Definition same_parameters (o o' : series) : Prop :=
  kind o' = kind o ∧ index o' = index o ∧ jmax o' = jmax o ∧ dlnr o' = dlnr o ∧
  flux o' = flux o ∧ gsparams o' = gsparams o ∧ _A o' = _A o.

End Library.

(** A library for examples, right for matrices [diag(s, s)] with [s > 0],
    which have no rotation and no ellipticity. *)
Definition toy_atan2 (y x : R) : R := 0.
Definition toy_acosh (x : R) : R := 0.
Definition toy_e1 (eta : R) : R := 0.
Definition toy_getScaleRadius (k : cls) (idx : R) (hlr : bool) (x : R) : result R := Ok x.
Definition toy_getMatrix (s : unit) : matrix := Matrix 1 0 0 1.
Definition toy_make_Shear (kw : gmap string (pyarg unit)) : result unit := Ok tt.

(** The store after [SpergelSeries(nu=1/2, jmax=2, dlnr=1, scale_radius=1)]:
    the object is 0, its matrix is 1. *)
Definition toy_obj : series :=
  Obj SpergelSeries (1 / 2) 2 1 1 None 1 None None 1 None.
Definition toy_store : store :=
  Store {[ 0%nat := toy_obj ]} {[ 1%nat := Matrix (1 * 1) (0 * 1) (0 * 1) (1 * 1) ]} 2.

End Affine.

(** ** LinearOpticalSeries (series.py) *)

Module Optical.
Import Affine.
#[local] Open Scope R_scope.

(** The dict built by [nollZernikeDict]: Noll index [j] to [(n, m)]. *)
Definition dict : Type := gmap Z (Z * Z).

(** How the inner loop is left: at its end, with the next index [j], or by
    [return ret]. *)
Inductive flow : Type :=
| Continue (j : Z) (ret : dict)
| Return (ret : dict).

(** [for m in xrange(n+1)] of [nollZernikeDict]. *)
Fixpoint noll_inner (ms : list Z) (n jmax j : Z) (ret : dict) : flow :=
  match ms with
  | [] => Continue j ret
  | m :: ms' =>
      if ((m + n) mod 2 =? 1)%Z then noll_inner ms' n jmax j ret
      else
        let '(j', ret') :=
          if (m =? 0)%Z then ((j + 1)%Z, <[j := (n, m)]> ret)
          else if (j mod 2 =? 0)%Z then
            ((j + 2)%Z, <[(j + 1)%Z := (n, (- m)%Z)]> (<[j := (n, m)]> ret))
          else
            ((j + 2)%Z, <[(j + 1)%Z := (n, m)]> (<[j := (n, (- m)%Z)]> ret)) in
        if (jmax <? j')%Z then Return ret' else noll_inner ms' n jmax j' ret'
  end.

(** [for n in count()]: the loop has no end of its own; [fuel] bounds the
    number of rows the model runs, and [None] means the bound was hit. *)
Fixpoint noll_outer (fuel : nat) (n jmax j : Z) (ret : dict) : option dict :=
  match fuel with
  | O => None
  | S fuel' =>
      match noll_inner (xrange 0 (n + 1)) n jmax j ret with
      | Return r => Some r
      | Continue j' r => noll_outer fuel' (n + 1) jmax j' r
      end
  end.

(** [nollZernikeDict(jmax)]. *)
Definition nollZernikeDict (fuel : nat) (jmax : Z) : option dict :=
  noll_outer fuel 0 jmax 1 ∅.

(** The module-level [nollZernike = nollZernikeDict(100)]. *)
Definition nollZernike : dict :=
  match nollZernikeDict 101 100 with
  | Some d => d
  | None => ∅
  end.

(** [itertools.combinations(l, 2)]. *)
Fixpoint combinations2 {X} (l : list X) : list (X * X) :=
  match l with
  | [] => []
  | x :: l' => map (pair x) l' ++ combinations2 l'
  end.

(** The ten aberration keywords of the constructor. *)
Record singles : Type := Singles {
  tip : R;
  tilt : R;
  defocus : R;
  astig1 : R;
  astig2 : R;
  coma1 : R;
  coma2 : R;
  trefoil1 : R;
  trefoil2 : R;
  spher : R
}.

Definition singles_list (s : singles) : list R :=
  [tip s; tilt s; defocus s; astig1 s; astig2 s; coma1 s; coma2 s;
   trefoil1 s; trefoil2 s; spher s].

(** [a.nonzero()[0]] for the part of [a] that starts at index [i]. *)
Fixpoint nonzero_from (i : nat) (a : list R) : list nat :=
  match a with
  | [] => []
  | x :: a' => if Reqb x 0 then nonzero_from (S i) a' else i :: nonzero_from (S i) a'
  end.

(** The attributes of an instance. *)
Record LinearOpticalSeries : Type := MkLOS {
  lam_over_diam : option R;
  flux : R;
  aberrations : list R;
  realcoeffs : list R;
  imagcoeffs : list R;
  realindices : list (Z * Z);
  imagindices : list (Z * Z);
  coeffs : list R;
  indices : list ((Z * Z) * (Z * Z))
}.

(** The lists built by the loop over the aberrations. *)
Record terms : Type := Terms {
  t_realcoeffs : list R;
  t_imagcoeffs : list R;
  t_realindices : list (Z * Z);
  t_imagindices : list (Z * Z)
}.

(** The local function [norm(n, m)]. *)
Definition norm (n m : Z) : result R :=
  if (m =? 0)%Z then np_sqrt (IZR (n + 1)) else np_sqrt (IZR (2 * n + 2)).

(** The body of the loop over the aberrations for one entry [ab] with
    Noll indices [(n, m)]: the term is real or imaginary. *)
Definition classify (n m : Z) (ab : R) (acc : terms) : result terms :=
  let ipower := ((m + 1) mod 4)%Z in
  if (ipower =? 0)%Z then
    let! nm := norm n m in
    Ok (Terms (t_realcoeffs acc ++ [nm * ab]) (t_imagcoeffs acc)
              (t_realindices acc ++ [(n, m)]) (t_imagindices acc))
  else if (ipower =? 1)%Z then
    let! nm := norm n m in
    Ok (Terms (t_realcoeffs acc) (t_imagcoeffs acc ++ [nm * ab])
              (t_realindices acc) (t_imagindices acc ++ [(n, m)]))
  else if (ipower =? 2)%Z then
    let! nm := norm n m in
    Ok (Terms (t_realcoeffs acc ++ [- nm * ab]) (t_imagcoeffs acc)
              (t_realindices acc ++ [(n, m)]) (t_imagindices acc))
  else if (ipower =? 3)%Z then
    let! nm := norm n m in
    Ok (Terms (t_realcoeffs acc) (t_imagcoeffs acc ++ [- nm * ab])
              (t_realindices acc) (t_imagindices acc ++ [(n, m)]))
  else Raise (RuntimeError "What!?  How'd that happen?").

(** [for j, ab in enumerate(self.aberrations)], from index [j] on. *)
Fixpoint separate (j : Z) (abs : list R) (acc : terms) : result terms :=
  match abs with
  | [] => Ok acc
  | ab :: rest =>
      if (j <? 2)%Z then separate (j + 1) rest acc
      else
        match nollZernike !! j with
        | None => Raise KeyError
        | Some (n, m) =>
            let! acc' := classify n m ab acc in
            separate (j + 1) rest acc'
        end
  end.

(** [LinearOpticalSeries.__init__].  The statements that would compute
    [lam_over_diam] from [lam] and [diam] stand after the [raise] in its
    branch and never run, so [lam_over_diam] stays [None] in that case.
    The call of [Series.__init__] at the end acts on the class-level cache
    (module [SeriesCache]) and is left out here. *)
Definition __init__ (lod lam diam : option R) (flx : R) (s : singles)
    (aberrations_arg : option (list R)) : result LinearOpticalSeries :=
  let! _ :=
    match lod with
    | Some _ =>
        match lam, diam with
        | None, None => Ok tt
        | _, _ => Raise (TypeError "If specifying lam_over_diam, then do not specify lam or diam")
        end
    | None =>
        match lam, diam with
        | Some _, Some _ => Ok tt
        | _, _ => Raise (TypeError "If not specifying lam_over_diam, then specify lam AND diam")
        end
    end in
  let! ab :=
    match aberrations_arg with
    | None =>
        let a := [0; 0] ++ singles_list s in
        let nz := nonzero_from 0 a in
        let i := match last nz with
                 | None => 2%nat
                 | Some k => Nat.max (k + 1) 2
                 end in
        Ok (take i a)
    | Some a =>
        if (length a <=? 2)%nat then
          Raise (ValueError "Aberrations keyword must have length > 2")
        else if existsb (λ x, negb (Reqb x 0)) (singles_list s) then
          Raise (TypeError "Cannot pass in individual aberrations and array!")
        else Ok a
    end in
  let ab := map (λ x, x * 2 * PI) ab in
  let! t := separate 0 ab (Terms [1] [] [(0, 0)%Z] []) in
  let cs := map (λ c, c ^ 2) (t_realcoeffs t)
            ++ map (λ c, c ^ 2) (t_imagcoeffs t)
            ++ map (λ c, 2 * (fst c * snd c)) (combinations2 (t_realcoeffs t))
            ++ map (λ c, 2 * (fst c * snd c)) (combinations2 (t_imagcoeffs t)) in
  let ix := map (λ i, (i, i)) (t_realindices t)
            ++ map (λ i, (i, i)) (t_imagindices t)
            ++ combinations2 (t_realindices t)
            ++ combinations2 (t_imagindices t) in
  Ok (MkLOS lod flx ab (t_realcoeffs t) (t_imagcoeffs t) (t_realindices t)
            (t_imagindices t) cs ix).

(** [LinearOpticalet(scale_radius, n1, m1, n2, m2)]. *)
Record LinearOpticalet : Type := Opticalet {
  let_scale_radius : option R;
  n1 : Z;
  m1 : Z;
  n2 : Z;
  m2 : Z
}.

Definition _getCoeffs (self : LinearOpticalSeries) : list R := coeffs self.

Definition _getBasisFuncs (self : LinearOpticalSeries) : list LinearOpticalet :=
  map (λ o, Opticalet (lam_over_diam self) (fst (fst o)) (snd (fst o))
                      (fst (snd o)) (snd (snd o)))
      (indices self).

Definition _series_idx (self : LinearOpticalSeries) : option R * nat :=
  (lam_over_diam self, length (aberrations self)).

Definition no_singles : singles := Singles 0 0 0 0 0 0 0 0 0 0.

(** [LinearOpticalSeries(lam_over_diam=1)]: no aberration, one term. *)
Definition plain_pupil : LinearOpticalSeries :=
  MkLOS (Some 1) 1 [0 * 2 * PI; 0 * 2 * PI] [1] [] [(0, 0)%Z] [] [1 ^ 2]
        [((0, 0)%Z, (0, 0)%Z)].


(** [LinearOpticalSeries(lam=500, diam=2)]: the wavelength and the diameter
    are accepted and then left unused. *)
Definition lam_diam_pupil : LinearOpticalSeries :=
  MkLOS None 1 [0 * 2 * PI; 0 * 2 * PI] [1] [] [(0, 0)%Z] [] [1 ^ 2]
        [((0, 0)%Z, (0, 0)%Z)].

End Optical.

(** * Theorems *)

(** ** The error monad *)

Lemma bind_ok {S A B} (m : M S A) (k : A → M S B) σ a σ' :
  m σ = (Ok a, σ') → bind m k σ = k a σ'.
Proof. intros E. unfold bind. by rewrite E. Qed.

Lemma bind_raise {S A B} (m : M S A) (k : A → M S B) σ e σ' :
  m σ = (Raise e, σ') → bind m k σ = (Raise e, σ').
Proof. intros E. unfold bind. by rewrite E. Qed.

(** ** Least-recently-used order *)

Module LRUFacts.
Import LRU.
Section Facts.
Context {X : Type} `{EqDecision X}.
Implicit Types (c t : list X) (k : X).

Lemma filter_ne_notin c k : k ∉ c → filter (λ x, x ≠ k) c = c.
Proof.
  induction c as [|x c IH]; [done|]. intros Hk.
  rewrite filter_cons_True by set_solver. rewrite IH; [done|set_solver].
Qed.

Lemma filter_ne_split c1 c2 k :
  k ∉ c1 → k ∉ c2 → filter (λ x, x ≠ k) (c1 ++ k :: c2) = c1 ++ c2.
Proof.
  intros H1 H2. rewrite filter_app, filter_cons_False by naive_solver.
  by rewrite !filter_ne_notin.
Qed.

Lemma length_filter_ne c k :
  NoDup c → k ∈ c → S (length (filter (λ x, x ≠ k) c)) = length c.
Proof.
  intros Hnd (c1 & c2 & ->)%list_elem_of_split.
  apply NoDup_app in Hnd as (_ & Hd & Hnd2). apply NoDup_cons in Hnd2 as [Hk2 _].
  rewrite filter_ne_split; [|intros ?; apply (Hd k); set_solver|done].
  rewrite !length_app. simpl. lia.
Qed.

Lemma elem_of_touch c k x : x ∈ touch c k ↔ x ∈ c ∨ x = k.
Proof.
  unfold touch. rewrite elem_of_app, list_elem_of_filter, list_elem_of_singleton.
  destruct (decide (x = k)); naive_solver.
Qed.

Lemma NoDup_touch c k : NoDup c → NoDup (touch c k).
Proof.
  intros Hnd. unfold touch. apply NoDup_app. split_and!.
  - by apply NoDup_filter.
  - intros x [Hx _]%list_elem_of_filter ->%list_elem_of_singleton. done.
  - apply NoDup_singleton.
Qed.

Lemma recency_snoc t k : recency (t ++ [k]) = touch (recency t) k.
Proof. unfold recency. by rewrite foldl_snoc. Qed.

Lemma NoDup_recency t : NoDup (recency t).
Proof.
  induction t as [|k t IH] using rev_ind; [constructor|].
  rewrite recency_snoc. by apply NoDup_touch.
Qed.

Lemma elem_of_recency t x : x ∈ recency t ↔ x ∈ t.
Proof.
  induction t as [|k t IH] using rev_ind; [done|].
  rewrite recency_snoc, elem_of_touch, IH. set_solver.
Qed.

Lemma lastn_app_ge n (l1 l2 : list X) :
  n ≤ length l2 → lastn n (l1 ++ l2) = lastn n l2.
Proof.
  intros Hn. unfold lastn. rewrite length_app.
  replace (length l1 + length l2 - n) with (length l1 + (length l2 - n)) by lia.
  apply drop_app_add.
Qed.

Lemma lastn_all n (l : list X) : length l = n → lastn n l = l.
Proof. intros <-. unfold lastn. by rewrite Nat.sub_diag. Qed.

Lemma lastn_split n (l : list X) :
  n ≤ length l → ∃ pre, l = pre ++ lastn n l ∧ length (lastn n l) = n.
Proof.
  intros Hn. exists (take (length l - n) l). unfold lastn.
  rewrite take_drop, length_drop. split; [done|lia].
Qed.

(** The list kept by [lru_access] is the window of the [n] most recently
    accessed keys, preceded by what is left of the initial content [c0]. *)
Lemma lru_access_window n c0 t :
  1 ≤ n → length c0 = n → NoDup c0 → (∀ k, k ∈ t → k ∉ c0) →
  foldl lru_access c0 t = lastn n (c0 ++ recency t).
Proof.
  intros Hn Hlen Hnd0 Hdisj.
  induction t as [|k t IH] using rev_ind.
  - unfold recency. simpl. rewrite app_nil_r. by rewrite lastn_all.
  - rewrite foldl_snoc, IH by set_solver. clear IH.
    rewrite recency_snoc.
    assert (k ∉ c0) as Hk0 by set_solver.
    assert (NoDup (c0 ++ recency t)) as Hnd.
    { apply NoDup_app. split_and!; [done| |apply NoDup_recency].
      intros x Hx0 Hx. apply (proj1 (elem_of_recency t x)) in Hx.
      apply (Hdisj x); [apply elem_of_app; by left|done]. }
    destruct (lastn_split n (c0 ++ recency t)) as (pre & Hsplit & Hlenw).
    { rewrite length_app. lia. }
    set (w := lastn n (c0 ++ recency t)) in *.
    assert (c0 ++ touch (recency t) k = filter (λ x, x ≠ k) (pre ++ w) ++ [k]) as ->.
    { rewrite <- Hsplit. unfold touch. rewrite app_assoc. f_equal.
      by rewrite filter_app, (filter_ne_notin c0). }
    rewrite Hsplit in Hnd. apply NoDup_app in Hnd as (Hndp & Hpw & Hndw).
    rewrite filter_app, <- app_assoc. unfold lru_access. case_decide as Hkw.
    + rewrite (filter_ne_notin pre) by (intros ?; by apply (Hpw k)).
      rewrite lastn_app_ge.
      * rewrite lastn_all; [done|]. rewrite length_app. simpl.
        pose proof (length_filter_ne w k Hndw Hkw). lia.
      * rewrite length_app. simpl. pose proof (length_filter_ne w k Hndw Hkw). lia.
    + rewrite (filter_ne_notin w) by done.
      rewrite lastn_app_ge by (rewrite length_app; simpl; lia).
      unfold lastn. rewrite length_app. simpl.
      replace (length w + 1 - n) with 1 by lia.
      destruct w; [simpl in Hlenw; lia|done].
Qed.

(** An accessed key stays behind any other key that is not accessed again:
    it is never first in the recency order. *)
Lemma recency_not_head t1 k t2 k' :
  k' ∈ t1 → k' ≠ k → k' ∉ t2 →
  head (recency (t1 ++ k :: t2)) ≠ Some k.
Proof.
  intros Hk1 Hne Hk2.
  assert (∃ pre post, recency (t1 ++ k :: t2) = pre ++ k' :: post ∧ k ∈ post)
    as (pre & post & Heq & Hin).
  { induction t2 as [|x t2 IH] using rev_ind.
    - rewrite recency_snoc. unfold touch.
      assert (k' ∈ filter (λ x, x ≠ k) (recency t1)) as Hf.
      { apply list_elem_of_filter. split; [done|]. by apply elem_of_recency. }
      apply list_elem_of_split in Hf as (pre & post & ->).
      exists pre, (post ++ [k]). rewrite <- app_assoc. split; [done|set_solver].
    - destruct IH as (pre & post & Heq & Hin); [set_solver|].
      rewrite app_comm_cons, app_assoc, recency_snoc, Heq. unfold touch.
      assert (k' ≠ x) by set_solver.
      rewrite filter_app, filter_cons_True by done.
      eexists _, _. rewrite <- app_assoc. split; [reflexivity|].
      destruct (decide (k = x)) as [->|]; [set_solver|].
      apply elem_of_app. left. apply list_elem_of_filter. done. }
  pose proof (NoDup_recency (t1 ++ k :: t2)) as Hnd. rewrite Heq in *.
  destruct pre as [|y pre]; simpl; [congruence|].
  intros [= ->]. apply NoDup_cons in Hnd as [Hnd _]. set_solver.
Qed.

End Facts.
End LRUFacts.

(** ** The Series cache *)

Module SeriesCacheFacts.
Import SeriesCache.

Section Facts.
Context {Idx Arg Val : Type}.
Context `{Countable Idx, Countable Arg, Countable Val}.
Context {B : Type}.
Variable drawImage_basis : B → Arg → gmap string Val → result ndarray.

Abbreviation state := (@state Idx Arg Val _ _ _ _ _ _ B).
Abbreviation Series := (@Series Idx B).
Abbreviation ckey := (@ckey Idx Arg Val).
Abbreviation key := (@key Idx Arg Val).

Implicit Types (σ : state) (a b r p q : nat) (l ns : list nat).

(** *** Field reads after a store *)

Lemma getitem_ok σ a lk :
  heap σ !! a = Some lk → getitem (Some a) σ = (Ok lk, σ).
Proof. intros E. unfold getitem. by rewrite E. Qed.

Lemma setitem_ok σ a f :
  is_Some (heap σ !! a) → setitem f (Some a) σ = (Ok tt, upd a f σ).
Proof. intros [lk E]. unfold setitem. by rewrite E. Qed.

Lemma heap_upd σ a f b :
  heap (upd a f σ) !! b = if decide (a = b) then f <$> heap σ !! a else heap σ !! b.
Proof. unfold upd; simpl. apply lookup_alter. Qed.

Lemma in_heap_upd σ a f b :
  is_Some (heap (upd a f σ) !! b) ↔ is_Some (heap σ !! b).
Proof.
  rewrite heap_upd. case_decide; [subst|done].
  by rewrite fmap_is_Some.
Qed.

Lemma nextof_in_heap σ a b : nextof σ a = Some b → is_Some (heap σ !! a).
Proof. unfold nextof. destruct (heap σ !! a); naive_solver. Qed.

Lemma prevof_in_heap σ a b : prevof σ a = Some b → is_Some (heap σ !! a).
Proof. unfold prevof. destruct (heap σ !! a); naive_solver. Qed.

Lemma nextof_upd_NEXT σ a v b :
  is_Some (heap σ !! a) →
  nextof (upd a (set_NEXT v) σ) b = if decide (a = b) then v else nextof σ b.
Proof.
  intros [lk E]. unfold nextof. rewrite heap_upd.
  case_decide; [subst; by rewrite E|done].
Qed.

Lemma prevof_upd_PREV σ a v b :
  is_Some (heap σ !! a) →
  prevof (upd a (set_PREV v) σ) b = if decide (a = b) then v else prevof σ b.
Proof.
  intros [lk E]. unfold prevof. rewrite heap_upd.
  case_decide; [subst; by rewrite E|done].
Qed.

Lemma keyof_upd_KEY σ a v b :
  is_Some (heap σ !! a) →
  keyof (upd a (set_KEY v) σ) b = if decide (a = b) then v else keyof σ b.
Proof.
  intros [lk E]. unfold keyof. rewrite heap_upd.
  case_decide; [subst; by rewrite E|done].
Qed.

Lemma resultof_upd_RESULT σ a v b :
  is_Some (heap σ !! a) →
  resultof (upd a (set_RESULT v) σ) b = if decide (a = b) then v else resultof σ b.
Proof.
  intros [lk E]. unfold resultof. rewrite heap_upd.
  case_decide; [subst; by rewrite E|done].
Qed.

(** A store into one slot leaves the other three slots alone. *)
Lemma field_upd_other {X} (g : link → option X) (f : link → link) σ a b :
  (∀ lk, g (f lk) = g lk) →
  heap (upd a f σ) !! b ≫= g = heap σ !! b ≫= g.
Proof.
  intros Hg. rewrite heap_upd. case_decide; [subst|done].
  destruct (heap σ !! b); simpl; [apply Hg|done].
Qed.

(** *** Paths of links *)

Lemma elem_of_tail {X} (x : X) (xs : list X) : x ∈ tail xs → x ∈ xs.
Proof. destruct xs; set_solver. Qed.

Lemma path_cons2 σ a b l :
  path σ (a :: b :: l) ↔ linked σ a b ∧ path σ (b :: l).
Proof. done. Qed.

Lemma path_app σ l1 a l2 :
  path σ (l1 ++ a :: l2) ↔ path σ (l1 ++ [a]) ∧ path σ (a :: l2).
Proof.
  induction l1 as [|x l1 IH]; simpl.
  - tauto.
  - destruct l1 as [|y l1]; simpl in *; tauto.
Qed.

Lemma path_snoc2 σ l a b :
  path σ (l ++ [a; b]) ↔ path σ (l ++ [a]) ∧ linked σ a b.
Proof. rewrite path_app. simpl. tauto. Qed.

(** A path only reads [NEXT] of its nodes but the last and [PREV] of its
    nodes but the first. *)
Lemma path_frame σ σ' ns :
  (∀ a, a ∈ removelast ns → nextof σ' a = nextof σ a) →
  (∀ b, b ∈ tail ns → prevof σ' b = prevof σ b) →
  path σ ns → path σ' ns.
Proof.
  induction ns as [|x ns IH]; [done|].
  destruct ns as [|y ns]; [done|].
  intros Hn Hp [[Hl1 Hl2] Hpath]. split.
  - split.
    + rewrite Hn; [done|]. simpl. destruct ns; set_solver.
    + rewrite Hp; [done|]. set_solver.
  - apply IH; [| |done].
    + intros a Ha. apply Hn. simpl. simpl in Ha. destruct ns; set_solver.
    + intros b Hb. apply Hp. simpl in *. set_solver.
Qed.

Lemma path_in_heap σ ns a :
  path σ ns → 2 ≤ length ns → a ∈ ns → is_Some (heap σ !! a).
Proof.
  induction ns as [|x ns IH]; [simpl; lia|].
  destruct ns as [|y ns]; [simpl; lia|].
  intros [[Hl1 Hl2] Hp] _ Ha.
  apply elem_of_cons in Ha as [->|Ha]; [by eapply nextof_in_heap|].
  destruct ns as [|z ns].
  - apply list_elem_of_singleton in Ha as ->. by eapply prevof_in_heap.
  - apply IH; [done|simpl; lia|done].
Qed.

Lemma path_last_prev σ l a r :
  path σ (l ++ [a; r]) → prevof σ r = Some a ∧ nextof σ a = Some r.
Proof. rewrite path_snoc2. intros [_ [? ?]]. done. Qed.

Lemma nextof_upd_PREV σ a v b : nextof (upd a (set_PREV v) σ) b = nextof σ b.
Proof. by apply field_upd_other. Qed.
Lemma nextof_upd_KEY σ a v b : nextof (upd a (set_KEY v) σ) b = nextof σ b.
Proof. by apply field_upd_other. Qed.
Lemma nextof_upd_RESULT σ a v b : nextof (upd a (set_RESULT v) σ) b = nextof σ b.
Proof. by apply field_upd_other. Qed.
Lemma prevof_upd_NEXT σ a v b : prevof (upd a (set_NEXT v) σ) b = prevof σ b.
Proof. by apply field_upd_other. Qed.
Lemma prevof_upd_KEY σ a v b : prevof (upd a (set_KEY v) σ) b = prevof σ b.
Proof. by apply field_upd_other. Qed.
Lemma prevof_upd_RESULT σ a v b : prevof (upd a (set_RESULT v) σ) b = prevof σ b.
Proof. by apply field_upd_other. Qed.
Lemma keyof_upd_NEXT σ a v b : keyof (upd a (set_NEXT v) σ) b = keyof σ b.
Proof. by apply field_upd_other. Qed.
Lemma keyof_upd_PREV σ a v b : keyof (upd a (set_PREV v) σ) b = keyof σ b.
Proof. by apply field_upd_other. Qed.
Lemma keyof_upd_RESULT σ a v b : keyof (upd a (set_RESULT v) σ) b = keyof σ b.
Proof. by apply field_upd_other. Qed.
Lemma resultof_upd_NEXT σ a v b : resultof (upd a (set_NEXT v) σ) b = resultof σ b.
Proof. by apply field_upd_other. Qed.
Lemma resultof_upd_PREV σ a v b : resultof (upd a (set_PREV v) σ) b = resultof σ b.
Proof. by apply field_upd_other. Qed.
Lemma resultof_upd_KEY σ a v b : resultof (upd a (set_KEY v) σ) b = resultof σ b.
Proof. by apply field_upd_other. Qed.

(** Rewriting a read through a stack of stores. *)
Ltac heap_simpl :=
  repeat first
    [ rewrite nextof_upd_PREV | rewrite nextof_upd_KEY | rewrite nextof_upd_RESULT
    | rewrite prevof_upd_NEXT | rewrite prevof_upd_KEY | rewrite prevof_upd_RESULT
    | rewrite keyof_upd_NEXT | rewrite keyof_upd_PREV | rewrite keyof_upd_RESULT
    | rewrite resultof_upd_NEXT | rewrite resultof_upd_PREV | rewrite resultof_upd_KEY
    | rewrite nextof_upd_NEXT by (rewrite ?in_heap_upd; done)
    | rewrite prevof_upd_PREV by (rewrite ?in_heap_upd; done)
    | rewrite keyof_upd_KEY by (rewrite ?in_heap_upd; done)
    | rewrite resultof_upd_RESULT by (rewrite ?in_heap_upd; done) ].

(** Taking the link [a] out of the ring:
    [link_prev[NEXT] = link_next; link_next[PREV] = link_prev]. *)
Lemma unlink_path σ pre p a nx post :
  path σ (pre ++ [p] ++ [a] ++ nx :: post) →
  p ∉ pre → nx ∉ post → nx ∉ tail (pre ++ [p]) → p ∉ removelast (nx :: post) →
  path (upd nx (set_PREV (Some p)) (upd p (set_NEXT (Some nx)) σ))
       (pre ++ [p] ++ nx :: post).
Proof.
  intros Hpath HpA HnB Hnt Hpr.
  rewrite app_assoc in Hpath. apply path_app in Hpath as [Hp1 Hp2].
  rewrite <- app_assoc in Hp1. simpl in Hp1.
  apply path_snoc2 in Hp1 as [HA [Hpa1 Hpa2]].
  change ([a] ++ nx :: post) with (a :: nx :: post) in Hp2.
  apply path_cons2 in Hp2 as [[Han1 Han2] HB].
  assert (is_Some (heap σ !! p)) as Hinp by by eapply nextof_in_heap.
  assert (is_Some (heap σ !! nx)) as Hinn by by eapply prevof_in_heap.
  change ([p] ++ nx :: post) with (p :: nx :: post).
  apply path_app. split.
  - eapply path_frame; [| |exact HA].
    + intros x Hx. rewrite removelast_last in Hx. heap_simpl.
      case_decide; [subst; done|done].
    + intros x Hx. heap_simpl. case_decide; [subst; done|done].
  - apply path_cons2. split.
    + split; heap_simpl; by rewrite decide_True.
    + eapply path_frame; [| |exact HB].
      * intros x Hx. heap_simpl. case_decide; [subst; done|done].
      * intros x Hx. heap_simpl. simpl in Hx. case_decide; [subst; done|done].
Qed.

(** Putting the link [a] back in front of the root:
    [last[NEXT] = root[PREV] = link; link[PREV] = last; link[NEXT] = root]. *)
Lemma insert_last_path σ pre lst a r :
  path σ (pre ++ [lst; r]) →
  lst ∉ pre → a ∉ pre ++ [lst] → r ∉ tail (pre ++ [lst]) → a ≠ r →
  is_Some (heap σ !! a) →
  path (upd a (set_NEXT (Some r)) (upd a (set_PREV (Some lst))
         (upd r (set_PREV (Some a)) (upd lst (set_NEXT (Some a)) σ))))
       (pre ++ [lst; a; r]).
Proof.
  intros Hpath Hlst Ha Hr Har Hina.
  apply path_snoc2 in Hpath as [Hpre [Hl1 Hl2]].
  assert (is_Some (heap σ !! lst)) as Hinl by by eapply nextof_in_heap.
  assert (is_Some (heap σ !! r)) as Hinr by by eapply prevof_in_heap.
  assert (a ≠ lst) as Hal by set_solver.
  change [lst; a; r] with ([lst] ++ [a; r]). rewrite app_assoc.
  apply path_snoc2. split.
  - rewrite <- app_assoc. apply path_snoc2. split.
    + eapply path_frame; [| |exact Hpre].
      * intros x Hx. rewrite removelast_last in Hx. heap_simpl.
        rewrite decide_False by set_solver.
        rewrite decide_False; [done|]. intros ->. done.
      * intros x Hx. heap_simpl.
        rewrite decide_False by (intros ->; by apply Ha, elem_of_tail).
        rewrite decide_False; [done|]. intros ->. done.
    + split; heap_simpl.
      * rewrite decide_False by done. by rewrite decide_True.
      * by rewrite decide_True.
  - split; heap_simpl.
    + by rewrite decide_True.
    + rewrite decide_False by done. by rewrite decide_True.
Qed.

(** *** A hit *)

Lemma holds_frame σ σ' a e :
  keyof σ' a = keyof σ a → resultof σ' a = resultof σ a → _cache σ' = _cache σ →
  holds σ a e → holds σ' a e.
Proof. unfold holds. intros -> -> ->. done. Qed.

Lemma basisCube_hit (self : Series) (k : ckey) σ r l ents a :
  cache_inv σ r l ents → _cache σ !! Tuple k = Some a →
  ∃ l1 l2 e1 e e2 σ',
    l = l1 ++ a :: l2 ∧ ents = e1 ++ e :: e2 ∧ length l1 = length e1 ∧
    fst e = Tuple k ∧
    _basisCube drawImage_basis self k σ = (Ok (snd e), σ') ∧
    cache_inv σ' r (l1 ++ l2 ++ [a]) (e1 ++ e2 ++ [e]) ∧
    drawn σ' = drawn σ ∧ _cache σ' = _cache σ ∧ next_id σ' = next_id σ ∧
    (∀ b, b ∉ r :: l → heap σ' !! b = heap σ !! b) ∧
    _kcache σ' = _kcache σ ∧ _kroot σ' = _kroot σ ∧
    (∀ b, keyof σ' b = keyof σ b ∧ resultof σ' b = resultof σ b) ∧
    snd e = resultof σ a.
Proof.
  intros [Hroot Hnd Hpath Hrk Hents Hdict] Hc.
  destruct (Hdict _ _ Hc) as [Hal Hka].
  apply list_elem_of_split in Hal as (l1 & l2 & ->).
  apply Forall2_app_inv_l in Hents as (e1 & e' & He1 & He' & ->).
  apply Forall2_cons_inv_l in He' as (e & e2 & He & He2 & ->).
  exists l1, l2, e1, e, e2.
  assert (fst e = Tuple k) as Hek.
  { destruct He as (Hk1 & _ & _). rewrite Hka in Hk1. by injection Hk1. }
  assert (snd e = resultof σ a) as Hres by (by destruct He as (_ & -> & _)).
  destruct (exists_last (l:=r :: l1)) as (pre & p & Hpre); [done|].
  assert (∃ nx post, l2 ++ [r] = nx :: post) as (nx & post & Hpost).
  { destruct l2; simpl; eauto. }
  assert (path σ (pre ++ [p] ++ [a] ++ nx :: post)) as Hpath1.
  { replace (pre ++ [p] ++ [a] ++ nx :: post) with (r :: (l1 ++ a :: l2) ++ [r]); [done|].
    rewrite (app_assoc pre), <- Hpre. simpl. rewrite <- Hpost, <- app_assoc. done. }
  assert (NoDup ((pre ++ [p]) ++ a :: l2)) as Hnd1 by (by rewrite <- Hpre).
  apply NoDup_app in Hnd1 as (Hnd1 & Hdisj & Hnd2).
  assert (NoDup (l2 ++ [r])) as Hnd3.
  { apply NoDup_app. split_and!; [by apply NoDup_cons in Hnd2 as [_ ?]| |apply NoDup_singleton].
    intros x Hx ->%list_elem_of_singleton. apply NoDup_cons in Hnd as [Hr _]. set_solver. }
  assert (p ∉ pre) as HpA.
  { apply NoDup_app in Hnd1 as (_ & Hd & _). intros Hp. apply (Hd _ Hp). set_solver. }
  assert (nx ∉ post) as HnB by (rewrite Hpost in Hnd3; by apply NoDup_cons in Hnd3 as [? _]).
  assert (nx ∈ l2 ++ [r]) as Hnx by (rewrite Hpost; set_solver).
  assert (p ∈ r :: l1) as Hp by (rewrite Hpre; set_solver).
  assert (nx ∉ tail (pre ++ [p])) as Hnt.
  { rewrite <- Hpre. simpl. intros Hn. apply elem_of_app in Hnx as [Hnx| ->%list_elem_of_singleton].
    - apply (Hdisj nx); [rewrite <- Hpre|]; set_solver.
    - apply NoDup_cons in Hnd as [Hr _]. set_solver. }
  assert (p ∉ removelast (nx :: post)) as Hpr.
  { rewrite <- Hpost, removelast_last. intros Hp2. apply (Hdisj p); [by rewrite <- Hpre|set_solver]. }
  pose proof (unlink_path _ _ _ _ _ _ Hpath1 HpA HnB Hnt Hpr) as Hpath2.
  set (σ2 := upd nx (set_PREV (Some p)) (upd p (set_NEXT (Some nx)) σ)) in *.
  assert (NoDup (r :: l1 ++ l2) ∧ (a ∉ r :: l1 ++ l2) ∧ a ≠ r) as (HndC & HaC & Har).
  { change (r :: l1 ++ a :: l2) with ((r :: l1) ++ a :: l2) in Hnd.
    apply NoDup_app in Hnd as (Hn1 & Hn2 & Hn3).
    apply NoDup_cons in Hn3 as [Ha2 Hn3]. split_and!.
    - change (NoDup ((r :: l1) ++ l2)). apply NoDup_app. split_and!; [done| |done].
      intros x Hx1 Hx2. apply (Hn2 _ Hx1). set_solver.
    - change (a ∉ (r :: l1) ++ l2). intros [Ha1|Ha1]%elem_of_app; [|done].
      apply (Hn2 _ Ha1). set_solver.
    - intros ->. apply (Hn2 r); set_solver. }
  destruct (exists_last (l:=r :: l1 ++ l2)) as (pre2 & lst & HC); [done|].
  assert (pre ++ [p] ++ nx :: post = pre2 ++ [lst; r]) as Hlist.
  { rewrite app_assoc, <- Hpre, <- Hpost. simpl.
    change [lst; r] with ([lst] ++ [r]). rewrite (app_assoc pre2), <- HC.
    simpl. by rewrite <- app_assoc. }
  rewrite Hlist in Hpath2.
  assert (is_Some (heap σ2 !! a)) as Hina2.
  { unfold σ2. rewrite !in_heap_upd. eapply (path_in_heap _ _ _ Hpath1); [|set_solver].
    rewrite !length_app. simpl. lia. }
  assert (lst ∉ pre2) as Hlst.
  { rewrite HC in HndC. apply NoDup_app in HndC as (_ & Hd & _).
    intros Hl. apply (Hd _ Hl). set_solver. }
  assert (r ∉ tail (pre2 ++ [lst])) as Hrt.
  { rewrite <- HC. simpl. by apply NoDup_cons in HndC as [? _]. }
  rewrite HC in HaC.
  pose proof (insert_last_path _ _ _ _ _ Hpath2 Hlst HaC Hrt Har Hina2) as Hpath3.
  pose proof (path_in_heap _ _ lst Hpath2) as Hinl.
  pose proof (path_in_heap _ _ r Hpath2) as Hinr.
  apply path_last_prev in Hpath2 as [Hprev_r _].
  assert (lst ∈ r :: l1 ++ l2) as Hlst_in by (rewrite HC; set_solver).
  eexists. split_and!; [done|done|by eapply Forall2_length|done| | | | | | | | | |done].
  - unfold _basisCube. unfold bind at 1. unfold gets at 1. unfold bind at 1. unfold gets at 1.
    rewrite Hc, Hroot.
    assert (prevof σ a = Some p ∧ nextof σ a = Some nx) as [Hpa Hna].
    { pose proof Hpath1 as Hq. rewrite app_assoc in Hq. apply path_app in Hq as [Hq1 Hq2].
      rewrite <- app_assoc in Hq1. apply path_snoc2 in Hq1 as [_ [_ ?]].
      apply path_cons2 in Hq2 as [[? _] _]. done. }
    assert (is_Some (heap σ !! p) ∧ is_Some (heap σ !! nx)) as [Hinp Hinn].
    { split; eapply (path_in_heap _ _ _ Hpath1); rewrite ?length_app; simpl; try lia; set_solver. }
    unfold prevof, nextof in Hpa, Hna. unfold resultof in Hres.
    destruct (heap σ !! a) as [lk|] eqn:Hha; [|done].
    simpl in Hpa, Hna, Hres.
    erewrite bind_ok by (by apply getitem_ok).
    rewrite Hpa, Hna.
    erewrite bind_ok by (by apply setitem_ok).
    erewrite bind_ok by (apply setitem_ok; by rewrite in_heap_upd).
    fold σ2.
    unfold prevof in Hprev_r.
    destruct (heap σ2 !! r) as [lr|] eqn:Hhr; [|done].
    simpl in Hprev_r.
    erewrite bind_ok by (by apply getitem_ok).
    rewrite Hprev_r.
    erewrite bind_ok by (apply setitem_ok, Hinl; [rewrite length_app; simpl; lia|set_solver]).
    erewrite bind_ok by (apply setitem_ok; rewrite in_heap_upd, Hhr; eauto).
    erewrite bind_ok by (apply setitem_ok; by rewrite !in_heap_upd).
    erewrite bind_ok by (apply setitem_ok; by rewrite !in_heap_upd).
    unfold ret. by rewrite Hres.
  - assert (∀ b x, holds σ b x →
      holds (upd a (set_NEXT (Some r)) (upd a (set_PREV (Some lst))
        (upd r (set_PREV (Some a)) (upd lst (set_NEXT (Some a)) σ2)))) b x) as Hholds.
    { intros b x. apply holds_frame; [| |done]; unfold σ2; by heap_simpl. }
    split.
    + done.
    + replace (r :: l1 ++ l2 ++ [a]) with ((r :: l1 ++ l2) ++ [a])
        by (simpl; by rewrite <- app_assoc).
      apply NoDup_app. split_and!; [done| |apply NoDup_singleton].
      intros x Hx ->%list_elem_of_singleton. rewrite HC in Hx. done.
    + replace (r :: (l1 ++ l2 ++ [a]) ++ [r]) with (pre2 ++ [lst; a; r]); [done|].
      change [lst; a; r] with ([lst] ++ [a; r]). rewrite app_assoc, <- HC.
      simpl. by rewrite <- !app_assoc.
    + unfold σ2. by heap_simpl.
    + apply Forall2_app; [|apply Forall2_app].
      * eapply Forall2_impl; [exact He1|]. apply Hholds.
      * eapply Forall2_impl; [exact He2|]. apply Hholds.
      * constructor; [by apply Hholds|constructor].
    + intros k' b Hk'. change (_cache σ !! k' = Some b) in Hk'.
      destruct (Hdict _ _ Hk') as [Hb Hkb]. split.
      * set_solver.
      * unfold σ2. by heap_simpl.
  - done.
  - done.
  - done.
  - intros b Hb. unfold σ2. rewrite !heap_upd.
    rewrite !decide_False; [done|..]; intros <-; apply Hb; set_solver.
  - done.
  - done.
  - intros b. unfold σ2. by heap_simpl.
Qed.

(** *** A miss *)

Lemma Forall2_impl_in {X Y} (P Q : X → Y → Prop) (xs : list X) (ys : list Y) :
  Forall2 P xs ys → (∀ x y, x ∈ xs → P x y → Q x y) → Forall2 Q xs ys.
Proof.
  induction 1 as [|x y xs ys HP HF IH]; intros HPQ; constructor.
  - apply HPQ; [set_solver|done].
  - apply IH. intros ????. apply HPQ; [set_solver|done].
Qed.

Lemma nextof_set_root x σ b : nextof (set_root x σ) b = nextof σ b.
Proof. done. Qed.
Lemma prevof_set_root x σ b : prevof (set_root x σ) b = prevof σ b.
Proof. done. Qed.
Lemma keyof_set_root x σ b : keyof (set_root x σ) b = keyof σ b.
Proof. done. Qed.
Lemma resultof_set_root x σ b : resultof (set_root x σ) b = resultof σ b.
Proof. done. Qed.
Lemma nextof_set_cache f σ b : nextof (set_cache f σ) b = nextof σ b.
Proof. done. Qed.
Lemma prevof_set_cache f σ b : prevof (set_cache f σ) b = prevof σ b.
Proof. done. Qed.
Lemma keyof_set_cache f σ b : keyof (set_cache f σ) b = keyof σ b.
Proof. done. Qed.
Lemma resultof_set_cache f σ b : resultof (set_cache f σ) b = resultof σ b.
Proof. done. Qed.
Lemma nextof_log_draws cs σ b : nextof (log_draws cs σ) b = nextof σ b.
Proof. done. Qed.
Lemma prevof_log_draws cs σ b : prevof (log_draws cs σ) b = prevof σ b.
Proof. done. Qed.
Lemma keyof_log_draws cs σ b : keyof (log_draws cs σ) b = keyof σ b.
Proof. done. Qed.
Lemma resultof_log_draws cs σ b : resultof (log_draws cs σ) b = resultof σ b.
Proof. done. Qed.
Lemma heap_set_root x σ : heap (set_root x σ) = heap σ.
Proof. done. Qed.
Lemma heap_set_cache f σ : heap (set_cache f σ) = heap σ.
Proof. done. Qed.
Lemma heap_log_draws cs σ : heap (log_draws cs σ) = heap σ.
Proof. done. Qed.

Ltac state_simpl :=
  repeat first
    [ rewrite nextof_set_root | rewrite prevof_set_root | rewrite keyof_set_root
    | rewrite resultof_set_root | rewrite nextof_set_cache | rewrite prevof_set_cache
    | rewrite keyof_set_cache | rewrite resultof_set_cache | rewrite nextof_log_draws
    | rewrite prevof_log_draws | rewrite keyof_log_draws | rewrite resultof_log_draws
    | rewrite nextof_upd_PREV | rewrite nextof_upd_KEY | rewrite nextof_upd_RESULT
    | rewrite prevof_upd_NEXT | rewrite prevof_upd_KEY | rewrite prevof_upd_RESULT
    | rewrite keyof_upd_NEXT | rewrite keyof_upd_PREV | rewrite keyof_upd_RESULT
    | rewrite resultof_upd_NEXT | rewrite resultof_upd_PREV | rewrite resultof_upd_KEY
    | rewrite nextof_upd_NEXT
        by (rewrite ?in_heap_upd, ?heap_set_root, ?heap_set_cache, ?heap_log_draws,
              ?in_heap_upd; done)
    | rewrite prevof_upd_PREV
        by (rewrite ?in_heap_upd, ?heap_set_root, ?heap_set_cache, ?heap_log_draws,
              ?in_heap_upd; done)
    | rewrite keyof_upd_KEY
        by (rewrite ?in_heap_upd, ?heap_set_root, ?heap_set_cache, ?heap_log_draws,
              ?in_heap_upd; done)
    | rewrite resultof_upd_RESULT
        by (rewrite ?in_heap_upd, ?heap_set_root, ?heap_set_cache, ?heap_log_draws,
              ?in_heap_upd; done) ].

Lemma log_draws_app cs1 cs2 σ :
  log_draws cs2 (log_draws cs1 σ) = log_draws (cs1 ++ cs2) σ.
Proof. unfold log_draws. simpl. by rewrite app_assoc. Qed.

Lemma draw_eval obj args kwargs σ :
  draw drawImage_basis obj args kwargs σ =
  (drawImage_basis obj args kwargs, log_draws [(obj, args, kwargs)] σ).
Proof. done. Qed.

(** The loop that fills the cube draws every basis profile once. *)
Lemma fill_cube_ok objs args kwargs width rows σ :
  build_rows drawImage_basis objs args kwargs width = Ok rows →
  map_M (λ obj, bind (draw drawImage_basis obj args kwargs)
                  (λ im, lift (assign_row width (ravel im)))) objs σ
  = (Ok rows, log_draws (map (λ o, (o, args, kwargs)) objs) σ).
Proof.
  revert rows σ. induction objs as [|o objs IH]; intros rows σ Hb; simpl in *.
  - injection Hb as <-. unfold ret, log_draws. destruct σ; simpl. by rewrite app_nil_r.
  - destruct (drawImage_basis o args kwargs) as [im|] eqn:Hd; [|done].
    destruct (assign_row width (ravel im)) as [row|] eqn:Ha; [|done].
    destruct (build_rows drawImage_basis objs args kwargs width) as [rows'|] eqn:Hr; [|done].
    injection Hb as <-.
    unfold bind at 1. unfold bind at 1. rewrite draw_eval, Hd.
    unfold lift at 1. rewrite Ha.
    unfold bind at 1. rewrite (IH rows' _ eq_refl).
    unfold ret. by rewrite log_draws_app.
Qed.

Lemma basisCube_miss (self : Series) (k : ckey) σ r a l e ents tbl :
  cache_inv σ r (a :: l) (e :: ents) → _cache σ !! Tuple k = None →
  build_table drawImage_basis self k = Ok tbl →
  ∃ σ',
    _basisCube drawImage_basis self k σ = (Ok (Some tbl), σ') ∧
    cache_inv σ' a (l ++ [r]) (ents ++ [(Tuple k, Some tbl)]) ∧
    drawn σ' = drawn σ ++ miss_draws self k ∧
    _cache σ' = <[Tuple k := r]> (delete (fst e) (_cache σ)) ∧
    next_id σ' = next_id σ.
Proof.
  intros [Hroot Hnd Hpath Hrk Hents Hdict] Hc Hb.
  apply Forall2_cons in Hents as [(Hea1 & Hea2 & Hea3) Hents].
  change (r :: (a :: l) ++ [r]) with (r :: a :: l ++ [r]) in Hpath.
  pose proof Hpath as Hpath'.
  apply path_cons2 in Hpath' as [[Hra Har] Hpath'].
  assert (is_Some (heap σ !! r)) as Hinr by by eapply nextof_in_heap.
  assert (is_Some (heap σ !! a)) as Hina by by eapply prevof_in_heap.
  apply NoDup_cons in Hnd as [Hr Hnd]. pose proof Hnd as Hnd'.
  apply NoDup_cons in Hnd' as [Ha Hnd'].
  assert (r ≠ a) as Hra_ne by set_solver.
  unfold _basisCube, miss_draws. unfold build_table in Hb.
  destruct k as [[idx args] items].
  set (kwargs := list_to_map items) in *.
  destruct (_getBasisFuncs self) as [[|obj0 objs]|] eqn:Hobjs; [done| |done].
  destruct (drawImage_basis obj0 args kwargs) as [im0|] eqn:Hd0; [|done].
  destruct (build_rows drawImage_basis (obj0 :: objs) args kwargs
              ((shape im0).1 * (shape im0).2)) as [cube|] eqn:Hrows; [|done].
  injection Hb as <-.
  unfold bind at 1. unfold gets at 1. unfold bind at 1. unfold gets at 1.
  rewrite Hc, Hroot.
  unfold bind at 1. unfold lift at 1.
  unfold bind at 1. rewrite draw_eval, Hd0.
  unfold bind at 1. rewrite (fill_cube_ok _ _ _ _ _ _ Hrows). rewrite log_draws_app.
  set (σd := log_draws _ σ).
  set (tbl := Table cube (shape im0)).
  assert (nextof σd r = Some a) as Hra_d by done.
  assert (keyof σd a = Some e.1) as Hka_d by done.
  assert (resultof σd a = e.2) as Hres_d by done.
  erewrite bind_ok by (by apply setitem_ok).
  erewrite bind_ok by (apply setitem_ok; by rewrite in_heap_upd).
  set (σ2 := upd r (set_RESULT _) _).
  assert (nextof σ2 r = Some a) as Hn2 by (unfold σ2; by state_simpl).
  unfold nextof in Hn2. destruct (heap σ2 !! r) as [lr|] eqn:Hhr; [|done].
  simpl in Hn2.
  erewrite bind_ok by (by apply getitem_ok). rewrite Hn2.
  unfold bind at 1. unfold modify at 1.
  set (σ3 := set_root (Some a) σ2).
  assert (keyof σ3 a = Some e.1) as Hk3.
  { unfold σ3, σ2. state_simpl. by rewrite decide_False. }
  unfold keyof in Hk3. destruct (heap σ3 !! a) as [la|] eqn:Hha; [|done].
  simpl in Hk3.
  erewrite bind_ok by (by apply getitem_ok). rewrite Hk3.
  erewrite bind_ok by (apply setitem_ok; rewrite Hha; eauto).
  set (σ4 := upd a (set_KEY None) σ3).
  assert (is_Some (heap σ4 !! a)) as [la4 Hha4].
  { unfold σ4. rewrite in_heap_upd, Hha. eauto. }
  erewrite bind_ok by (by apply getitem_ok).
  erewrite bind_ok by (apply setitem_ok; rewrite Hha4; eauto).
  set (σ5 := upd a (set_RESULT None) σ4).
  unfold bind at 1. unfold bind at 1. unfold gets at 1.
  change (_cache σ5) with (_cache σ). rewrite Hea3.
  unfold modify at 1. unfold bind at 1. unfold modify at 1. unfold ret.
  eexists. split; [reflexivity|].
  set (kk := Tuple (idx, args, items)) in *.
  set (σ7 := set_cache _ (set_cache _ σ5)).
  assert (∀ b, nextof σ7 b = nextof σ b) as Hnext.
  { intros b. unfold σ7, σ5, σ4, σ3, σ2, σd. by state_simpl. }
  assert (∀ b, prevof σ7 b = prevof σ b) as Hprev.
  { intros b. unfold σ7, σ5, σ4, σ3, σ2, σd. by state_simpl. }
  assert (∀ b, keyof σ7 b =
            if decide (a = b) then None
            else if decide (r = b) then Some kk else keyof σ b) as Hkey.
  { intros b. unfold σ7, σ5, σ4, σ3, σ2, σd. by state_simpl. }
  assert (∀ b, resultof σ7 b =
            if decide (a = b) then None
            else if decide (r = b) then Some tbl else resultof σ b) as Hresult.
  { intros b. unfold σ7, σ5, σ4, σ3, σ2, σd. by state_simpl. }
  assert (_cache σ7 = <[kk := r]> (delete e.1 (_cache σ))) as Hcache by done.
  split_and!; [|done|done|done].
  split.
  - done.
  - change (NoDup ([a] ++ l ++ [r])). rewrite app_assoc.
    apply NoDup_app. split_and!; [done| |apply NoDup_singleton].
    intros x Hx ->%list_elem_of_singleton. set_solver.
  - rewrite <- app_assoc. change (a :: l ++ [r] ++ [a]) with (a :: l ++ [r; a]).
    rewrite app_comm_cons. apply path_snoc2. split.
    + eapply path_frame; [| |exact Hpath']; eauto.
    + split; [by rewrite Hnext|by rewrite Hprev].
  - rewrite Hkey. by rewrite decide_True.
  - apply Forall2_app.
    + eapply Forall2_impl_in; [exact Hents|].
      intros x y Hx (Hy1 & Hy2 & Hy3). unfold holds.
      assert (a ≠ x) by (intros ->; done).
      assert (r ≠ x) by (intros ->; set_solver).
      rewrite Hkey, Hresult, Hcache, !decide_False by done.
      split_and!; [done|done|].
      rewrite lookup_insert_ne by (intros Heq; rewrite <- Heq in Hy3; congruence).
      rewrite lookup_delete_ne by (intros Heq; rewrite <- Heq in Hy3; congruence). done.
    + constructor; [|constructor]. unfold holds. cbn [fst snd].
      assert (a ≠ r) by done.
      rewrite Hkey, Hresult, Hcache, lookup_insert_eq.
      repeat case_decide; done.
  - intros k' b. rewrite Hcache, Hkey. intros Hk'.
    destruct (decide (kk = k')) as [<-|Hne].
    + rewrite lookup_insert_eq in Hk'. injection Hk' as <-.
      rewrite decide_False, decide_True by done. set_solver.
    + rewrite lookup_insert_ne in Hk' by done.
      destruct (decide (e.1 = k')) as [<-|Hne2].
      * by rewrite lookup_delete_eq in Hk'.
      * rewrite lookup_delete_ne in Hk' by done.
        destruct (Hdict _ _ Hk') as [Hb1 Hb2].
        assert (a ≠ b) by (intros <-; congruence).
        assert (r ≠ b) by (intros <-; congruence).
        rewrite !decide_False by done. set_solver.
Qed.

(** *** [Series.__init__] *)

Lemma last_default_cons {X} (r : X) (ls : list X) :
  List.last ls r = List.last (r :: ls) r.
Proof. by destruct ls. Qed.

Lemma last_decompose {X} (r : X) (ls : list X) :
  ∃ pre, r :: ls = pre ++ [List.last ls r].
Proof.
  destruct (exists_last (l:=r :: ls)) as (pre & x & Hx); [done|].
  exists pre. rewrite last_default_cons, Hx. by rewrite last_last.
Qed.

Lemma last_snoc_default {X} (r x : X) (ls : list X) :
  List.last (ls ++ [x]) r = x.
Proof. apply last_last. Qed.

Lemma init_step σ r ls ents :
  init_inv σ r ls ents →
  init_inv
    (upd (List.last ls r) (set_NEXT (Some (S (next_id σ))))
       (set_cache (insert (Placeholder (next_id σ)) (S (next_id σ)))
          (alloc (Link (Some (List.last ls r)) (Some r)
                    (Some (Placeholder (next_id σ))) None) (bump σ))))
    r (ls ++ [S (next_id σ)]) (ents ++ [(Placeholder (next_id σ), None)]).
Proof.
  intros [Hroot Hnd Hpath Htail Hbound Hin Hrk Hents Hdict Hfresh Hph].
  set (lastv := List.last ls r). set (k := next_id σ). set (lnk := S (next_id σ)).
  set (lk := Link (Some lastv) (Some r) (Some (Placeholder k)) None).
  set (σ' := upd lastv _ _).
  destruct (last_decompose r ls) as [pre Hpre]. fold lastv in Hpre.
  assert (lastv ∈ r :: ls) as Hlast_in by (rewrite Hpre; set_solver).
  assert (∀ x, x ∈ r :: ls → x ≠ lnk) as Hlnk_fresh.
  { intros x Hx ->. apply Hin, Hbound in Hx. unfold lnk in Hx. lia. }
  assert (lastv ≠ lnk) as Hne by by apply Hlnk_fresh.
  destruct (Hin _ Hlast_in) as [llast Hllast].
  assert (∀ b, heap σ' !! b =
            if decide (lastv = b) then Some (set_NEXT (Some lnk) llast)
            else if decide (lnk = b) then Some lk else heap σ !! b) as Hheap.
  { intros b. unfold σ'. rewrite heap_upd. unfold alloc, set_cache, set_heap, bump; simpl.
    fold lnk. rewrite !lookup_insert.
    rewrite (decide_False (P:=lnk = lastv)) by done. rewrite Hllast. done. }
  assert (∀ b, nextof σ' b =
            if decide (lastv = b) then Some lnk
            else if decide (lnk = b) then Some r else nextof σ b) as Hnext.
  { intros b. unfold nextof. rewrite Hheap. repeat case_decide; done. }
  assert (∀ b, prevof σ' b =
            if decide (lnk = b) then Some lastv else prevof σ b) as Hprev.
  { intros b. unfold prevof. rewrite Hheap. repeat case_decide; subst; try done.
    by rewrite Hllast. }
  assert (∀ b, keyof σ' b =
            if decide (lnk = b) then Some (Placeholder k) else keyof σ b) as Hkey.
  { intros b. unfold keyof. rewrite Hheap. repeat case_decide; subst; try done.
    by rewrite Hllast. }
  assert (∀ b, resultof σ' b =
            if decide (lnk = b) then None else resultof σ b) as Hresult.
  { intros b. unfold resultof. rewrite Hheap. repeat case_decide; subst; try done.
    by rewrite Hllast. }
  assert (_cache σ' = <[Placeholder k := lnk]> (_cache σ)) as Hcache by done.
  assert (next_id σ' = S (S (next_id σ))) as Hnid by done.
  split.
  - done.
  - rewrite app_comm_cons. apply NoDup_app. split_and!; [done| |apply NoDup_singleton].
    intros x Hx ->%list_elem_of_singleton. by eapply Hlnk_fresh.
  - rewrite app_comm_cons, Hpre, <- app_assoc. apply path_snoc2. split.
    + rewrite <- Hpre. eapply path_frame; [| |exact Hpath].
      * intros x Hx. rewrite Hpre, removelast_last in Hx. rewrite Hnext.
        assert (lastv ≠ x).
        { intros <-. rewrite Hpre in Hnd. apply NoDup_app in Hnd as (_ & Hd & _).
          apply (Hd _ Hx). set_solver. }
        assert (lnk ≠ x).
        { intros <-. apply (Hlnk_fresh lnk); [|done]. rewrite Hpre. set_solver. }
        by rewrite !decide_False.
      * intros x Hx. simpl in Hx. rewrite Hprev.
        rewrite decide_False; [done|]. intros <-. apply (Hlnk_fresh lnk); set_solver.
    + split; [rewrite Hnext|rewrite Hprev]; by rewrite decide_True.
  - intros _. rewrite last_snoc_default, Hnext.
    rewrite decide_False by done. by rewrite decide_True.
  - intros a. rewrite Hheap, Hnid. repeat case_decide; subst.
    + intros _. apply Hin, Hbound in Hlast_in. lia.
    + intros _. unfold lnk. lia.
    + intros Ha. apply Hbound in Ha. lia.
  - intros a Ha. rewrite Hheap. repeat case_decide; [done|done|].
    apply Hin. rewrite app_comm_cons in Ha. set_solver.
  - rewrite Hkey, decide_False; [done|]. intros Heq. apply (Hlnk_fresh r); set_solver.
  - apply Forall2_app.
    + eapply Forall2_impl_in; [exact Hents|].
      intros x y Hx (Hy1 & Hy2 & Hy3). unfold holds.
      assert (lnk ≠ x) by (intros <-; apply (Hlnk_fresh lnk); set_solver).
      rewrite Hkey, Hresult, Hcache, !decide_False by done.
      split_and!; [done|done|].
      rewrite lookup_insert_ne; [done|]. intros Heq. rewrite <- Heq in Hy3.
      apply Hfresh in Hy3. unfold k in Hy3. lia.
    + constructor; [|constructor]. unfold holds. cbn [fst snd].
      rewrite Hkey, Hresult, Hcache, lookup_insert_eq. repeat case_decide; done.
  - intros k' b. rewrite Hcache, Hkey. intros Hk'.
    destruct (decide (Placeholder k = k')) as [<-|Hne'].
    + rewrite lookup_insert_eq in Hk'. injection Hk' as <-.
      rewrite decide_True by done. set_solver.
    + rewrite lookup_insert_ne in Hk' by done.
      destruct (Hdict _ _ Hk') as [Hb1 Hb2].
      rewrite decide_False; [set_solver|].
      intros <-. apply (Hlnk_fresh lnk); set_solver.
  - intros i b. rewrite Hcache, Hnid. intros Hi.
    destruct (decide (k = i)) as [<-|Hne'].
    + unfold k. lia.
    + rewrite lookup_insert_ne in Hi by congruence. apply Hfresh in Hi. lia.
  - apply Forall_app. split; [done|]. constructor; [|constructor]. simpl. eauto.
Qed.

Lemma init_links_real n : ∀ σ r ls ents,
  init_inv σ r ls ents →
  ∃ σ' ls' ents',
    init_links false n r (List.last ls r) σ = (Ok (List.last (ls ++ ls') r), σ') ∧
    init_inv σ' r (ls ++ ls') (ents ++ ents') ∧ length ls' = n ∧
    drawn σ' = drawn σ ∧ next_id σ ≤ next_id σ'.
Proof.
  induction n as [|n IH]; intros σ r ls ents Hinv.
  - exists σ, [], []. rewrite !app_nil_r. done.
  - pose proof (init_step _ _ _ _ Hinv) as Hstep.
    destruct (IH _ _ _ _ Hstep) as (σ' & ls' & ents' & Hrun & Hinv' & Hlen & Hdr & Hnid).
    exists σ', (S (next_id σ) :: ls'), ((Placeholder (next_id σ), None) :: ents').
    rewrite last_snoc_default in Hrun.
    rewrite <- !app_assoc in Hrun, Hinv'. rewrite <- (app_assoc ents) in Hinv'. split_and!.
    + cbn [init_links]. unfold bind at 1. unfold new_id at 1.
      unfold bind at 1. unfold new_link at 1.
      unfold bind at 1. unfold modify at 1.
      erewrite bind_ok; [exact Hrun|].
      apply setitem_ok. destruct Hinv as [_ _ _ _ _ Hin _ _ _ _ _].
      unfold alloc, set_cache, set_heap, bump; simpl.
      rewrite lookup_insert_ne.
      * apply Hin. destruct (last_decompose r ls) as [pre ->]. set_solver.
      * destruct Hinv' as [_ Hnd _ _ _ _ _ _ _ _ _].
        destruct (last_decompose r ls) as [pre Hpre].
        intros Heq. rewrite app_comm_cons, Hpre, <- Heq in Hnd.
        rewrite <- app_assoc in Hnd. apply NoDup_app in Hnd as (_ & _ & Hnd).
        apply NoDup_cons in Hnd as [Hnd _]. set_solver.
    + exact Hinv'.
    + simpl. by rewrite Hlen.
    + done.
    + simpl in Hnid. lia.
Qed.

(** The second loop, for the Fourier-space ring, only allocates new links
    and stores into links at or above [bound]. *)
Lemma below_trans bound σ1 σ2 σ3 :
  below bound σ1 σ2 → below bound σ2 σ3 → below bound σ1 σ3.
Proof.
  intros (Ha & Hb & Hc & Hd) (Ha' & Hb' & Hc' & Hd'). split_and!; try congruence.
  intros a Hlt. by rewrite Ha', Ha.
Qed.

Lemma init_links_k bound n : ∀ σ kr kl,
  bound ≤ kl → is_Some (heap σ !! kl) → bound ≤ next_id σ →
  ∃ σ' kl',
    init_links true n kr kl σ = (Ok kl', σ') ∧ below bound σ σ' ∧
    bound ≤ kl' ∧ is_Some (heap σ' !! kl') ∧ bound ≤ next_id σ' ∧
    (∀ a, is_Some (heap σ !! a) → is_Some (heap σ' !! a)).
Proof.
  induction n as [|n IH]; intros σ kr kl Hkl Hin Hb.
  - exists σ, kl. split_and!; try done.
  - set (lk := Link (Some kl) (Some kr) (Some (Placeholder (next_id σ) : key)) None).
    set (σ1 := upd kl (set_NEXT (Some (S (next_id σ))))
                 (set_kcache (insert (Placeholder (next_id σ)) (S (next_id σ)))
                    (alloc lk (bump σ)))).
    assert (∀ a, heap σ1 !! a =
              if decide (kl = a) then
                set_NEXT (Some (S (next_id σ))) <$> (<[S (next_id σ) := lk]> (heap σ) !! kl)
              else <[S (next_id σ) := lk]> (heap σ) !! a) as Hheap.
    { intros a. unfold σ1. by rewrite heap_upd. }
    destruct (IH σ1 kr (S (next_id σ)))
      as (σ' & kl' & Hrun & Hbelow & Hkl' & Hin' & Hb' & Hmono).
    + lia.
    + rewrite Hheap. case_decide.
      * subst. rewrite lookup_insert_eq. eauto.
      * rewrite lookup_insert_eq. eauto.
    + simpl. lia.
    + exists σ', kl'. split_and!; try done.
      * cbn [init_links]. unfold bind at 1. unfold new_id at 1.
        unfold bind at 1. unfold new_link at 1.
        unfold bind at 1. unfold modify at 1.
        erewrite bind_ok; [exact Hrun|].
        apply setitem_ok. unfold alloc, set_kcache, set_heap, bump; simpl.
        destruct (decide (S (next_id σ) = kl)) as [->|?].
        -- rewrite lookup_insert_eq. eauto.
        -- by rewrite lookup_insert_ne.
      * eapply below_trans; [|exact Hbelow]. split_and!; try done.
        intros a Hlt. rewrite Hheap.
        rewrite decide_False by lia. rewrite lookup_insert_ne by lia. done.
      * intros a Ha. apply Hmono. rewrite Hheap. case_decide.
        -- subst. rewrite fmap_is_Some.
           destruct (decide (S (next_id σ) = a)) as [->|?].
           ++ by rewrite lookup_insert_eq.
           ++ by rewrite lookup_insert_ne.
        -- destruct (decide (S (next_id σ) = a)) as [->|?].
           ++ by rewrite lookup_insert_eq.
           ++ by rewrite lookup_insert_ne.
Qed.

Lemma cache_inv_frame σ σ' r l ents :
  cache_inv σ r l ents →
  (∀ a, a ∈ r :: l → heap σ' !! a = heap σ !! a) →
  _cache σ' = _cache σ → _root σ' = _root σ →
  cache_inv σ' r l ents.
Proof.
  intros [Hroot Hnd Hpath Hrk Hents Hdict] Hheap Hcache Hr.
  assert (∀ a, a ∈ r :: l → nextof σ' a = nextof σ a ∧ prevof σ' a = prevof σ a ∧
                 keyof σ' a = keyof σ a ∧ resultof σ' a = resultof σ a) as Hf.
  { intros a Ha. unfold nextof, prevof, keyof, resultof. by rewrite Hheap. }
  split.
  - congruence.
  - done.
  - eapply path_frame; [| |exact Hpath].
    + intros a Ha. apply Hf. rewrite app_comm_cons, removelast_last in Ha. done.
    + intros a Ha. simpl in Ha. apply Hf.
      apply elem_of_app in Ha as [?| ->%list_elem_of_singleton]; set_solver.
  - destruct (Hf r) as (_ & _ & -> & _); [set_solver|done].
  - eapply Forall2_impl_in; [exact Hents|].
    intros x y Hx. apply holds_frame; [| |done]; apply Hf; set_solver.
  - intros k a. rewrite Hcache. intros Hk. destruct (Hdict _ _ Hk) as [Ha Hka].
    split; [done|]. destruct (Hf a) as (_ & _ & -> & _); [set_solver|done].
Qed.

(** [root[PREV] = last] closes the ring. *)
Lemma init_close σ r ls ents :
  init_inv σ r ls ents → ls ≠ [] →
  cache_inv (upd r (set_PREV (Some (List.last ls r))) σ) r ls ents.
Proof.
  intros [Hroot Hnd Hpath Htail Hbound Hin Hrk Hents Hdict Hfresh Hph] Hne.
  destruct (last_decompose r ls) as [pre Hpre].
  assert (is_Some (heap σ !! r)) as Hinr by (apply Hin; set_solver).
  split.
  - done.
  - done.
  - rewrite app_comm_cons, Hpre, <- app_assoc. apply path_snoc2. split.
    + rewrite <- Hpre. eapply path_frame; [| |exact Hpath].
      * intros a _. by state_simpl.
      * intros a Ha. simpl in Ha. state_simpl. rewrite decide_False; [done|].
        intros <-. apply NoDup_cons in Hnd as [? _]. done.
    + split; state_simpl; [by apply Htail|by rewrite decide_True].
  - by state_simpl.
  - eapply Forall2_impl; [exact Hents|]. intros x y.
    apply holds_frame; [| |done]; by state_simpl.
  - intros k a Hk. destruct (Hdict k a Hk). split; [done|]. by state_simpl.
Qed.

Lemma init_inv_start :
  init_inv (set_root (Some 0) (alloc (Link None None None None) empty_state : state))
    0 [] [].
Proof.
  split; try done.
  - apply NoDup_singleton.
  - intros a. unfold alloc, set_root, set_heap, bump, empty_state; simpl.
    intros [x Hx]. apply lookup_insert_Some in Hx as [[<- _]|[_ Hx]]; [lia|done].
  - intros a ->%list_elem_of_singleton.
    unfold alloc, set_root, set_heap, bump, empty_state; simpl.
    by rewrite lookup_insert_eq.
Qed.

(** [Series.__init__] with a positive [maxcache] builds a ring of
    [maxcache] placeholder links and draws nothing. *)
Lemma Series_init_ok (n : nat) :
  1 ≤ n →
  ∃ (σ : state) r l ents,
    Series__init__ (Z.of_nat n) empty_state = (Ok tt, σ) ∧
    cache_inv σ r l ents ∧ length l = n ∧ drawn σ = [] ∧
    Forall (λ e, (∃ i, fst e = Placeholder i) ∧ snd e = None) ents.
Proof.
  intros Hn.
  destruct (init_links_real n _ _ _ _ init_inv_start)
    as (σ1 & ls & ents & Hrun & Hinv & Hlen & Hdr & _).
  simpl in Hrun, Hinv.
  assert (ls ≠ []) as Hne by (intros ->; simpl in Hlen; lia).
  pose proof (init_close _ _ _ _ Hinv Hne) as Hc.
  set (σ2 := upd 0 _ σ1) in Hc.
  set (bound := next_id σ2).
  set (σ3 := set_kroot (Some bound) (alloc (Link None None None None) σ2)).
  assert (is_Some (heap σ3 !! bound)) as Hin3.
  { unfold σ3, alloc, set_kroot, set_heap, bump, bound, σ2, upd, set_heap; simpl.
    by rewrite lookup_insert_eq. }
  destruct (init_links_k bound n σ3 bound bound)
    as (σ4 & kl & Hrunk & Hbel & Hkl & Hink & _ & Hmono);
    [done|done|unfold σ3, bound; simpl; lia|].
  set (σ5 := upd bound (set_PREV (Some (List.last ls 0))) σ4).
  exists σ5, 0, ls, ents. split_and!.
  - unfold Series__init__. unfold bind at 1. unfold gets at 1.
    change (_root empty_state) with (@None nat). cbv beta iota.
    unfold bind at 1. unfold new_link at 1.
    change (next_id empty_state) with 0. cbv beta iota.
    unfold bind at 1. unfold modify at 1. cbv beta iota.
    rewrite Nat2Z.id.
    erewrite bind_ok by exact Hrun.
    erewrite bind_ok by (apply setitem_ok; destruct Hinv; eauto using list_elem_of_here).
    fold σ2. unfold bind at 1. unfold new_link at 1. fold bound. cbv beta iota.
    unfold bind at 1. unfold modify at 1. cbv beta iota. fold σ3.
    erewrite bind_ok by exact Hrunk.
    apply setitem_ok. by apply Hmono.
  - destruct Hbel as (Hh & Hbc & Hbr & _).
    apply (cache_inv_frame σ2); [done| |exact Hbc|exact Hbr].
    intros a Ha. unfold σ5. rewrite heap_upd.
    assert (a < bound) as Hlt.
    { destruct Hinv as [_ _ _ _ Hbd Hi _ _ _ _ _]. apply Hi, Hbd in Ha. unfold bound. done. }
    rewrite decide_False by lia.
    rewrite Hh by done.
    unfold σ3, alloc, set_kroot, set_heap, bump; simpl.
    rewrite lookup_insert_ne; [done|]. unfold bound in Hlt. simpl in Hlt. lia.
  - done.
  - destruct Hbel as (_ & _ & _ & Hd). unfold σ5. change (drawn σ4 = []). by rewrite Hd.
  - by destruct Hinv.
Qed.

(** *** The cache refines the LRU list *)

Lemma inv_keys σ r l ents :
  cache_inv σ r l ents →
  NoDup ents.*1 ∧ ∀ k, is_Some (_cache σ !! k) ↔ k ∈ ents.*1.
Proof.
  intros [Hroot Hnd Hpath Hrk Hents Hdict]. split.
  - apply NoDup_alt. intros i j k Hi Hj.
    apply list_lookup_fmap_Some in Hi as (ei & -> & Hi).
    apply list_lookup_fmap_Some in Hj as (ej & Hk & Hj).
    destruct (Forall2_lookup_r _ _ _ _ _ Hents Hi) as (ai & Hai & _ & _ & Hci).
    destruct (Forall2_lookup_r _ _ _ _ _ Hents Hj) as (aj & Haj & _ & _ & Hcj).
    rewrite <- Hk, Hci in Hcj. injection Hcj as <-.
    apply NoDup_cons in Hnd as [_ Hnd]. by eapply NoDup_alt.
  - intros k. split.
    + intros [a Ha]. destruct (Hdict _ _ Ha) as [Hal Hka].
      apply list_elem_of_lookup in Hal as [i Hi].
      destruct (Forall2_lookup_l _ _ _ _ _ Hents Hi) as (e & He & Hk1 & _).
      rewrite Hka in Hk1. injection Hk1 as ->.
      apply list_elem_of_fmap. exists e. split; [done|]. by eapply list_elem_of_lookup_2.
    + intros (e & -> & He)%list_elem_of_fmap.
      apply list_elem_of_lookup in He as [i Hi].
      destruct (Forall2_lookup_r _ _ _ _ _ Hents Hi) as (a & _ & _ & _ & Hc). eauto.
Qed.

Lemma basisCube_refines (self : Series) (k : ckey) σ r l ents :
  cache_inv σ r l ents → l ≠ [] → drawable drawImage_basis (self, k) →
  ∃ σ' r' l' ents' res,
    _basisCube drawImage_basis self k σ = (Ok res, σ') ∧
    cache_inv σ' r' l' ents' ∧ length l' = length l ∧
    ents'.*1 = LRU.lru_access ents.*1 (Tuple k).
Proof.
  intros Hinv Hne Hdraw. destruct (inv_keys _ _ _ _ Hinv) as [Hndk Hkeys].
  unfold LRU.lru_access. case_decide as Hin.
  - apply Hkeys in Hin as [a Ha].
    destruct (basisCube_hit self k _ _ _ _ _ Hinv Ha)
      as (l1 & l2 & e1 & e & e2 & σ' & -> & -> & Hlen & Hek & Hrun & Hinv' & _).
    exists σ', r, (l1 ++ l2 ++ [a]), (e1 ++ e2 ++ [e]), (snd e).
    split_and!; [done|done|rewrite !length_app; simpl; lia|].
    rewrite !fmap_app, !fmap_cons in *. simpl. rewrite Hek in *.
    apply NoDup_app in Hndk as (_ & Hd & Hnd2). apply NoDup_cons in Hnd2 as [Hk2 _].
    unfold LRU.touch. rewrite LRUFacts.filter_ne_split; [|intros ?; apply (Hd (Tuple k)); set_solver|done].
    by rewrite <- app_assoc.
  - assert (_cache σ !! Tuple k = None) as Hc.
    { apply eq_None_not_Some. by rewrite Hkeys. }
    unfold drawable in Hdraw. simpl in Hdraw.
    destruct (build_table drawImage_basis self k) as [tbl|] eqn:Hb; [|done].
    destruct l as [|a l]; [done|].
    pose proof Hinv as [_ _ _ _ Hents _].
    apply Forall2_cons_inv_l in Hents as (e & ents' & _ & _ & ->).
    destruct (basisCube_miss self k _ _ _ _ _ _ _ Hinv Hc Hb) as (σ' & Hrun & Hinv' & _).
    exists σ', a, (l ++ [r]), (ents' ++ [(Tuple k, Some tbl)]), (Some tbl).
    split_and!; [done|done|rewrite length_app; simpl; lia|].
    by rewrite fmap_app.
Qed.

Lemma accesses_refine (calls : list (Series * ckey)) : ∀ σ r l ents,
  Forall (drawable drawImage_basis) calls → cache_inv σ r l ents → l ≠ [] →
  ∃ σ' r' l' ents',
    accesses drawImage_basis calls σ = (Ok tt, σ') ∧
    cache_inv σ' r' l' ents' ∧ length l' = length l ∧
    ents'.*1 = foldl LRU.lru_access ents.*1 (Tuple <$> calls.*2).
Proof.
  induction calls as [|[self k] calls IH]; intros σ r l ents Hd Hinv Hne.
  - exists σ, r, l, ents. done.
  - apply Forall_cons in Hd as [Hd1 Hd].
    destruct (basisCube_refines self k _ _ _ _ Hinv Hne Hd1)
      as (σ1 & r1 & l1 & ents1 & res & Hrun & Hinv1 & Hlen1 & Hk1).
    destruct (IH σ1 r1 l1 ents1 Hd Hinv1) as (σ' & r' & l' & ents' & Hrun' & Hinv' & Hlen' & Hk').
    { intros ->. destruct l; [done|simpl in Hlen1; lia]. }
    exists σ', r', l', ents'. split_and!; [|done|lia|].
    + unfold accesses. cbn [for_each]. unfold bind at 1. unfold bind at 1.
      cbn [fst snd]. rewrite Hrun. exact Hrun'.
    + simpl. by rewrite <- Hk1.
Qed.

(** After [__init__] the keys are placeholders. *)
Lemma placeholders_not_tuple (ents : list (key * option table)) (k : ckey) :
  Forall (λ e, (∃ i, fst e = Placeholder i) ∧ snd e = None) ents →
  Tuple k ∉ ents.*1.
Proof.
  intros Hph (e & Hk & He)%list_elem_of_fmap.
  rewrite Forall_forall in Hph. destruct (Hph _ He) as [[i Hi] _]. congruence.
Qed.

(** The cache is an LRU cache: after [__init__] with capacity [n ≥ 1] and
    any sequence of drawable calls, the dict holds the last [n] keys of the
    placeholders followed by the recency order of the trace. *)
Lemma cache_is_lru (n : nat) (calls : list (Series * ckey)) :
  1 ≤ n → Forall (drawable drawImage_basis) calls →
  ∃ σ r l ents ph,
    fresh_run drawImage_basis (Z.of_nat n) calls = (Ok tt, σ) ∧
    cache_inv σ r l ents ∧ length ph = n ∧
    (∀ k : ckey, Tuple k ∉ ph) ∧
    ents.*1 = LRU.lastn n (ph ++ LRU.recency (Tuple <$> calls.*2)).
Proof.
  intros Hn Hd.
  destruct (Series_init_ok n Hn) as (σ0 & r0 & l0 & ents0 & Hinit & Hinv0 & Hlen0 & _ & Hph).
  destruct (accesses_refine calls σ0 r0 l0 ents0 Hd Hinv0)
    as (σ & r & l & ents & Hrun & Hinv & Hlen & Hk).
  { intros ->. simpl in Hlen0. lia. }
  exists σ, r, l, ents, ents0.*1. split_and!.
  - unfold fresh_run. erewrite bind_ok by exact Hinit. exact Hrun.
  - done.
  - rewrite length_fmap. destruct Hinv0 as [_ _ _ _ Hents _].
    apply Forall2_length in Hents. lia.
  - intros k. by apply placeholders_not_tuple.
  - rewrite Hk. apply LRUFacts.lru_access_window.
    + done.
    + rewrite length_fmap. destruct Hinv0 as [_ _ _ _ Hents _].
      apply Forall2_length in Hents. lia.
    + by destruct (inv_keys _ _ _ _ Hinv0).
    + intros k (k' & -> & _)%list_elem_of_fmap. by apply placeholders_not_tuple.
Qed.

Lemma recency_fmap_Tuple (t : list ckey) :
  LRU.recency (Tuple <$> t) = (Tuple <$> LRU.recency t : list key).
Proof.
  induction t as [|k t IH] using rev_ind; [done|].
  rewrite fmap_app. simpl. rewrite !LRUFacts.recency_snoc, IH. unfold LRU.touch.
  rewrite fmap_app. f_equal.
  generalize (LRU.recency t). intros c. induction c as [|x c IHc]; [done|].
  rewrite fmap_cons. destruct (decide (x = k)) as [->|Hne].
  - rewrite (filter_cons_False _ (Tuple k)) by naive_solver.
    rewrite (filter_cons_False _ k) by naive_solver. exact IHc.
  - rewrite (filter_cons_True _ (Tuple x)) by naive_solver.
    rewrite (filter_cons_True _ x) by naive_solver.
    rewrite fmap_cons. by f_equal.
Qed.

(** C2 (amended).  Start from a cache initialised with capacity
    [maxcache ≥ 1] and run any trace of drawable [_basisCube] calls that
    touches exactly [maxcache + 1] distinct keys, with or without
    re-accesses in between.  Every call returns, and afterwards exactly one
    of the keys is missing from the cache: the least recently accessed one,
    the first key in the order of last access.  All placeholder entries are
    gone.  A key that is accessed again (or for the first time) when some
    other earlier key [k'] is not accessed afterwards is still cached: a
    re-access protects an entry exactly when another entry stays older. *)
Theorem lru_eviction (n : nat) (calls : list (Series * ckey)) :
  1 ≤ n →
  Forall (drawable drawImage_basis) calls →
  length (LRU.recency calls.*2) = S n →
  ∃ σ victim rest,
    fresh_run drawImage_basis (Z.of_nat n) calls = (Ok tt, σ) ∧
    LRU.recency calls.*2 = victim :: rest ∧
    (∀ k, is_Some (_cache σ !! Tuple k) ↔ k ∈ rest) ∧
    (∀ i, _cache σ !! Placeholder i = None) ∧
    (∀ t1 c t2 k', calls = t1 ++ c :: t2 →
       k' ∈ t1.*2 → k' ≠ snd c → k' ∉ t2.*2 →
       is_Some (_cache σ !! Tuple (snd c))).
Proof.
  intros Hn Hd Hlen.
  destruct (cache_is_lru n calls Hn Hd) as (σ & r & l & ents & ph & Hrun & Hinv & Hph & Hpht & Hk).
  destruct (LRU.recency calls.*2) as [|victim rest] eqn:HR; [done|].
  simpl in Hlen.
  assert (ents.*1 = Tuple <$> rest) as Hkeys.
  { rewrite Hk, recency_fmap_Tuple, HR, LRUFacts.lastn_app_ge
      by (rewrite length_fmap; simpl; lia).
    unfold LRU.lastn. rewrite length_fmap. simpl.
    replace (S (length rest) - n) with 1 by lia. done. }
  destruct (inv_keys _ _ _ _ Hinv) as [_ Hdom].
  assert (∀ k, is_Some (_cache σ !! Tuple k) ↔ k ∈ rest) as Hcached.
  { intros k. rewrite Hdom, Hkeys. split.
    - intros (k' & [= ->] & ?)%list_elem_of_fmap. done.
    - intros ?. apply list_elem_of_fmap. eauto. }
  exists σ, victim, rest. split_and!; [done|done|done| |].
  - intros i. apply eq_None_not_Some. rewrite Hdom, Hkeys.
    intros (k' & [=] & ?)%list_elem_of_fmap.
  - intros t1 c t2 k' -> Hk1 Hne Hk2. apply Hcached.
    assert (snd c ∈ victim :: rest) as Hin.
    { rewrite <- HR. apply LRUFacts.elem_of_recency. rewrite fmap_app, fmap_cons. set_solver. }
    apply elem_of_cons in Hin as [Heq|Hin]; [|done].
    exfalso. rewrite fmap_app, fmap_cons in HR.
    apply (LRUFacts.recency_not_head t1.*2 (snd c) t2.*2 k' Hk1 Hne Hk2).
    rewrite HR. simpl. by rewrite Heq.
Qed.

(** *** Failing and successful calls *)

Lemma fill_cube_raise objs args kwargs width e : ∀ σ,
  build_rows drawImage_basis objs args kwargs width = Raise e →
  ∃ σ', map_M (λ obj, bind (draw drawImage_basis obj args kwargs)
                        (λ im, lift (assign_row width (ravel im)))) objs σ
        = (Raise e, σ').
Proof.
  induction objs as [|o objs IH]; intros σ Hb; simpl in *; [done|].
  unfold bind at 1. unfold bind at 1. rewrite draw_eval.
  destruct (drawImage_basis o args kwargs) as [im|e1]; [|injection Hb as <-; eauto].
  unfold lift at 1.
  destruct (assign_row width (ravel im)) as [row|e2]; [|injection Hb as <-; eauto].
  destruct (build_rows drawImage_basis objs args kwargs width) as [rows|e3] eqn:Hr; [done|].
  injection Hb as <-. unfold bind at 1.
  destruct (IH (log_draws [(o, args, kwargs)] σ) eq_refl) as [σ' ->]. eauto.
Qed.

(** A miss whose table cannot be built raises the exception of the
    failing step. *)
Lemma basisCube_miss_raise (self : Series) (k : ckey) σ e :
  _cache σ !! Tuple k = None →
  build_table drawImage_basis self k = Raise e →
  ∃ σ', _basisCube drawImage_basis self k σ = (Raise e, σ').
Proof.
  intros Hc Hb. unfold _basisCube. unfold build_table in Hb.
  destruct k as [[idx args] items].
  unfold bind at 1. unfold gets at 1. unfold bind at 1. unfold gets at 1.
  rewrite Hc. unfold bind at 1. unfold lift at 1.
  destruct (_getBasisFuncs self) as [[|obj0 objs]|e0].
  - injection Hb as <-. unfold bind at 1. unfold raise at 1. eauto.
  - unfold bind at 1. rewrite draw_eval.
    destruct (drawImage_basis obj0 args (list_to_map items)) as [im0|e1];
      [|injection Hb as <-; eauto].
    destruct (build_rows drawImage_basis (obj0 :: objs) args (list_to_map items)
                ((shape im0).1 * (shape im0).2)) as [cube|e2] eqn:Hrows; [done|].
    injection Hb as <-. unfold bind at 1.
    destruct (fill_cube_raise _ _ _ _ _ (log_draws [(obj0, args, list_to_map items)] σ) Hrows)
      as [σ' Hf].
    rewrite Hf. eauto.
  - injection Hb as <-. eauto.
Qed.

(** What a successful call leaves behind: the key is cached at the most
    recently used link [a], which holds the returned table. *)
Lemma basisCube_post (self : Series) (k : ckey) σ r l ents res σ1 :
  cache_inv σ r l ents → l ≠ [] →
  _basisCube drawImage_basis self k σ = (Ok res, σ1) →
  ∃ r1 l1 ents1 a,
    cache_inv σ1 r1 (l1 ++ [a]) (ents1 ++ [(Tuple k, res)]) ∧
    length (l1 ++ [a]) = length l ∧
    (is_Some (_cache σ !! Tuple k) → drawn σ1 = drawn σ) ∧
    (_cache σ !! Tuple k = None →
       ∃ tbl, build_table drawImage_basis self k = Ok tbl ∧ res = Some tbl ∧
              drawn σ1 = drawn σ ++ miss_draws self k).
Proof.
  intros Hinv Hne Hrun.
  destruct (_cache σ !! Tuple k) as [a|] eqn:Hc.
  - destruct (basisCube_hit self k _ _ _ _ _ Hinv Hc)
      as (l1 & l2 & e1 & e & e2 & σ' & -> & -> & Hlen & Hek & Hrun' & Hinv' & Hdr & _).
    rewrite Hrun in Hrun'. injection Hrun' as -> ->.
    exists r, (l1 ++ l2), (e1 ++ e2), a. rewrite <- !app_assoc.
    destruct e as [ek er]. simpl in *. subst ek.
    split_and!; [done|rewrite !length_app; simpl; lia|done|done].
  - destruct (build_table drawImage_basis self k) as [tbl|e] eqn:Hb.
    + destruct l as [|a l]; [done|].
      pose proof Hinv as [_ _ _ _ Hents _].
      apply Forall2_cons_inv_l in Hents as (e & ents' & _ & _ & ->).
      destruct (basisCube_miss self k _ _ _ _ _ _ _ Hinv Hc Hb) as (σ' & Hrun' & Hinv' & Hdr & _).
      rewrite Hrun in Hrun'. injection Hrun' as -> ->.
      exists a, l, ents', r. split_and!; [done|rewrite length_app; simpl; lia| |eauto].
      intros [? ?]. done.
    + destruct (basisCube_miss_raise self k σ e Hc Hb) as [σ' Hrun'].
      rewrite Hrun in Hrun'. done.
Qed.

(** *** Cache keys and [Series.drawImage] *)

Lemma dict_sorted_items (kwargs : gmap string Val) :
  list_to_map (sorted_items kwargs) = kwargs.
Proof.
  symmetry. apply list_to_map_flip. unfold sorted_items.
  symmetry. apply merge_sort_Permutation.
Qed.

Lemma sorted_items_inj (kw1 kw2 : gmap string Val) :
  sorted_items kw1 = sorted_items kw2 → kw1 = kw2.
Proof.
  intros Heq. rewrite <- (dict_sorted_items kw1), <- (dict_sorted_items kw2). by rewrite Heq.
Qed.

(** [drawImage] changes the store only through [_basisCube]. *)
Lemma drawImage_state (self : Series) idx args kwargs σ :
  _series_idx self = Ok idx →
  snd (drawImage drawImage_basis self args kwargs σ)
  = snd (_basisCube drawImage_basis self (idx, args, sorted_items kwargs) σ).
Proof.
  intros Hidx. unfold drawImage. rewrite Hidx.
  unfold bind at 1. unfold lift at 1. unfold bind at 1.
  destruct (_basisCube drawImage_basis self (idx, args, sorted_items kwargs) σ)
    as [[[[cube shp|]|]|e] σ']; [|done|done|done].
  unfold bind, lift, ret.
  destruct (_getCoeffs self); [|done].
  destruct (np_dot _ _ _); done.
Qed.

Lemma drawImage_ok_inv (self : Series) idx args kwargs σ :
  _series_idx self = Ok idx →
  is_ok (fst (drawImage drawImage_basis self args kwargs σ)) = true →
  ∃ tbl σ', _basisCube drawImage_basis self (idx, args, sorted_items kwargs) σ
            = (Ok (Some tbl), σ').
Proof.
  intros Hidx. unfold drawImage. rewrite Hidx.
  unfold bind at 1. unfold lift at 1. unfold bind at 1.
  destruct (_basisCube drawImage_basis self (idx, args, sorted_items kwargs) σ)
    as [[[tbl|]|e] σ']; [eauto|done|done].
Qed.

(** C4.  In any state reached from [__init__] with capacity at least 1
    through drawable calls, let [s1] and [s2] be two Series instances with
    the same [_series_idx()], and let [s1.drawImage] succeed with some
    positional and keyword arguments.  Then the key of that call is cached
    at a link [a] holding a table [tbl], and [s2.drawImage] with the same
    arguments gets that very table from the same link without drawing any
    basis profile.  With any different keyword dict the key is different;
    if that key is not yet cached the call is a miss that builds its table
    by drawing the basis profiles again and stores it at another link. *)
Theorem cache_correctness (n : nat) (calls : list (Series * ckey))
    (s1 s2 : Series) (idx : Idx) (args : Arg) (kwargs : gmap string Val) :
  1 ≤ n → Forall (drawable drawImage_basis) calls →
  _series_idx s1 = Ok idx → _series_idx s2 = Ok idx →
  let σ := snd (fresh_run drawImage_basis (Z.of_nat n) calls) in
  let k : ckey := (idx, args, sorted_items kwargs) in
  is_ok (fst (drawImage drawImage_basis s1 args kwargs σ)) = true →
  let σ1 := snd (drawImage drawImage_basis s1 args kwargs σ) in
  ∃ tbl a,
    _cache σ1 !! Tuple k = Some a ∧ resultof σ1 a = Some tbl ∧
    (let σ2 := snd (drawImage drawImage_basis s2 args kwargs σ1) in
     _basisCube drawImage_basis s2 k σ1 = (Ok (Some tbl), σ2) ∧
     drawn σ2 = drawn σ1 ∧
     _cache σ2 !! Tuple k = Some a ∧ resultof σ2 a = Some tbl) ∧
    (∀ kwargs', kwargs' ≠ kwargs →
       let k' : ckey := (idx, args, sorted_items kwargs') in
       let σ2 := snd (drawImage drawImage_basis s2 args kwargs' σ1) in
       k' ≠ k ∧
       (_cache σ1 !! Tuple k' = None → drawable drawImage_basis (s2, k') →
        ∃ tbl' a',
          build_table drawImage_basis s2 k' = Ok tbl' ∧
          _basisCube drawImage_basis s2 k' σ1 = (Ok (Some tbl'), σ2) ∧
          drawn σ2 = drawn σ1 ++ miss_draws s2 k' ∧ miss_draws s2 k' ≠ [] ∧
          _cache σ2 !! Tuple k' = Some a' ∧ resultof σ2 a' = Some tbl' ∧
          a' ≠ a)).
Proof.
  intros Hn Hd Hidx1 Hidx2 σ k Hok σ1.
  destruct (cache_is_lru n calls Hn Hd) as (σ' & r & l & ents & ph & Hrun & Hinv & Hph & _ & Hk).
  assert (σ = σ') as Hσ by (unfold σ; by rewrite Hrun). clearbody σ. subst σ'.
  assert (l ≠ []) as Hne.
  { intros ->. destruct Hinv as [_ _ _ _ Hents _]. apply Forall2_nil_inv_l in Hents as ->.
    simpl in Hk. symmetry in Hk. apply (f_equal length) in Hk.
    unfold LRU.lastn in Hk. rewrite length_drop, length_app in Hk. simpl in Hk. lia. }
  destruct (drawImage_ok_inv s1 idx args kwargs σ Hidx1 Hok) as (tbl & σ1' & Hrun1).
  assert (σ1 = σ1') as Hσ1.
  { unfold σ1. rewrite (drawImage_state s1 idx) by done. by rewrite Hrun1. }
  clearbody σ1. subst σ1'.
  destruct (basisCube_post s1 k _ _ _ _ _ _ Hinv Hne Hrun1)
    as (r1 & l1 & ents1 & a & Hinv1 & Hlen1 & _ & _).
  assert (holds σ1 a (Tuple k, Some tbl)) as (Hka & Hra & Hca).
  { destruct Hinv1 as [_ _ _ _ Hents _].
    apply Forall2_app_inv_l in Hents as (x1 & x2 & _ & Hx2 & Hxeq).
    apply Forall2_cons_inv_l in Hx2 as (y & x2' & Hy & Hnil & ->).
    apply Forall2_nil_inv_l in Hnil as ->.
    apply app_inj_tail in Hxeq as [_ <-]. done. }
  simpl in Hka, Hra, Hca.
  exists tbl, a. split_and!; [done|done| |].
  - destruct (basisCube_hit s2 k _ _ _ _ _ Hinv1 Hca)
      as (la & lb & ea & e & eb & σ2 & _ & _ & _ & _ & Hrun2 & _ & Hdr & Hc2 & _ & _ & _ & _
          & Hfields & Hres).
    rewrite (drawImage_state s2 idx) by done. unfold k in Hrun2. rewrite Hrun2. cbn [snd].
    fold k in Hrun2 |- *.
    rewrite Hres, Hra in Hrun2.
    split_and!; [done|done|by rewrite Hc2|]. destruct (Hfields a) as [_ ->]. done.
  - intros kwargs' Hkw k' σ2.
    assert (k' ≠ k) as Hkne.
    { unfold k', k. intros [= Heq]. by apply Hkw, sorted_items_inj. }
    split; [done|]. intros Hc' Hdraw.
    unfold drawable in Hdraw. cbn [fst snd] in Hdraw.
    destruct (build_table drawImage_basis s2 k') as [tbl'|] eqn:Hb; [|done].
    destruct (l1 ++ [a]) as [|a0 l'] eqn:Hl; [by destruct l1|].
    pose proof Hinv1 as [_ Hnd1 _ _ Hents1 _].
    apply Forall2_cons_inv_l in Hents1 as (e0 & ents' & _ & _ & Hee).
    rewrite Hee in Hinv1.
    destruct (basisCube_miss s2 k' _ _ _ _ _ _ _ Hinv1 Hc' Hb)
      as (σ2' & Hrun2 & Hinv2 & Hdr & Hc2 & _).
    assert (σ2 = σ2') as Hσ2.
    { unfold σ2. rewrite (drawImage_state s2 idx) by done. unfold k' in Hrun2.
      by rewrite Hrun2. }
    clearbody σ2. subst σ2'.
    exists tbl', r1. split_and!; [done|done|done| | | |].
    + unfold miss_draws, k'. unfold build_table, k' in Hb.
      destruct (_getBasisFuncs s2) as [[|? ?]|]; done.
    + rewrite Hc2. apply lookup_insert_eq.
    + destruct Hinv2 as [_ _ _ _ Hents _].
      apply Forall2_app_inv_r in Hents as (x1 & x2 & _ & Hx2 & Hxeq).
      apply Forall2_cons_inv_r in Hx2 as (y & x2' & Hy & Hnil & ->).
      apply Forall2_nil_inv_r in Hnil as ->.
      apply app_inj_tail in Hxeq as [_ <-]. by destruct Hy as (_ & ? & _).
    + intros ->. apply NoDup_cons in Hnd1 as [Hr1 _]. apply Hr1.
      rewrite <- Hl. set_solver.
Qed.

End Facts.

(** The theorem at capacity 2: insert keys 0 and 1, access key 0 again,
    insert key 2.  Key 1 is evicted, the re-accessed key 0 stays. *)
Lemma lru_eviction_witness :
  ∃ σ victim rest,
    fresh_run unit_draw 2 (toy_call <$> [0; 1; 0; 2]) = (Ok tt, σ) ∧
    LRU.recency (toy_call <$> [0; 1; 0; 2]).*2 = victim :: rest ∧
    (∀ k, is_Some (_cache σ !! Tuple k) ↔ k ∈ rest) ∧
    (∀ i, _cache σ !! Placeholder i = None) ∧
    (∀ t1 c t2 k', toy_call <$> [0; 1; 0; 2] = t1 ++ c :: t2 →
       k' ∈ t1.*2 → k' ≠ snd c → k' ∉ t2.*2 →
       is_Some (_cache σ !! Tuple (snd c))).
Proof.
  apply (lru_eviction unit_draw 2 (toy_call <$> [0; 1; 0; 2])).
  - lia.
  - repeat constructor.
  - reflexivity.
Defined.

(** The theorem on a fresh cache of capacity 2: [toy_series 0] draws with
    [scale=1], then its twin draws with the same arguments. *)
Lemma cache_correctness_witness :
  let σ := snd (fresh_run unit_draw (Z.of_nat 2) []) in
  let k : ckey := (0, 0, sorted_items toy_kwargs) in
  is_ok (fst (drawImage unit_draw (toy_series 0) 0 toy_kwargs σ)) = true ∧
  let σ1 := snd (drawImage unit_draw (toy_series 0) 0 toy_kwargs σ) in
  ∃ tbl a,
    _cache σ1 !! Tuple k = Some a ∧ resultof σ1 a = Some tbl ∧
    (let σ2 := snd (drawImage unit_draw toy_twin 0 toy_kwargs σ1) in
     _basisCube unit_draw toy_twin k σ1 = (Ok (Some tbl), σ2) ∧
     drawn σ2 = drawn σ1 ∧
     _cache σ2 !! Tuple k = Some a ∧ resultof σ2 a = Some tbl) ∧
    (∀ kwargs', kwargs' ≠ toy_kwargs →
       let k' : ckey := (0, 0, sorted_items kwargs') in
       let σ2 := snd (drawImage unit_draw toy_twin 0 kwargs' σ1) in
       k' ≠ k ∧
       (_cache σ1 !! Tuple k' = None → drawable unit_draw (toy_twin, k') →
        ∃ tbl' a',
          build_table unit_draw toy_twin k' = Ok tbl' ∧
          _basisCube unit_draw toy_twin k' σ1 = (Ok (Some tbl'), σ2) ∧
          drawn σ2 = drawn σ1 ++ miss_draws toy_twin k' ∧ miss_draws toy_twin k' ≠ [] ∧
          _cache σ2 !! Tuple k' = Some a' ∧ resultof σ2 a' = Some tbl' ∧
          a' ≠ a)).
Proof.
  intros σ k. split; [vm_compute; reflexivity|].
  apply (cache_correctness unit_draw 2 [] (toy_series 0) toy_twin 0 0 toy_kwargs
           (le_S 1 1 (le_n 1)) (Forall_nil_2 _) eq_refl eq_refl).
  vm_compute; reflexivity.
Defined.

(** C2 as stated fails: with capacity 2, key 0 is inserted and re-accessed
    (a hit) before the third insertion, and it is nevertheless the entry
    that the third insertion evicts. *)
Lemma lru_reaccessed_entry_evicted :
  let run := fresh_run unit_draw 2 (toy_call <$> [0; 0; 1; 2]) in
  fst run = Ok tt ∧
  _cache (snd run) !! Tuple (toy_key 0) = None ∧
  is_Some (_cache (snd run) !! Tuple (toy_key 1)) ∧
  is_Some (_cache (snd run) !! Tuple (toy_key 2)).
Proof. vm_compute. split_and!; eauto. Qed.

End SeriesCacheFacts.
(** ** SeriesConvolution *)

Module ConvolutionFacts.
Import Convolution.

(** *** Coefficients: the raveled outer product *)

Lemma flat_map_singleton {X} (xs : list X) : flat_map (λ x, [x]) xs = xs.
Proof. induction xs as [|x xs IH]; simpl; by f_equal. Qed.

Lemma flat_map_flat_map {X Y Z} (f : X → list Y) (g : Y → list Z) (xs : list X) :
  flat_map g (flat_map f xs) = flat_map (λ x, flat_map g (f x)) xs.
Proof.
  induction xs as [|x xs IH]; [done|]. simpl.
  by rewrite flat_map_app, IH.
Qed.

Lemma flat_map_map {X Y Z} (f : X → Y) (g : Y → list Z) (xs : list X) :
  flat_map g (map f xs) = flat_map (λ x, g (f x)) xs.
Proof. induction xs as [|x xs IH]; simpl; by f_equal. Qed.

Lemma map_flat_map {X Y Z} (f : X → list Y) (g : Y → Z) (xs : list X) :
  map g (flat_map f xs) = flat_map (λ x, map g (f x)) xs.
Proof.
  induction xs as [|x xs IH]; [done|]. simpl.
  by rewrite map_app, IH.
Qed.

Lemma flat_map_ext' {X Y} (f g : X → list Y) (xs : list X) :
  (∀ x, f x = g x) → flat_map f xs = flat_map g xs.
Proof. intros E. induction xs as [|x xs IH]; simpl; by rewrite ?E, ?IH. Qed.

Lemma foldl_outer (rest : list (list Q)) : ∀ acc,
  foldl outer acc rest =
  flat_map (λ x, map (λ t, foldl Qmult x t) (product rest)) acc.
Proof.
  induction rest as [|b rest IH]; intros acc.
  - simpl. by rewrite flat_map_singleton.
  - cbn [foldl]. rewrite IH. unfold outer. rewrite flat_map_flat_map.
    apply flat_map_ext'. intros x. cbn [product].
    rewrite flat_map_map, map_flat_map.
    apply flat_map_ext'. intros y. by rewrite map_map.
Qed.

(** Left to right with broadcasting, the arrays of an open mesh multiply
    to, tuple by tuple of the Cartesian product, the product of the
    tuple. *)
Lemma foldl_outer_product (a : list Q) (rest : list (list Q)) :
  foldl outer a rest = map tuple_product (product (a :: rest)).
Proof.
  rewrite foldl_outer. cbn [product].
  rewrite map_flat_map. apply flat_map_ext'. intros x. by rewrite map_map.
Qed.

(** Arrays of one entry each multiply entry by entry to what the outer
    product gives. *)
Lemma foldl_zip_singletons (rest : list (list Q)) : ∀ a,
  length a = 1%nat → forallb (λ b, (length b =? 1)%nat) rest = true →
  foldl (zip_with Qmult) a rest = foldl outer a rest.
Proof.
  induction rest as [|b rest IH]; intros a Ha Hrest; [done|].
  cbn [forallb] in Hrest. apply andb_prop in Hrest as [Hb Hrest].
  apply Nat.eqb_eq in Hb.
  destruct a as [|x [|]]; try done. destruct b as [|y [|]]; try done.
  cbn [foldl]. replace (outer [x] [y]) with (zip_with Qmult [x] [y]) by done.
  by apply IH.
Qed.

(** *** The open mesh of [np.ix_] *)

Lemma map_snd_ix_from n (arrays : list (list Q)) : ∀ k,
  map snd (ix_from n k arrays) = arrays.
Proof. induction arrays as [|a rest IH]; intros k; cbn; [done|]. by rewrite IH. Qed.

Lemma ix_shape_one n k : (k < n)%nat → ix_shape n k 1 = replicate n 1%nat.
Proof.
  intros Hk. unfold ix_shape.
  change (1%nat :: replicate (n - S k) 1%nat) with (replicate (S (n - S k)) 1%nat).
  rewrite <- replicate_add. f_equal. lia.
Qed.

Lemma ix_shape_not_one n k len : len ≠ 1%nat → ix_shape n k len ≠ replicate n 1%nat.
Proof.
  intros Hlen Heq.
  assert (ix_shape n k len !! k = Some len) as Hk.
  { unfold ix_shape. apply list_lookup_middle. by rewrite length_replicate. }
  rewrite Heq in Hk. apply lookup_replicate in Hk as [-> _]. done.
Qed.

(** The arrays from the [k]-th on all have the shape of ones exactly when
    each has one entry. *)
Lemma ix_from_all_ones n (rest : list (list Q)) : ∀ k,
  (k + length rest ≤ n)%nat →
  forallb (λ m, bool_decide (fst m = replicate n 1%nat)) (ix_from n k rest)
  = forallb (λ b, (length b =? 1)%nat) rest.
Proof.
  induction rest as [|b rest IH]; intros k Hk; [done|].
  cbn [ix_from forallb fst length] in *. rewrite IH by lia. f_equal.
  destruct (Nat.eqb_spec (length b) 1) as [->|Hne].
  - rewrite ix_shape_one by lia. by apply bool_decide_eq_true.
  - apply bool_decide_eq_false. by apply ix_shape_not_one.
Qed.

(** Every array after the first has first dimension 1. *)
Lemma ix_from_heads n (rest : list (list Q)) : ∀ k,
  forallb (λ m, bool_decide (head (fst m) = Some 1%nat)) (ix_from n (S k) rest) = true.
Proof.
  induction rest as [|b rest IH]; intros k; [done|].
  cbn [ix_from forallb fst]. by rewrite IH.
Qed.

(** What [np.multiply.reduce(np.ix_( *arrays )).ravel()] comes to: the
    tuple products over the Cartesian product of the arrays where numpy can
    make one array of the mesh, [ValueError] where it cannot. *)
Lemma multiply_reduce_ix_spec (arrays : list (list Q)) :
  multiply_reduce_ix arrays =
  if reduce_ok arrays then Ok (map tuple_product (product arrays))
  else Raise (ValueError "could not broadcast input array").
Proof.
  destruct arrays as [|a rest]; [done|].
  unfold multiply_reduce_ix, ix_. cbn [length ix_from multiply_reduce reduce_ok].
  rewrite map_snd_ix_from, <- foldl_outer_product.
  destruct (Nat.eqb_spec (length a) 1) as [Ha|Ha]; cbn [negb orb].
  - rewrite Ha, (ix_shape_one (S (length rest)) 0) by lia.
    rewrite ix_from_all_ones by lia.
    destruct (forallb (λ b, (length b =? 1)%nat) rest) eqn:Hrest.
    + by rewrite foldl_zip_singletons.
    + change (head (replicate (S (length rest)) 1%nat)) with (Some 1%nat).
      by rewrite ix_from_heads.
  - destruct rest as [|b rest]; [done|].
    cbn [ix_from forallb fst]. unfold ix_shape at 1 3 4 6. cbn [replicate app head].
    rewrite !bool_decide_eq_false_2; [done| |]; intros [=]; done.
Qed.

(** *** The constructor *)

Lemma unpack_loop_spec c (args : list pyobj) : ∀ acc st,
  ∃ st', unpack_loop c args acc st = (Ok (acc ++ flatten args), st') ∧
         patched st' = patched st ∧ next_cell st' = next_cell st.
Proof.
  induction args as [|obj rest IH]; intros acc st.
  - exists st. unfold flatten. simpl. by rewrite app_nil_r.
  - cbn [unpack_loop]. unfold bind at 1. unfold assign at 1, modify at 1.
    set (st1 := Store _ _ _).
    destruct obj as [o|l].
    + destruct (IH (acc ++ [o]) st1) as (st' & -> & Hp & Hn).
      exists st'. unfold flatten. simpl. rewrite <- app_assoc. done.
    + destruct (IH (acc ++ l) st1) as (st' & -> & Hp & Hn).
      exists st'. unfold flatten. simpl. rewrite <- app_assoc. done.
Qed.

Lemma patch_loop_spec c (objl : list operand) : ∀ st,
  ∃ st', patch_loop c objl st = (Ok tt, st') ∧
         next_cell st' = next_cell st ∧
         cells st' = match last objl with
                     | Some o => <[c := Operand o]> (cells st)
                     | None => cells st
                     end ∧
         ∀ g, patched st' !! g =
              if decide (Profile g ∈ objl) then Some c else patched st !! g.
Proof.
  induction objl as [|o objl IH]; intros st.
  - exists st. split_and!; try done.
    all: intros g; rewrite decide_False; [done|set_solver].
  - unfold patch_loop. cbn [for_each]. unfold bind at 1. unfold bind at 1.
    unfold assign at 1, modify at 1.
    set (st1 := Store (<[c:=Operand o]> (cells st)) (patched st) (next_cell st)).
    assert (∃ st2, (match o with Profile g => patch g c | _ => ret tt end) st1 = (Ok tt, st2) ∧
                   next_cell st2 = next_cell st ∧ cells st2 = <[c:=Operand o]> (cells st) ∧
                   ∀ g, patched st2 !! g =
                        if decide (Profile g = o) then Some c else patched st !! g)
      as (st2 & -> & Hn2 & Hc2 & Hp2).
    { destruct o as [g0| |].
      - eexists. split; [reflexivity|]. split_and!; try done. intros g. simpl.
        destruct (decide (g0 = g)) as [->|Hne].
        + rewrite lookup_insert_eq. by rewrite decide_True.
        + rewrite lookup_insert_ne by done. rewrite decide_False; [done|congruence].
      - exists st1. split_and!; try done.
      - exists st1. split_and!; try done. }
    destruct (IH st2) as (st' & Hrun & Hn & Hc & Hp).
    exists st'. split_and!.
    + exact Hrun.
    + congruence.
    + rewrite Hc, Hc2. rewrite last_cons. destruct (last objl); [|done].
      by rewrite insert_insert_eq.
    + intros g. rewrite Hp, Hp2.
      destruct (decide (Profile g = o)) as [<-|Hne].
      * rewrite (decide_True (P:=Profile g ∈ Profile g :: objl)) by set_solver.
        by case_decide.
      * destruct (decide (Profile g ∈ objl)).
        -- rewrite decide_True; [done|set_solver].
        -- rewrite decide_False; [done|set_solver].
Qed.

Lemma collect_ext {A X} (f g : A → result X) (xs : list A) :
  (∀ x, x ∈ xs → f x = g x) → collect f xs = collect g xs.
Proof.
  induction xs as [|x xs IH]; intros E; [done|]. simpl.
  rewrite E by set_solver. rewrite IH; [done|]. intros ??. apply E. set_solver.
Qed.

(** The constructor returns the flattened operand list; afterwards every
    plain profile among the operands answers [[1.0]] for its coefficients
    and the list holding the last operand for its basis. *)
Lemma init_spec (args : list posarg) (objs : list pyobj) gsp st :
  unpack_args args = Ok objs →
  ∃ st', __init__ args gsp [] st = (Ok (MkSC (flatten objs) gsp), st') ∧
         (∀ o, o ∈ flatten objs → operand_coeffs st' o = intended_coeffs o) ∧
         (∀ lastv, last (flatten objs) = Some lastv →
            ∀ o, o ∈ flatten objs → operand_basis st' o = late_basis lastv o).
Proof.
  intros Hargs. unfold __init__. unfold bind at 1. unfold lift at 1. rewrite Hargs.
  unfold bind at 1. unfold new_cell at 1.
  set (st0 := Store (cells st) (patched st) (S (next_cell st))).
  destruct (unpack_loop_spec (next_cell st) objs [] st0) as (st1 & Hrun1 & Hp1 & Hn1).
  unfold bind at 1. rewrite Hrun1. cbn [app].
  destruct (patch_loop_spec (next_cell st) (flatten objs) st1) as (st' & Hrun2 & Hn2 & Hc2 & Hp2).
  unfold bind at 1. rewrite Hrun2. unfold ret.
  exists st'. split_and!; [done| |].
  - intros o Ho. destruct o as [g| |]; try done. simpl.
    rewrite Hp2. by rewrite decide_True.
  - intros lastv Hlast o Ho. destruct o as [g| |]; try done. simpl.
    rewrite Hp2, decide_True by done. rewrite Hc2, Hlast, lookup_insert_eq. done.
Qed.

Lemma unpack_args_two (a b : pyobj) : unpack_args [Obj a; Obj b] = Ok [a; b].
Proof. by destruct a as [[]|]. Qed.

Lemma unpack_args_three (a b c : pyobj) :
  unpack_args [Obj a; Obj b; Obj c] = Ok [a; b; c].
Proof. by destruct a as [[]|]. Qed.

(** Nested convolutions flatten: the constructor applied to a convolution
    of [a] and [b] and to [c] builds the operand list of the constructor
    applied to [a], [b] and [c], and the two objects expand into the same
    basis functions and coefficients. *)
Lemma flattening (a b c : pyobj) st :
  let r_ab := __init__ [Obj a; Obj b] None [] st in
  ∃ ab nested flat st1 st2 st3,
    r_ab = (Ok ab, st1) ∧
    __init__ [Obj (SC (objlist ab)); Obj c] None [] st1 = (Ok nested, st2) ∧
    __init__ [Obj a; Obj b; Obj c] None [] st = (Ok flat, st3) ∧
    objlist nested = objlist flat ∧
    _getBasisFuncs st2 nested = _getBasisFuncs st3 flat ∧
    _getCoeffs st2 nested = _getCoeffs st3 flat.
Proof.
  intros r_ab.
  destruct (init_spec [Obj a; Obj b] [a; b] None st (unpack_args_two a b))
    as (st1 & Hab & _ & _).
  destruct (init_spec [Obj (SC (flatten [a; b])); Obj c] [SC (flatten [a; b]); c] None st1
              (unpack_args_two _ c)) as (st2 & Hn & Hnc & Hnb).
  destruct (init_spec [Obj a; Obj b; Obj c] [a; b; c] None st (unpack_args_three a b c))
    as (st3 & Hf & Hfc & Hfb).
  assert (flatten [SC (flatten [a; b]); c] = flatten [a; b; c]) as Heq.
  { unfold flatten. simpl. rewrite !app_nil_r. by rewrite <- app_assoc. }
  rewrite Heq in *.
  eexists _, _, _, st1, st2, st3. split_and!; [exact Hab|exact Hn|exact Hf|done| |].
  - unfold _getBasisFuncs. cbn [objlist].
    destruct (last (flatten [a; b; c])) as [lastv|] eqn:Hlast.
    + rewrite (collect_ext (operand_basis st2) (late_basis lastv)) by eauto.
      rewrite (collect_ext (operand_basis st3) (late_basis lastv)) by eauto. done.
    + apply last_None in Hlast. by rewrite Hlast.
  - unfold _getCoeffs. cbn [objlist].
    rewrite (collect_ext (operand_coeffs st2) intended_coeffs) by eauto.
    rewrite (collect_ext (operand_coeffs st3) intended_coeffs) by eauto. done.
Qed.

(** After the constructor, the basis functions are the convolutions over
    the Cartesian product of the lists the operands answer, and the
    coefficients are the tuple products over the Cartesian product of the
    operands' coefficient lists, in the same order, where numpy can reduce
    them; where it cannot, [_getCoeffs] raises [ValueError]. *)
Lemma expansion_after_init (args : list posarg) (objs : list pyobj)
    (lastv : operand) (bases : list (list pyobj)) (coeffs : list (list Q)) gsp st :
  unpack_args args = Ok objs →
  last (flatten objs) = Some lastv →
  collect (late_basis lastv) (flatten objs) = Ok bases →
  collect intended_coeffs (flatten objs) = Ok coeffs →
  ∃ sc st', __init__ args gsp [] st = (Ok sc, st') ∧
    _getBasisFuncs st' sc = Ok (map Convolve (product bases)) ∧
    _getCoeffs st' sc =
      if reduce_ok coeffs then Ok (map tuple_product (product coeffs))
      else Raise (ValueError "could not broadcast input array").
Proof.
  intros Hargs Hlast Hb Hc.
  destruct (init_spec args objs gsp st Hargs) as (st' & Hrun & Hcs & Hbs).
  eexists _, st'. split; [exact Hrun|]. split.
  - unfold _getBasisFuncs. cbn [objlist].
    rewrite (collect_ext _ (late_basis lastv)) by eauto. by rewrite Hb.
  - unfold _getCoeffs. cbn [objlist].
    rewrite (collect_ext _ intended_coeffs) by eauto.
    by rewrite Hc, multiply_reduce_ix_spec.
Qed.

Lemma expansion_after_init_witness :
  ∃ sc st', __init__ [Obj spergel; Obj g2] None [] empty_store = (Ok sc, st') ∧
    _getBasisFuncs st' sc =
      Ok (map Convolve (product [[Operand (Profile 100); Operand (Profile 101)]; [g2]])) ∧
    _getCoeffs st' sc = Ok (map tuple_product (product [[2%Q; 3%Q]; [1%Q]])).
Proof.
  exact (expansion_after_init [Obj spergel; Obj g2] [spergel; g2] (Profile 2)
           [[Operand (Profile 100); Operand (Profile 101)]; [g2]] [[2%Q; 3%Q]; [1%Q]]
           None empty_store eq_refl eq_refl eq_refl eq_refl).
Defined.

(** C3, the code at the failing input: the convolution of two different
    plain profiles [g1] and [g2].  The operand list is [[g1; g2]] and the
    coefficients are [[1.0]], but the one basis function is the convolution
    of [g2] with itself, not of [g1] with [g2]: both patched lambdas read
    the loop variable, which holds [g2] when they are called. *)
Theorem two_profiles_basis :
  ∃ sc st,
    __init__ [Obj g1; Obj g2] None [] empty_store = (Ok sc, st) ∧
    objlist sc = [Profile 1; Profile 2] ∧
    _getCoeffs st sc = Ok [1%Q] ∧
    _getBasisFuncs st sc = Ok [Convolve [g2; g2]] ∧
    collect intended_basis (objlist sc) = Ok [[g1]; [g2]] ∧
    _getBasisFuncs st sc ≠ Ok (map Convolve (product [[g1]; [g2]])).
Proof.
  eexists _, _. split; [vm_compute; reflexivity|].
  split_and!; [reflexivity|reflexivity|reflexivity|reflexivity|].
  vm_compute. intros [=].
Qed.

(** *** Lengths *)

Lemma length_product {X} (lists : list (list X)) :
  length (product lists) = foldr Nat.mul 1%nat (map length lists).
Proof.
  induction lists as [|l rest IH]; [done|]. cbn [product map foldr].
  rewrite <- IH. induction l as [|x l IHl]; [done|].
  cbn [flat_map]. rewrite length_app, length_map, IHl. done.
Qed.

Lemma collect_lengths st (objl : list operand) : ∀ arrays lists,
  Forall balanced objl →
  collect (operand_coeffs st) objl = Ok arrays →
  collect (operand_basis st) objl = Ok lists →
  map length arrays = map length lists.
Proof.
  induction objl as [|o objl IH]; intros arrays lists Hbal; cbn [collect].
  - by intros [= <-] [= <-].
  - apply Forall_cons in Hbal as [Ho Hbal].
    destruct (operand_coeffs st o) as [a|] eqn:Ha; [|done].
    destruct (collect (operand_coeffs st) objl) as [arrays'|]; [|done].
    destruct (operand_basis st o) as [l|] eqn:Hl; [|done].
    destruct (collect (operand_basis st) objl) as [lists'|]; [|done].
    intros [= <-] [= <-]. cbn [map]. f_equal; [|by apply IH].
    destruct o as [g|i basis coeffs|]; simpl in *.
    + destruct (patched st !! g) as [c|]; [|done]. injection Ha as <-.
      destruct (cells st !! c); [|done]. by injection Hl as <-.
    + injection Ha as <-. injection Hl as <-. by rewrite length_map.
    + done.
Qed.

(** Whenever both methods of a convolution return, the lists have the same
    length, the product of the operands' lengths. *)
Lemma convolution_lengths_agree st (self : SeriesConvolution) cs bs :
  Forall balanced (objlist self) →
  _getCoeffs st self = Ok cs → _getBasisFuncs st self = Ok bs →
  length cs = length bs.
Proof.
  intros Hbal. unfold _getCoeffs, _getBasisFuncs.
  destruct (collect (operand_coeffs st) (objlist self)) as [arrays|] eqn:Ha; [|done].
  destruct (collect (operand_basis st) (objlist self)) as [lists|] eqn:Hl; [|done].
  rewrite multiply_reduce_ix_spec. destruct (reduce_ok arrays); [|done].
  intros [= <-] [= <-].
  rewrite !length_map, !length_product.
  by rewrite (collect_lengths st _ _ _ Hbal Ha Hl).
Qed.

Lemma collect_is_ok {A X} (f : A → result X) (xs : list A) :
  (∀ x, x ∈ xs → is_ok (f x) = true) → ∃ ys, collect f xs = Ok ys.
Proof.
  induction xs as [|x xs IH]; intros Hf; cbn [collect]; [eauto|].
  pose proof (Hf x (list_elem_of_here _ _)) as Hx.
  destruct (f x) as [y|]; [|done].
  destruct IH as [ys ->]; [intros; apply Hf; set_solver|]. eauto.
Qed.

Lemma collect_ok_inv {A X} (f : A → result X) (xs : list A) ys :
  collect f xs = Ok ys → ∀ x, x ∈ xs → is_ok (f x) = true.
Proof.
  revert ys. induction xs as [|x xs IH]; intros ys; cbn [collect].
  - intros _ x Hx. by apply elem_of_nil in Hx.
  - destruct (f x) as [y|] eqn:Hy; [|done].
    destruct (collect f xs) as [ys'|]; [|done]. intros _ x' Hx'.
    apply elem_of_cons in Hx' as [->|Hx']; [by rewrite Hy|by eapply IH].
Qed.

(** After the constructor on operands that are Series or profiles,
    [_getBasisFuncs] returns; [_getCoeffs] returns where numpy can reduce
    the operands' coefficient arrays and raises [ValueError] where it
    cannot. *)
Lemma convolution_methods_after_init (args : list posarg) (objs : list pyobj)
    (coeffs : list (list Q)) gsp st :
  unpack_args args = Ok objs →
  collect intended_coeffs (flatten objs) = Ok coeffs →
  ∃ sc st' bs,
    __init__ args gsp [] st = (Ok sc, st') ∧ objlist sc = flatten objs ∧
    _getBasisFuncs st' sc = Ok bs ∧
    _getCoeffs st' sc =
      if reduce_ok coeffs then Ok (map tuple_product (product coeffs))
      else Raise (ValueError "could not broadcast input array").
Proof.
  intros Hargs Hc.
  destruct (init_spec args objs gsp st Hargs) as (st' & Hrun & Hcs & Hbs).
  destruct (collect_is_ok (operand_basis st') (flatten objs)) as [lists Hl].
  { intros o Ho. pose proof (collect_ok_inv _ _ _ Hc o Ho) as Hok.
    destruct (last (flatten objs)) as [lastv|] eqn:Hlast.
    - rewrite (Hbs lastv) by done. destruct o; try done.
    - apply last_None in Hlast. rewrite Hlast in Ho. by apply elem_of_nil in Ho. }
  eexists _, st', _. split; [exact Hrun|]. split; [done|].
  unfold _getCoeffs, _getBasisFuncs. cbn [objlist]. rewrite Hl. split; [done|].
  rewrite (collect_ext _ intended_coeffs) by eauto.
  by rewrite Hc, multiply_reduce_ix_spec.
Qed.

End ConvolutionFacts.

(** ** drawImage *)

Module DrawFacts.
Import Draw.
#[local] Open Scope Q_scope.

Section Facts.
Context {Px : Type}.
Variable zeros : BoundsI → Px.
Variable nyquistScale : Profile → Q.
Variable getGoodImageSize : Profile → Q → Q → Z.
Variable trueCenter : BoundsI → PositionD.
Variable center : BoundsI → PositionD.
Variable local_at : nat → PositionD → LocalWCS.
Variable SBdraw : Profile → BoundsI → Px → Q → Px * Q.
Variable SBdrawShoot :
  Profile → BoundsI → Px → Q → option nat → Q → bool → bool → result (Px * Q).

Abbreviation world := (@world Px).
Abbreviation Image := (@Image Px).
Abbreviation DrawArgs := (@DrawArgs Px).
Abbreviation prepare :=
  (prepare zeros nyquistScale getGoodImageSize trueCenter center local_at).
Abbreviation drawImage :=
  (drawImage zeros nyquistScale getGoodImageSize trueCenter center local_at
     SBdraw SBdrawShoot).

Implicit Types (w : world) (a : DrawArgs) (e : exn).

Lemma untouched_refl w : untouched w w.
Proof. done. Qed.

Lemma untouched_trans w1 w2 w3 : untouched w1 w2 → untouched w2 w3 → untouched w1 w3.
Proof. intros (?&?&?) (?&?&?). split_and!; congruence. Qed.

Lemma untouched_set_wcs v w :
  untouched w (World (set_wcs v <$> image w) (drawn w)).
Proof. split_and!; [done| |]; by destruct (image w). Qed.

Ltac finish_step :=
  intros [= <- <-]; split;
  [ first [apply untouched_refl | apply untouched_set_wcs | done]
  | first [done | intros [Hs Hw]; first [by inversion Hs | by inversion Hw]] ].

Lemma determine_wcs_inv self scale wc w res w' :
  _determine_wcs nyquistScale self scale wc w = (res, w') →
  untouched w w' ∧
  match res with
  | Raise e => is_ValueError e = true
  | Ok _ => ¬ (is_Some scale ∧ is_Some wc)
  end.
Proof.
  unfold _determine_wcs, bind, gets, raise, ret, with_image, modify.
  destruct wc as [wc|], scale as [sc|]; simpl.
  - finish_step.
  - destruct (isUniform wc) eqn:Hu; simpl.
    + destruct wc as [s| |]; try done; simpl.
      * destruct (Qle_bool s 0); finish_step.
      * finish_step.
    + destruct (image w) as [i|] eqn:Hi; simpl; [|finish_step].
      destruct (isDefined (bounds i)); simpl.
      2:{ finish_step. }
      destruct wc as [s| |]; try done; simpl.
      finish_step.
  - destruct (Qle_bool sc 0); finish_step.
  - destruct (image w) as [i|]; simpl.
    + destruct (wcs i) as [[s| |]|]; simpl; try finish_step.
      destruct (Qle_bool s 0); finish_step.
    + finish_step.
Qed.

Lemma local_wcs_inv wc offset utc w res w' :
  _local_wcs trueCenter center local_at wc offset utc w = (res, w') →
  w' = w ∧ match res with Raise e => is_ValueError e = true | Ok _ => True end.
Proof.
  unfold _local_wcs, bind, gets, raise, ret.
  destruct (isUniform wc); simpl; [by intros [= <- <-]|].
  destruct (image w) as [i|]; simpl; [|by intros [= <- <-]].
  destruct (isDefined (bounds i)); simpl; [|by intros [= <- <-]].
  destruct wc; by intros [= <- <-].
Qed.

Lemma setup_image_inv prof nx ny bnds wmult add dtype w res w' :
  _setup_image zeros getGoodImageSize prof nx ny bnds wmult add dtype w = (res, w') →
  drawn w' = drawn w ∧
  match res with
  | Raise e => is_ValueError e = true ∧ w' = w
  | Ok _ => is_Some (image w') ∧
            (is_Some (image w) → nx = None ∧ ny = None ∧ bnds = None)
  end.
Proof.
  unfold _setup_image, bind, gets, raise, ret, with_image, make_image, modify.
  destruct (image w) as [i|] eqn:Hi; simpl.
  - destruct bnds as [b|]; simpl; [by intros [= <- <-]|].
    destruct nx as [x|], ny as [y|]; simpl; try by intros [= <- <-].
    destruct dtype as [d|]; simpl; [by intros [= <- <-]|].
    destruct (isDefined (bounds i)); simpl.
    + destruct add; simpl; intros [= <- <-]; simpl; rewrite ?Hi; simpl; eauto 10.
    + destruct add; simpl; intros [= <- <-]; simpl; rewrite ?Hi; simpl; eauto 10.
  - destruct add; simpl; [by intros [= <- <-]|].
    destruct bnds as [b|]; simpl.
    + destruct nx as [x|], ny as [y|]; simpl; intros [= <- <-]; simpl;
        try done; (split; [done|split; [eauto|intros [? [=]]]]).
    + destruct nx as [x|], ny as [y|]; simpl; intros [= <- <-]; simpl;
        try done; (split; [done|split; [eauto|intros [? [=]]]]).
Qed.

Lemma get_shape_bounds (im im' : option Image) nx ny bnds :
  bounds <$> im' = bounds <$> im → _get_shape im' nx ny bnds = _get_shape im nx ny bnds.
Proof.
  destruct im as [[b ? ? ?]|], im' as [[b' ? ? ?]|]; simpl; try done.
  intros [= ->]. done.
Qed.

(** What [prepare] has checked when it returns, and what it may have
    raised and touched when it does not. *)
Lemma prepare_inv self a w res w' :
  prepare self a w = (res, w') →
  match res with
  | Raise e =>
      untouched w w' ∧ is_ConfigurationError e = true ∧
      (a_rng a ≠ NotADeviate → a_offset a ≠ BadOffset → is_ValueError e = true)
  | Ok (prof, lw, wmult, pf) =>
      drawn w' = drawn w ∧ is_Some (image w') ∧
      a_image a ≠ NotAnImage ∧
      Qle_bool (a_gain a) 0 = false ∧ Qle_bool (a_area a) 0 = false ∧
      Qle_bool (a_exptime a) 0 = false ∧
      a_method a ∈ valid_methods ∧ check_phot a = Ok pf ∧
      ¬ (effective_scale a = None ∧ a_wcs a = None ∧
         (a_nx a ≠ None ∨ a_ny a ≠ None ∨ a_bounds a ≠ None)) ∧
      ¬ (is_Some (effective_scale a) ∧ is_Some (a_wcs a)) ∧
      (is_Some (image w) → a_nx a = None ∧ a_ny a = None ∧ a_bounds a = None) ∧
      wmult = match a_wmult a with Some x => x | None => 1 end ∧
      ∃ offset wc, _parse_offset (a_offset a) = Ok offset ∧
        prof = _fix_center (image_profile self a lw)
                 (_get_shape (image w) (a_nx a) (a_ny a) (a_bounds a))
                 offset (a_use_true_center a) false ∧
        fst (_determine_wcs nyquistScale self (effective_scale a) (a_wcs a) w) = Ok wc ∧
        wcs <$> image w' = Some (Some wc)
  end.
Proof.
  unfold Draw.prepare. intros Hrun.
  (* image is not an Image instance *)
  unfold bind at 1 in Hrun.
  assert (a_image a = NotAnImage ∨ a_image a ≠ NotAnImage) as [Himg|Himg]
    by (destruct (a_image a); eauto).
  { rewrite Himg in Hrun. injection Hrun as <- <-. done. }
  assert ((match a_image a with
           | NotAnImage => raise (ValueError "image is not an Image instance")
           | _ => ret tt
           end : M world unit) = ret tt) as Hm by (by destruct (a_image a)).
  rewrite Hm in Hrun. clear Hm. cbn [ret] in Hrun.
  (* gain, area, exptime *)
  unfold bind at 1 in Hrun.
  destruct (Qle_bool (a_gain a) 0) eqn:Hgain; [injection Hrun as <- <-; done|].
  cbn [ret] in Hrun. unfold bind at 1 in Hrun.
  destruct (Qle_bool (a_area a) 0) eqn:Harea; [injection Hrun as <- <-; done|].
  cbn [ret] in Hrun. unfold bind at 1 in Hrun.
  destruct (Qle_bool (a_exptime a) 0) eqn:Hexp; [injection Hrun as <- <-; done|].
  cbn [ret] in Hrun. unfold bind at 1 in Hrun.
  (* method *)
  case_bool_decide as Hmeth; [|injection Hrun as <- <-; done].
  cbn [ret] in Hrun. unfold bind at 1 in Hrun. unfold lift at 1 in Hrun.
  (* photon-shooting parameters *)
  destruct (check_phot a) as [pf|e] eqn:Hphot.
  2:{ injection Hrun as <- <-. split; [done|].
      unfold check_phot in Hphot.
      repeat (case_match; simplify_eq); done. }
  (* nx, ny or bounds without a scale *)
  unfold bind at 1 in Hrun.
  case_bool_decide as Hsc; [injection Hrun as <- <-; done|].
  cbn [ret] in Hrun.
  (* the coordinate system *)
  unfold bind at 1 in Hrun.
  destruct (_determine_wcs nyquistScale self (effective_scale a) (a_wcs a) w)
    as [[wc|e] w1] eqn:Hdet; pose proof Hdet as Hdet0;
    apply determine_wcs_inv in Hdet as [Hu1 Hdet].
  2:{ injection Hrun as <- <-. split; [exact Hu1|]. by destruct e. }
  unfold bind at 1 in Hrun. unfold lift at 1 in Hrun.
  destruct (_parse_offset (a_offset a)) as [offset|e] eqn:Hoff.
  2:{ injection Hrun as <- <-. split; [exact Hu1|]. destruct (a_offset a); simpl in Hoff; simplify_eq.
      split; [done|]. intros _ Hbad. done. }
  unfold bind at 1 in Hrun.
  destruct (_local_wcs trueCenter center local_at wc offset (a_use_true_center a) w1)
    as [[lw|e] w2] eqn:Hloc; apply local_wcs_inv in Hloc as [-> Hloc].
  2:{ injection Hrun as <- <-. split; [exact Hu1|]. by destruct e. }
  unfold bind at 1 in Hrun. unfold gets at 1 in Hrun.
  fold (image_profile self a lw) in Hrun.
  unfold bind at 1 in Hrun.
  match type of Hrun with
  | context [_setup_image ?z ?g ?p ?nx ?ny ?b ?wm ?add ?dt w1] =>
      destruct (_setup_image z g p nx ny b wm add dt w1) as [[[]|e] w3] eqn:Hset;
        apply setup_image_inv in Hset as [Hd3 Hset]
  end.
  2:{ destruct Hset as [He ->]. injection Hrun as <- <-. split; [exact Hu1|]. by destruct e. }
  destruct Hset as [Hsome Hnone].
  unfold bind at 1 in Hrun. unfold with_image at 1, modify at 1 in Hrun.
  cbn [ret] in Hrun. injection Hrun as <- <-.
  destruct Hu1 as (Hud & Hup & Hub).
  split_and!; try done.
  - cbn [drawn]. congruence.
  - cbn [image]. by apply fmap_is_Some.
  - intros Hw. apply Hnone. destruct Hw as [i Hi]. rewrite Hi in Hub.
    destruct (image w1); [eauto|done].
  - exists offset, wc. split_and!; [done| |done|].
    + f_equal. by apply get_shape_bounds.
    + cbn [image]. destruct Hsome as [i ->]. done.
Qed.

(** A successful call that draws went through [prepare], scaled the
    profile, handed it to the back end once and stored the result. *)
Lemma drawImage_success_inv self a w im w' :
  drawImage self a w = (Ok im, w') → a_setup_only a = false →
  ∃ prof lw wmult pf w1 i fs px n,
    prepare self a w = (Ok (prof, lw, wmult, pf), w1) ∧ image w1 = Some i ∧
    flux_scale a lw = Ok fs ∧
    (if String.eqb (a_method a) "phot"
     then SBdrawShoot (ScaleFlux fs prof) (bounds i) (pixels i) (a_n_photons a)
            (rng_seed (a_rng a)) (a_max_extra_noise a) pf (a_add_to_image a) = Ok (px, n)
     else SBdraw (ScaleFlux fs prof) (bounds i) (pixels i) wmult = (px, n)) ∧
    im = set_added_flux (n / fs) (set_pixels px i) ∧
    w' = World (Some im) (drawn w1 ++ [ScaleFlux fs prof]).
Proof.
  unfold Draw.drawImage. intros Hrun Hso. rewrite Hso in Hrun.
  unfold bind at 1 in Hrun.
  destruct (prepare self a w) as [[[[[prof lw] wmult] pf]|e] w1] eqn:Hprep; [|done].
  unfold bind at 1 in Hrun. unfold lift at 1 in Hrun.
  destruct (flux_scale a lw) as [fs|e] eqn:Hfs; [|done].
  unfold bind at 1 in Hrun. unfold gets at 1 in Hrun.
  destruct (image w1) as [i|] eqn:Hi; [|done].
  unfold bind at 1 in Hrun. unfold log_profile at 1, modify at 1 in Hrun.
  unfold bind at 1 in Hrun.
  exists prof, lw, wmult, pf, w1, i, fs.
  destruct (String.eqb (a_method a) "phot").
  - destruct (SBdrawShoot _ _ _ _ _ _ _ _) as [[px n]|e] eqn:Hshoot; [|done].
    exists px, n. split_and!; try done.
    + revert Hrun. unfold bind, with_image, modify, ret, gets. cbn [image drawn].
      rewrite Hi. cbn. by intros [= <- _].
    + revert Hrun. unfold bind, with_image, modify, ret, gets. cbn [image drawn].
      rewrite Hi. cbn. by intros [= <- <-].
  - destruct (SBdraw _ _ _ _) as [px n] eqn:Hdraw.
    exists px, n. split_and!; try done.
    + revert Hrun. unfold bind, with_image, modify, ret, gets. cbn [image drawn].
      rewrite Hi. cbn. by intros [= <- _].
    + revert Hrun. unfold bind, with_image, modify, ret, gets. cbn [image drawn].
      rewrite Hi. cbn. by intros [= <- <-].
Qed.

Lemma drawImage_raise self a w e w1 :
  prepare self a w = (Raise e, w1) → drawImage self a w = (Raise e, w1).
Proof. intros Hp. unfold Draw.drawImage. unfold bind at 1. by rewrite Hp. Qed.

Lemma flux_scale_spec a lw fs :
  Qle_bool (a_gain a) 0 = false → Qle_bool (a_area a) 0 = false →
  Qle_bool (a_exptime a) 0 = false →
  flux_scale a lw = Ok fs →
  fs == a_area a * a_exptime a / a_gain a /
        (if String.eqb (a_method a) "sb" then pixelArea lw else 1) ∧
  ¬ fs == 0.
Proof.
  intros Hg Ha He. unfold flux_scale.
  assert (0 < a_gain a) as Hg' by (apply Qnot_le_lt; intros ?%Qle_bool_iff; congruence).
  assert (0 < a_area a) as Ha' by (apply Qnot_le_lt; intros ?%Qle_bool_iff; congruence).
  assert (0 < a_exptime a) as He' by (apply Qnot_le_lt; intros ?%Qle_bool_iff; congruence).
  assert (0 < a_area a * a_exptime a / a_gain a) as Hpos.
  { apply Qlt_shift_div_l; [done|]. rewrite Qmult_0_l. by apply Qmult_lt_0_compat. }
  assert (¬ a_gain a == 0) as Hg0
    by (intros Hg0; rewrite Hg0 in Hg'; by apply Qlt_irrefl in Hg').
  destruct (String.eqb (a_method a) "sb").
  - unfold Qeqb0. destruct (Qeq_bool (pixelArea lw) 0) eqn:Hpa; [done|].
    apply Qeq_bool_neq in Hpa. intros [= <-]. split; [reflexivity|].
    intros Hz. apply (Qlt_irrefl 0). rewrite <- Hz at 2.
    assert (a_area a * a_exptime a / a_gain a ==
            (a_area a * a_exptime a / a_gain a / pixelArea lw) * pixelArea lw) as Hm
      by (field; split; assumption).
    rewrite Hz, Qmult_0_l in Hm. rewrite Hm in Hpos. by apply Qlt_irrefl in Hpos.
  - intros [= <-]. split.
    + field. assumption.
    + intros Hz. rewrite Hz in Hpos. by apply Qlt_irrefl in Hpos.
Qed.

(** C1.  A call that returns an image and is not [setup_only] multiplies
    the image-coordinate profile [prof] by
    [flux_scale = area * exptime / gain], divided by the local pixel area
    for [method='sb'], hands exactly that scaled profile to the back end,
    stores the pixels the back end deposits, and sets [added_flux] to the
    deposited total [n] divided by the same non-zero factor. *)
Theorem drawImage_flux_accounting self a im :
  fst (drawImage self a (start a)) = Ok im → a_setup_only a = false →
  ∃ prof lw wmult pf i fs px n,
    fst (prepare self a (start a)) = Ok (prof, lw, wmult, pf) ∧
    image (snd (prepare self a (start a))) = Some i ∧
    fs == a_area a * a_exptime a / a_gain a /
          (if String.eqb (a_method a) "sb" then pixelArea lw else 1) ∧
    ¬ fs == 0 ∧
    drawn (snd (drawImage self a (start a))) = [ScaleFlux fs prof] ∧
    (if String.eqb (a_method a) "phot"
     then SBdrawShoot (ScaleFlux fs prof) (bounds i) (pixels i) (a_n_photons a)
            (rng_seed (a_rng a)) (a_max_extra_noise a) pf (a_add_to_image a) = Ok (px, n)
     else SBdraw (ScaleFlux fs prof) (bounds i) (pixels i) wmult = (px, n)) ∧
    pixels im = px ∧ added_flux im = Some (n / fs) ∧ n / fs * fs == n.
Proof.
  intros Hrun Hso.
  destruct (drawImage self a (start a)) as [r w'] eqn:Hd. simpl in Hrun. subst r.
  destruct (drawImage_success_inv _ _ _ _ _ Hd Hso)
    as (prof & lw & wmult & pf & w1 & i & fs & px & n & Hp & Hi & Hfs & Hback & -> & ->).
  pose proof (prepare_inv _ _ _ _ _ Hp) as (Hdr & _ & _ & Hg & Ha & He & _).
  destruct (flux_scale_spec _ _ _ Hg Ha He Hfs) as [Hfs1 Hfs2].
  exists prof, lw, wmult, pf, i, fs, px, n. rewrite Hp. cbn [fst snd drawn].
  split_and!; try done.
  - by rewrite Hdr.
  - by field.
Qed.

(** C6.  In each of the listed cases [drawImage] raises without handing
    anything to the back end and without touching the pixels of the
    caller's image.  The exception is a [ValueError]; only a [rng] that is
    not a deviate or an [offset] that is not a position can make an earlier
    check raise [TypeError] instead. *)
Theorem drawImage_misconfigured self a :
  misconfigured a →
  ∃ e w',
    drawImage self a (start a) = (Raise e, w') ∧
    is_ConfigurationError e = true ∧
    (a_rng a ≠ NotADeviate → a_offset a ≠ BadOffset → is_ValueError e = true) ∧
    drawn w' = [] ∧
    pixels <$> image w' = pixels <$> image (start a).
Proof.
  intros Hbad.
  destruct (prepare self a (start a)) as [[[[[prof lw] wmult] pf]|e] w1] eqn:Hp;
    pose proof (prepare_inv _ _ _ _ _ Hp) as Hinv.
  - exfalso.
    destruct Hinv as (_ & _ & _ & Hg & Ha & He & Hm & _ & Hsc & Hboth & Himg & _).
    destruct Hbad as [?|[Hb|[Hb|[Hb|[Hb|[Hb|Hb]]]]]].
    + done.
    + apply Qle_bool_iff in Hb. congruence.
    + apply Qle_bool_iff in Hb. congruence.
    + apply Qle_bool_iff in Hb. congruence.
    + apply Hsc. tauto.
    + destruct Hb as [Hi Hn]. destruct (Himg Hi) as (? & ? & ?). tauto.
    + by apply Hboth.
  - destruct Hinv as ((Hd & Hpx & _) & Hc & Hv).
    exists e, w1. split_and!; try done.
    by apply drawImage_raise.
Qed.

Lemma fix_center_shifted (p : Profile) shp offset utc :
  _fix_center p shp offset utc false = shifted (centering_offset utc shp offset) p.
Proof. unfold _fix_center, shifted, centering_offset, half_pixel_offset. by destruct utc. Qed.

(** C7 (amended).  In a call that returns an image and is not
    [setup_only], the profile handed to the back end is the flux-scaled
    image-coordinate profile shifted, in one step, by the user offset
    and, only when [use_true_center] is set, by minus half a pixel along
    each axis whose length is even; the lengths are those of the given
    image with defined bounds, else [nx] and [ny], else [bounds], else 0.
    With [use_true_center=False] the shift is the user offset alone, and a
    zero shift leaves the profile as it is. *)
Theorem drawn_profile_centering self a im :
  fst (drawImage self a (start a)) = Ok im → a_setup_only a = false →
  ∃ lw fs offset,
    _parse_offset (a_offset a) = Ok offset ∧
    drawn (snd (drawImage self a (start a))) =
      [ScaleFlux fs
         (shifted (centering_offset (a_use_true_center a) (target_shape a) offset)
            (image_profile self a lw))].
Proof.
  intros Hrun Hso.
  destruct (drawImage self a (start a)) as [r w'] eqn:Hd. simpl in Hrun. subst r.
  destruct (drawImage_success_inv _ _ _ _ _ Hd Hso)
    as (prof & lw & wmult & pf & w1 & i & fs & px & n & Hp & Hi & Hfs & Hback & -> & ->).
  pose proof (prepare_inv _ _ _ _ _ Hp)
    as (Hdr & _ & _ & _ & _ & _ & _ & _ & _ & _ & _ & _ & offset & wc & Hoff & -> & _).
  exists lw, fs, offset. split; [done|].
  cbn [snd drawn]. rewrite Hdr. cbn [start drawn app].
  by rewrite fix_center_shifted.
Qed.

End Facts.

(** [drawImage(image4, method='no_pixel')] with the example back end. *)
Lemma drawImage_flux_accounting_witness :
  ∃ prof lw wmult pf i fs px n,
    fst (prepare toy_zeros toy_nyquist toy_size toy_center toy_center toy_local
           (Base 0) true_center_args (start true_center_args))
      = Ok (prof, lw, wmult, pf) ∧
    image (snd (prepare toy_zeros toy_nyquist toy_size toy_center toy_center toy_local
                  (Base 0) true_center_args (start true_center_args))) = Some i ∧
    fs == a_area true_center_args * a_exptime true_center_args / a_gain true_center_args /
          (if String.eqb (a_method true_center_args) "sb" then pixelArea lw else 1) ∧
    ¬ fs == 0 ∧
    drawn (snd (toy_drawImage (Base 0) true_center_args)) = [ScaleFlux fs prof] ∧
    (if String.eqb (a_method true_center_args) "phot"
     then toy_shoot (ScaleFlux fs prof) (bounds i) (pixels i) (a_n_photons true_center_args)
            (rng_seed (a_rng true_center_args)) (a_max_extra_noise true_center_args) pf
            (a_add_to_image true_center_args) = Ok (px, n)
     else toy_draw (ScaleFlux fs prof) (bounds i) (pixels i) wmult = (px, n)) ∧
    pixels (MkImage (Bounds 1 4 1 4) (Some (PixelScale 1)) tt (Some 1)) = px ∧
    added_flux (MkImage (Bounds 1 4 1 4) (Some (PixelScale 1)) tt (Some 1)) = Some (n / fs) ∧
    n / fs * fs == n.
Proof.
  apply (drawImage_flux_accounting toy_zeros toy_nyquist toy_size toy_center toy_center
           toy_local toy_draw toy_shoot (Base 0) true_center_args
           (MkImage (Bounds 1 4 1 4) (Some (PixelScale 1)) tt (Some 1))).
  - vm_compute. reflexivity.
  - reflexivity.
Defined.

(** [drawImage(nx=4, ny=4, gain=0)] raises [ValueError]. *)
Lemma drawImage_misconfigured_witness :
  misconfigured bad_args ∧
  ∃ e w',
    toy_drawImage (Base 0) bad_args = (Raise e, w') ∧
    is_ConfigurationError e = true ∧
    (a_rng bad_args ≠ NotADeviate → a_offset bad_args ≠ BadOffset → is_ValueError e = true) ∧
    drawn w' = [] ∧
    pixels <$> image w' = pixels <$> image (start bad_args).
Proof.
  assert (misconfigured bad_args) as Hbad.
  { right; left. vm_compute. discriminate. }
  split; [exact Hbad|].
  exact (drawImage_misconfigured toy_zeros toy_nyquist toy_size toy_center toy_center
           toy_local toy_draw toy_shoot (Base 0) bad_args Hbad).
Defined.

(** [drawImage(image4, method='no_pixel')]: both axes are even and
    [use_true_center] is set, so the profile is shifted by (-1/2, -1/2). *)
Lemma drawn_profile_centering_witness :
  ∃ lw fs offset,
    _parse_offset (a_offset true_center_args) = Ok offset ∧
    drawn (snd (toy_drawImage (Base 0) true_center_args)) =
      [ScaleFlux fs
         (shifted (centering_offset (a_use_true_center true_center_args)
                     (target_shape true_center_args) offset)
            (image_profile (Base 0) true_center_args lw))].
Proof.
  apply (drawn_profile_centering toy_zeros toy_nyquist toy_size toy_center toy_center
           toy_local toy_draw toy_shoot (Base 0) true_center_args
           (MkImage (Bounds 1 4 1 4) (Some (PixelScale 1)) tt (Some 1))).
  - vm_compute. reflexivity.
  - reflexivity.
Defined.

(** C7, as stated, fails for [use_true_center=False]: on a 4x4 image with
    no user offset the call succeeds and hands the back end the unshifted
    image-coordinate profile, where the claim requires a shift by
    (-1/2, -1/2). *)
Lemma even_image_without_true_center_not_shifted :
  let a := integer_center_args in
  is_ok (fst (toy_drawImage (Base 0) a)) = true ∧
  target_shape a = (4, 4)%Z ∧
  _parse_offset (a_offset a) = Ok (0, 0) ∧
  drawn (snd (toy_drawImage (Base 0) a)) = [ScaleFlux 1 (ToImage (LocalScale 1) (Base 0))] ∧
  ∀ fs lw,
    drawn (snd (toy_drawImage (Base 0) a)) ≠
      [ScaleFlux fs (shifted (half_pixel_offset (target_shape a) (0, 0))
                       (image_profile (Base 0) a lw))].
Proof.
  split_and!; try (vm_compute; reflexivity).
  intros fs lw. vm_compute. discriminate.
Qed.

End DrawFacts.

(** ** The Fourier-space cache *)

Module FourierCacheFacts.
Import SeriesCache.

(** C9, the code at the failing input.  After [Series.__init__(maxcache=2)]
    the real-space ring is root 0, links 2 and 4, and the Fourier-space root
    is link 5, whose [PREV] slot holds the real-space link 4.  A first
    [drawKImage] look-up (a miss) stores its table in link 5 and leaves the
    real-space links alone; repeating it (a hit on link 5) overwrites
    [NEXT] of the real-space link 4, which pointed to the real-space root,
    with the Fourier-space link 5.  From then on the real-space ring runs
    into the Fourier-space ring: the third real-space miss makes link 5 the
    real-space root, clears its key and table and raises [KeyError], where
    the same three misses succeed when no Fourier-space hit came before. *)
Theorem fourier_hit_rewires_real_ring :
  let σ0 := snd (toy_session 2 []) in
  let σ1 := snd (toy_session 2 [toy_fourier 0]) in
  let σ2 := snd (toy_session 2 [toy_fourier 0; toy_fourier 0]) in
  let σ3 := snd (toy_session 2 [toy_fourier 0; toy_fourier 0;
                                toy_real 1; toy_real 2; toy_real 3]) in
  (_root σ0 = Some 0 ∧ nextof σ0 0 = Some 2 ∧ nextof σ0 2 = Some 4 ∧
   nextof σ0 4 = Some 0 ∧ _kroot σ0 = Some 5 ∧ prevof σ0 5 = Some 4) ∧
  (fst (toy_session 2 [toy_fourier 0]) = Ok tt ∧
   _kcache σ1 !! Tuple (toy_key 0) = Some 5 ∧
   (∀ a, a ∈ [0; 2; 4] → heap σ1 !! a = heap σ0 !! a)) ∧
  (fst (toy_session 2 [toy_fourier 0; toy_fourier 0]) = Ok tt ∧
   _kcache σ2 !! Tuple (toy_key 0) = Some 5 ∧
   heap σ1 !! 4 = Some (Link (Some 2) (Some 0) (Some (Placeholder 3)) None) ∧
   heap σ2 !! 4 = Some (Link (Some 2) (Some 5) (Some (Placeholder 3)) None)) ∧
  (fst (toy_session 2 [toy_fourier 0; toy_fourier 0;
                       toy_real 1; toy_real 2; toy_real 3]) = Raise KeyError ∧
   _root σ3 = Some 5 ∧ keyof σ3 5 = None ∧ resultof σ3 5 = None ∧
   _kcache σ3 !! Tuple (toy_key 0) = Some 5) ∧
  fst (toy_session 2 [toy_real 1; toy_real 2; toy_real 3]) = Ok tt.
Proof.
  split_and!; try (vm_compute; reflexivity).
  intros a Ha. repeat (apply elem_of_cons in Ha as [->|Ha]); try (vm_compute; reflexivity).
  by apply elem_of_nil in Ha.
Qed.

End FourierCacheFacts.

(** ** SpergelSeries and MoffatSeries *)

Module AffineFacts.
Import Affine.
#[local] Open Scope R_scope.

Lemma np_modf_spec x :
  x = IZR (snd (np_modf x)) + fst (np_modf x) ∧ -1 < fst (np_modf x) < 1.
Proof.
  unfold np_modf. destruct (Rle_dec 0 x) as [Hx|Hx]; simpl.
  - destruct (base_Int_part x) as [H1 H2]. split; lra.
  - destruct (base_Int_part (- x)) as [H1 H2]. rewrite opp_IZR. split; lra.
Qed.

(** The snapped integer is a nearest integer. *)
Lemma nearest_step_spec x :
  x = IZR (snd (nearest_step x)) + fst (nearest_step x) ∧
  -1 / 2 < fst (nearest_step x) <= 1 / 2.
Proof.
  unfold nearest_step. destruct (np_modf_spec x) as [Hx Hf].
  destruct (np_modf x) as [f i]. simpl in Hx, Hf.
  destruct (Rlt_dec f 0) as [Hneg|Hneg].
  - destruct (Rlt_dec (1 / 2) (f + 1)); simpl;
      rewrite ?plus_IZR, ?minus_IZR; split; lra.
  - destruct (Rlt_dec (1 / 2) f); simpl;
      rewrite ?plus_IZR, ?minus_IZR; split; lra.
Qed.

Section Facts.
Variable atan2 : R → R → R.
Variable acosh : R → R.
Variable shear_e1 : R → R.
Variable getScaleRadius : cls → R → bool → R → result R.
Context {Shear : Type}.
Variable getMatrix : Shear → matrix.
Variable make_Shear : gmap string (pyarg Shear) → result Shear.

Abbreviation decompose := (decompose atan2 acosh shear_e1).
Abbreviation continuous_scale := (continuous_scale acosh shear_e1).
Abbreviation _decomposeA := (_decomposeA atan2 acosh shear_e1).
Abbreviation _getCoeffs := (_getCoeffs atan2 acosh shear_e1).
Abbreviation _getBasisFuncs := (_getBasisFuncs atan2 acosh shear_e1).
Abbreviation _series_idx := (_series_idx atan2 acosh shear_e1).
Abbreviation wf := (wf atan2 acosh shear_e1).
Abbreviation cache_valid := (cache_valid atan2 acosh shear_e1).
Abbreviation apply_transform := (apply_transform getMatrix make_Shear).
Abbreviation transform_matrix := (transform_matrix getMatrix).
Abbreviation shear := (shear getMatrix make_Shear).

Ltac step H x :=
  match type of H with
  | and_then ?r _ = _ =>
      let E := fresh "E" x in
      destruct r as [x|] eqn:E; cbn [and_then] in H; [|discriminate H]
  end.

(** A decomposition that succeeds puts the scale radius on the grid, at a
    step nearest to the continuous scale. *)
Lemma decompose_grid k dl A e p sr D :
  decompose k dl A = Ok (e, p, sr, D) → 0 < dl →
  ∃ mu r0 i,
    continuous_scale A = Ok (mu, e, r0) ∧ 0 < r0 ∧
    sr = exp (dl * IZR i) ∧
    Rabs (ln r0 / dl - IZR i) <= 1 / 2 ∧
    Rabs (ln (r0 / sr)) <= dl / 2.
Proof.
  intros Hd Hdl. unfold Affine.decompose in Hd. unfold Affine.continuous_scale.
  cbv zeta in *.
  step Hd mu. step Hd x. step Hd eta. step Hd s1. step Hd s2. step Hd r0.
  step Hd lg. step Hd y.
  pose proof (nearest_step_spec y) as [Hy Hf].
  destruct (nearest_step y) as [f i]. simpl in Hy, Hf.
  step Hd Dl. injection Hd as <- <- <- <-.
  cbn [and_then].
  assert (0 < r0 ∧ lg = ln r0) as [Hr0 ->].
  { unfold np_log in Elg. destruct (Rle_dec r0 0); [discriminate|].
    injection Elg as <-. split; [lra|done]. }
  assert (y = ln r0 / dl) as Hyd.
  { unfold np_div in Ey. destruct (Req_dec_T dl 0); [discriminate|]. by injection Ey as <-. }
  exists mu, r0, i. split_and!; try done.
  - rewrite Ex; cbn [and_then]. rewrite Eeta; cbn [and_then].
    rewrite Es1; cbn [and_then]. rewrite Es2; cbn [and_then]. by rewrite Er0.
  - rewrite <- Hyd, Hy. apply Rabs_le. lra.
  - assert (ln (r0 / exp (dl * IZR i)) = dl * f) as ->.
    { unfold Rdiv. rewrite ln_mult; [|done|apply Rinv_0_lt_compat, exp_pos].
      rewrite ln_Rinv by apply exp_pos. rewrite ln_exp.
      assert (ln r0 = dl * y) as ->; [|rewrite Hy; ring].
      rewrite Hyd. field. lra. }
    apply Rabs_le. nra.
Qed.

(** On a matrix of positive determinant the decomposition succeeds. *)
Lemma decompose_ok k dl A :
  (∀ eta, -1 < shear_e1 eta < 1) → 0 < det A → dl ≠ 0 →
  ∃ d, decompose k dl A = Ok d.
Proof.
  intros He Hdet Hdl. unfold Affine.decompose, det in *. cbv zeta.
  unfold math_sqrt at 1. destruct (Rlt_dec _ 0) as [?|_]; [lra|]. cbn [and_then].
  set (mu := sqrt _).
  assert (0 < mu) as Hmu by (apply sqrt_lt_R0; lra).
  unfold np_div at 1. destruct (Req_dec_T (mu ^ 2) 0) as [Hz|_]; [nra|]. cbn [and_then].
  set (x := _ / mu ^ 2).
  assert (0 <= x) as Hx.
  { unfold x. apply Rmult_le_pos.
    - pose proof (pow2_ge_0 (m00 A - m11 A)). pose proof (pow2_ge_0 (m01 A + m10 A)). lra.
    - apply Rlt_le, Rinv_0_lt_compat. nra. }
  unfold math_acosh at 1. destruct (Rlt_dec (x + 1) 1) as [?|_]; [lra|]. cbn [and_then].
  set (e := shear_e1 _).
  assert (0 < 1 - e ^ 2) as He2 by (specialize (He (acosh (x + 1))); fold e in He; nra).
  unfold np_sqrt at 1. destruct (Rlt_dec (1 - e ^ 2) 0) as [?|_]; [lra|]. cbn [and_then].
  set (s1 := sqrt (1 - e ^ 2)).
  assert (0 < s1) as Hs1 by by apply sqrt_lt_R0.
  unfold np_sqrt at 1. destruct (Rlt_dec s1 0) as [?|_]; [lra|]. cbn [and_then].
  set (s2 := sqrt s1).
  assert (0 < s2) as Hs2 by by apply sqrt_lt_R0.
  unfold np_div at 1. destruct (Req_dec_T s2 0) as [?|_]; [lra|]. cbn [and_then].
  assert (0 < mu / s2) as Hr0 by (apply Rdiv_lt_0_compat; lra).
  unfold np_log at 1. destruct (Rle_dec (mu / s2) 0) as [?|_]; [lra|]. cbn [and_then].
  unfold np_div at 1. destruct (Req_dec_T dl 0) as [?|_]; [done|]. cbn [and_then].
  destruct (nearest_step _) as [f i].
  pose proof (exp_pos (dl * IZR i)) as Hsr.
  destruct k.
  - unfold np_div at 1. destruct (Req_dec_T _ 0) as [?|_]; [lra|]. cbn [and_then]. eauto.
  - unfold np_div at 1. destruct (Req_dec_T (mu / s2) 0) as [?|_]; [lra|].
    cbn [and_then]. eauto.
Qed.

Ltac run :=
  cbv beta iota zeta delta
    [Affine._decomposeA Affine.copy Affine._applyMatrix bind get_obj get_mat set_obj
     set_mat lift ret raise modify new_id]; cbn [objs mats next_id].
Ltac next := cbv beta iota; cbn [objs mats next_id].

Lemma with_decomposition_id o e p D :
  ellip o = Some e → phi0 o = Some p → Delta o = Some D →
  with_decomposition e p (scale_radius o) D o = o.
Proof. destruct o; simpl; by intros -> -> ->. Qed.

(** [_decomposeA] returns the decomposition of the current matrix, from
    the cache or computed afresh, and leaves it cached. *)
Lemma decomposeA_spec σ self o A e p s D :
  wf σ → objs σ !! self = Some o → mats σ !! _A o = Some A →
  decompose (kind o) (dlnr o) A = Ok (e, p, s, D) →
  ∃ σ',
    _decomposeA self σ = (Ok (e, p, s, D), σ') ∧ wf σ' ∧
    objs σ' = <[self := with_decomposition e p s D o]> (objs σ) ∧
    mats σ' = mats σ ∧ next_id σ' = next_id σ.
Proof.
  intros Hwf Ho HA Hd. destruct (ellip o) as [e0|] eqn:He.
  - destruct Hwf as [Hobjs Hmats].
    destruct (Hobjs _ _ Ho) as [_ (A' & HA' & Hc)].
    destruct (Hc _ He) as (p0 & D0 & Hp & HD & Hd').
    assert (A' = A) as -> by congruence.
    assert ((e, p, s, D) = (e0, p0, scale_radius o, D0)) as [= -> -> -> ->] by congruence.
    exists σ. split_and!; try done.
    + run. rewrite Ho, He. next. rewrite Ho, He, Hp, HD. done.
    + rewrite with_decomposition_id by done. by rewrite insert_id.
  - set (o' := with_decomposition e p s D o).
    exists (Store (<[self := o']> (objs σ)) (mats σ) (next_id σ)). split_and!; try done.
    + run. rewrite Ho, He. next. rewrite HA. next.
      fold decompose. rewrite Hd. next. rewrite lookup_insert_eq. done.
    + destruct Hwf as [Hobjs Hmats]. split; [|done].
      intros a oa. cbn [objs mats next_id].
      destruct (decide (a = self)) as [->|Hne].
      * rewrite lookup_insert_eq. intros [= <-]. split; [by apply (Hobjs _ _ Ho)|].
        exists A. split; [done|]. intros e1 [= <-]. exists p, D. done.
      * rewrite lookup_insert_ne by done. apply Hobjs.
Qed.

(** A decomposition that cannot be computed raises and caches nothing. *)
Lemma decomposeA_raise σ self o A x :
  objs σ !! self = Some o → mats σ !! _A o = Some A → ellip o = None →
  decompose (kind o) (dlnr o) A = Raise x →
  _decomposeA self σ = (Raise x, σ).
Proof.
  intros Ho HA He Hd. run. rewrite Ho, He. next. rewrite HA. next.
  fold decompose. by rewrite Hd.
Qed.

(** [_applyMatrix] allocates the copy and its matrix, multiplies the new
    matrix by [J] and drops the copy's cached [ellip]. *)
Lemma applyMatrix_spec σ self o A J :
  wf σ → objs σ !! self = Some o → mats σ !! _A o = Some A →
  let r := next_id σ in
  let a := S (next_id σ) in
  let σ' := Store (<[r := del_ellip (with_A a o)]> (objs σ))
                  (<[a := mmul A J]> (mats σ)) (S a) in
  _applyMatrix self J σ = (Ok r, σ') ∧ wf σ'.
Proof.
  intros Hwf Ho HA r a σ'. destruct Hwf as [Hobjs Hmats]. split.
  - run. rewrite Ho. next. rewrite HA. next.
    rewrite lookup_insert_eq. next. cbn [_A with_A].
    rewrite lookup_insert_eq. next. cbn [ellip with_A].
    fold r a. unfold σ'. destruct (ellip o) as [e|] eqn:He; next.
    + by rewrite !insert_insert_eq.
    + rewrite !insert_insert_eq. do 3 f_equal.
      unfold del_ellip, with_A. cbn. by rewrite He.
  - unfold σ'. split.
    + intros b ob. cbn [objs mats next_id].
      destruct (decide (b = r)) as [->|Hne].
      * rewrite lookup_insert_eq. intros [= <-]. split; [unfold r, a; lia|].
        exists (mmul A J). cbn [_A del_ellip with_A mats]. rewrite lookup_insert_eq.
        split; [done|]. intros e. cbn [ellip del_ellip]. done.
      * rewrite lookup_insert_ne by done. intros Hb.
        destruct (Hobjs _ _ Hb) as [Hlt (Ab & HAb & Hc)]. split; [unfold a; lia|].
        exists Ab. cbn [mats]. split; [|done].
        rewrite lookup_insert_ne; [done|].
        assert (_A ob < next_id σ)%nat by (apply Hmats; eauto). unfold a. lia.
    + intros b. cbn [mats next_id]. destruct (decide (b = a)) as [->|Hne].
      * lia.
      * rewrite lookup_insert_ne by done. intros Hb%Hmats. unfold a. lia.
Qed.

(** Each transform is [_applyMatrix] with its matrix. *)
Lemma apply_transform_eq (t : transform) self σ :
  apply_transform t self σ = _applyMatrix self (transform_matrix t) σ.
Proof.
  destruct t as [scale|s|rad]; [done| |done].
  cbn [Affine.apply_transform Affine.transform_matrix]. unfold Affine.shear.
  rewrite bool_decide_eq_false_2 by (intros Hne; by apply Hne).
  unfold bind at 1. unfold ret at 1. unfold bind at 1. unfold lift at 1.
  cbn [shear_matrix]. done.
Qed.

(** [_decomposeA] reads the object and its matrix only. *)
Lemma decomposeA_local σ σ' self o :
  objs σ !! self = Some o → objs σ' !! self = Some o →
  mats σ' !! _A o = mats σ !! _A o →
  fst (_decomposeA self σ') = fst (_decomposeA self σ).
Proof.
  intros Ho Ho' Hm. run. rewrite Ho, Ho'. next. destruct (ellip o) as [e|] eqn:He.
  - next. rewrite Ho, Ho', He. destruct (phi0 o), (Delta o); done.
  - rewrite Hm. destruct (mats σ !! _A o) as [A|]; next; [|done].
    destruct (Affine.decompose _ _ _ _ _ A) as [[[[e p] s] D]|x]; next; [|done].
    by rewrite !lookup_insert_eq.
Qed.

(** C10.  A transform of a well-formed object returns a new object with a
    matrix object of its own, holding the receiver's matrix times the
    matrix of the transform.  Every object and every matrix that existed
    before, the receiver with its cached decomposition and its matrix
    among them, is as it was, and [_decomposeA] on the receiver gives what
    it gave before. *)
Theorem transform_leaves_receiver σ self o A (t : transform) :
  wf σ → objs σ !! self = Some o → mats σ !! _A o = Some A →
  ∃ r σ' o',
    apply_transform t self σ = (Ok r, σ') ∧
    r ≠ self ∧ objs σ !! r = None ∧
    objs σ' !! r = Some o' ∧ _A o' ≠ _A o ∧ mats σ !! _A o' = None ∧
    mats σ' !! _A o' = Some (mmul A (transform_matrix t)) ∧
    objs σ' !! self = Some o ∧ mats σ' !! _A o = Some A ∧
    (∀ b ob, objs σ !! b = Some ob → objs σ' !! b = Some ob) ∧
    (∀ a Aa, mats σ !! a = Some Aa → mats σ' !! a = Some Aa) ∧
    fst (_decomposeA self σ') = fst (_decomposeA self σ).
Proof.
  intros Hwf Ho HA.
  destruct (applyMatrix_spec σ self o A (transform_matrix t) Hwf Ho HA) as [Hrun _].
  cbv zeta in Hrun. destruct Hwf as [Hobjs Hmats].
  set (r := next_id σ) in *. set (a := S r) in *.
  assert (∀ b ob, objs σ !! b = Some ob → b ≠ r) as Hfresh_o.
  { intros b ob Hb. apply Hobjs in Hb as [Hlt _]. unfold r. lia. }
  assert (∀ b, is_Some (mats σ !! b) → b ≠ a) as Hfresh_m.
  { intros b Hb%Hmats. unfold a, r. lia. }
  assert (objs σ !! r = None) as Hr.
  { destruct (objs σ !! r) eqn:E; [|done]. by apply Hfresh_o in E. }
  assert (mats σ !! a = None) as Ha.
  { destruct (mats σ !! a) eqn:E; [|done]. exfalso. by apply (Hfresh_m a). }
  eexists r, _, (del_ellip (with_A a o)).
  split; [rewrite apply_transform_eq; exact Hrun|].
  cbn [objs mats _A del_ellip with_A].
  assert (r ≠ self) as Hrs by (intros ->; congruence).
  assert (a ≠ _A o) as Hao by (intros Heq; rewrite Heq in Ha; congruence).
  split_and!; try done.
  - by rewrite lookup_insert_eq.
  - by rewrite lookup_insert_eq.
  - by rewrite lookup_insert_ne.
  - by rewrite lookup_insert_ne.
  - intros b ob Hb. rewrite lookup_insert_ne; [done|]. intros <-. congruence.
  - intros b Ab Hb. rewrite lookup_insert_ne; [done|]. intros <-. congruence.
  - apply (decomposeA_local _ _ _ o); [done| |]; cbn [objs mats];
      by rewrite lookup_insert_ne.
Qed.

(** C5.  Let the [e1] of a shear lie strictly between -1 and 1, and take a
    well-formed object with a positive grid step [dlnr].  (1) When its
    matrix has a positive determinant, [_decomposeA] returns a scale radius
    [exp(i * dlnr)] for an integer [i] within 1/2 of [ln(r0)/dlnr], so that
    [|ln(r0/scale_radius)| <= dlnr/2], where [r0] is the continuous scale
    of the matrix; this holds whether the decomposition was cached or not.
    (2) After any transform whose result has a positive determinant,
    [_decomposeA] on the new object returns the decomposition of the new
    matrix, again on the grid, whatever the receiver had cached. *)
Theorem decomposeA_snaps_to_grid σ self o A :
  (∀ eta, -1 < shear_e1 eta < 1) →
  wf σ → objs σ !! self = Some o → mats σ !! _A o = Some A →
  0 < dlnr o →
  (0 < det A →
   ∃ e p sr D mu r0 i σ',
     _decomposeA self σ = (Ok (e, p, sr, D), σ') ∧ wf σ' ∧
     continuous_scale A = Ok (mu, e, r0) ∧ 0 < r0 ∧
     sr = exp (dlnr o * IZR i) ∧
     Rabs (ln r0 / dlnr o - IZR i) <= 1 / 2 ∧
     Rabs (ln (r0 / sr)) <= dlnr o / 2) ∧
  (∀ t : transform,
     let A' := mmul A (transform_matrix t) in
     0 < det A' →
     ∃ r σ1 e p sr D mu r0 i σ2,
       apply_transform t self σ = (Ok r, σ1) ∧
       _decomposeA r σ1 = (Ok (e, p, sr, D), σ2) ∧
       decompose (kind o) (dlnr o) A' = Ok (e, p, sr, D) ∧
       continuous_scale A' = Ok (mu, e, r0) ∧ 0 < r0 ∧
       sr = exp (dlnr o * IZR i) ∧
       Rabs (ln r0 / dlnr o - IZR i) <= 1 / 2 ∧
       Rabs (ln (r0 / sr)) <= dlnr o / 2).
Proof.
  intros He Hwf Ho HA Hdl. split.
  - intros Hdet.
    destruct (decompose_ok (kind o) (dlnr o) A He Hdet) as [[[[e p] sr] D] Hd]; [lra|].
    destruct (decomposeA_spec _ _ _ _ _ _ _ _ Hwf Ho HA Hd) as (σ' & Hrun & Hwf' & _).
    destruct (decompose_grid _ _ _ _ _ _ _ Hd Hdl) as (mu & r0 & i & Hc & Hr0 & Hsr & H1 & H2).
    exists e, p, sr, D, mu, r0, i, σ'. done.
  - intros t A' Hdet.
    destruct (applyMatrix_spec σ self o A (transform_matrix t) Hwf Ho HA) as [Hrun Hwf1].
    cbv zeta in Hrun, Hwf1. fold A' in Hrun, Hwf1.
    set (r := next_id σ) in *. set (a := S r) in *.
    set (σ1 := Store _ _ _) in *.
    set (o1 := del_ellip (with_A a o)).
    assert (objs σ1 !! r = Some o1) as Ho1 by (unfold σ1; cbn [objs]; by rewrite lookup_insert_eq).
    assert (mats σ1 !! _A o1 = Some A') as HA1
      by (unfold σ1; cbn [mats _A o1 del_ellip with_A]; by rewrite lookup_insert_eq).
    destruct (decompose_ok (kind o) (dlnr o) A' He Hdet) as [[[[e p] sr] D] Hd]; [lra|].
    destruct (decomposeA_spec σ1 r o1 A' e p sr D Hwf1 Ho1 HA1 Hd) as (σ2 & Hrun2 & _).
    destruct (decompose_grid _ _ _ _ _ _ _ Hd Hdl) as (mu & r0 & i & Hc & Hr0 & Hsr & H1 & H2).
    exists r, σ1, e, p, sr, D, mu, r0, i, σ2. split_and!; try done.
    by rewrite apply_transform_eq.
Qed.

(** *** Coefficients and basis functions *)

Lemma length_collect {X Y} (f : X → result Y) xs ys :
  collect f xs = Ok ys → length ys = length xs.
Proof.
  revert ys. induction xs as [|x xs IH]; intros ys; cbn [collect].
  - by intros [= <-].
  - destruct (f x) as [y|]; cbn [and_then]; [|done].
    destruct (collect f xs) as [ys'|]; cbn [and_then]; [|done].
    intros [= <-]. cbn. f_equal. by apply IH.
Qed.

Lemma collect_ok {X Y} (f : X → result Y) xs :
  (∀ x, x ∈ xs → ∃ y, f x = Ok y) → ∃ ys, collect f xs = Ok ys.
Proof.
  induction xs as [|x xs IH]; intros Hf; cbn [collect]; [eauto|].
  destruct (Hf x) as [y ->]; [set_solver|]. cbn [and_then].
  destruct IH as [ys ->]; [intros; apply Hf; set_solver|]. cbn [and_then]. eauto.
Qed.

Lemma elem_of_xrange lo hi m : m ∈ xrange lo hi ↔ (lo <= m < hi)%Z.
Proof.
  unfold xrange. rewrite list_elem_of_fmap. split.
  - intros (i & -> & Hi%elem_of_seq). lia.
  - intros Hm. exists (Z.to_nat (m - lo)). split; [lia|]. apply elem_of_seq. lia.
Qed.

Lemma length_xrange lo hi : length (xrange lo hi) = Z.to_nat (hi - lo).
Proof. unfold xrange. by rewrite length_map, length_seq. Qed.

Lemma elem_of_jq_indices n j q :
  (j, q) ∈ jq_indices n ↔ (0 <= j <= n ∧ - j <= q <= j)%Z.
Proof.
  unfold jq_indices. rewrite list_elem_of_In, in_flat_map. split.
  - intros (j' & Hj'%list_elem_of_In%elem_of_xrange & Hq%list_elem_of_In).
    apply list_elem_of_fmap in Hq as (q' & [= -> ->] & Hq'%elem_of_xrange). lia.
  - intros [Hj Hq]. exists j. split.
    + apply list_elem_of_In, elem_of_xrange. lia.
    + apply list_elem_of_In, list_elem_of_fmap. exists q. split; [done|].
      apply elem_of_xrange. lia.
Qed.

Lemma math_factorial_ok n : (0 <= n)%Z → math_factorial n = Ok (INR (fact (Z.to_nat n))).
Proof. intros Hn. unfold math_factorial. by rewrite (proj2 (Z.ltb_ge n 0)). Qed.

(** No term of the sum raises: the factorials are taken of non-negative
    numbers and the denominator is not zero. *)
Lemma term_ok k e D j q m :
  (Z.abs q <= m <= j)%Z → ∃ t, term k e D j q m = Ok t.
Proof.
  intros Hm. unfold term. cbv zeta.
  rewrite (math_factorial_ok (j - m)) by lia. cbn [and_then].
  rewrite (math_factorial_ok (m - (q + m) / 2)).
  2:{ assert ((q + m) / 2 <= m)%Z; [|lia]. apply Z.div_le_upper_bound; lia. }
  cbn [and_then].
  rewrite (math_factorial_ok ((q + m) / 2)) by (apply Z.div_pos; lia).
  cbn [and_then]. unfold np_div.
  destruct (Req_dec_T _ 0) as [Hz|_]; [|eauto]. exfalso. revert Hz.
  repeat apply Rmult_integral_contrapositive_currified;
    try apply INR_fact_neq_0.
  apply powerRZ_NOR. lra.
Qed.

Lemma sum_terms_ok k e D j q ms : ∀ c0,
  Forall (λ m, Z.abs q <= m <= j)%Z ms → ∃ c, sum_terms k e D j q ms c0 = Ok c.
Proof.
  induction ms as [|m ms IH]; intros c0 Hms; cbn [sum_terms]; [eauto|].
  apply Forall_cons in Hms as [Hm Hms].
  destruct ((m + q) mod 2 =? 1)%Z; [by apply IH|].
  destruct (term_ok k e D j q m Hm) as [t ->]. cbn [and_then]. by apply IH.
Qed.

Lemma coeff_ok k flx e p D jq :
  -1 < e < 1 → ∃ c, coeff k flx e p D jq = Ok c.
Proof.
  intros He. destruct jq as [j q]. unfold coeff.
  destruct (sum_terms_ok k e D j q (xrange (Z.abs q) (j + 1)) 0) as [c ->].
  { apply Forall_forall. intros m Hm%elem_of_xrange. lia. }
  cbn [and_then].
  assert (∃ norm, match k with
                  | SpergelSeries => Ok flx
                  | MoffatSeries => let! s := math_sqrt (1 - e ^ 2) in Ok (flx * s)
                  end = Ok norm) as [norm ->].
  { destruct k; [eauto|]. unfold math_sqrt.
    destruct (Rlt_dec (1 - e ^ 2) 0) as [?|_]; [nra|]. cbn [and_then]. eauto. }
  cbn [and_then]. destruct (0 <? q)%Z; [eauto|]. destruct (q <? 0)%Z; eauto.
Qed.

Lemma decomposeA_inv σ self d σ' :
  _decomposeA self σ = (Ok d, σ') →
  ∃ o o', objs σ !! self = Some o ∧ objs σ' !! self = Some o' ∧
          same_parameters o o' ∧ scale_radius o' = d.1.2.
Proof.
  run. destruct (objs σ !! self) as [o|] eqn:Ho; next; [|done].
  destruct (ellip o) as [e|] eqn:He.
  - next. rewrite Ho, He. destruct (phi0 o), (Delta o); try done.
    intros [= <- <-]. exists o, o. by rewrite Ho.
  - destruct (mats σ !! _A o) as [A|]; next; [|done].
    destruct (Affine.decompose _ _ _ _ _ A) as [[[[e p] s] D]|x]; next; [|done].
    rewrite lookup_insert_eq. cbn [ellip phi0 Delta scale_radius with_decomposition].
    intros [= <- <-]. eexists o, _. cbn [objs]. rewrite lookup_insert_eq. done.
Qed.

Lemma getCoeffs_length σ self cs σ1 :
  _getCoeffs self σ = (Ok cs, σ1) →
  ∃ o o1, objs σ !! self = Some o ∧ objs σ1 !! self = Some o1 ∧
          same_parameters o o1 ∧ length cs = length (jq_indices (jmax o)).
Proof.
  unfold Affine._getCoeffs. unfold bind at 1.
  destruct (_decomposeA self σ) as [[[[[e p] sr] D]|x] σ'] eqn:Hd; [|done].
  apply decomposeA_inv in Hd as (o & o' & Ho & Ho' & Hsame & _).
  unfold bind, get_obj, lift. rewrite Ho'.
  destruct (collect _ _) as [ys|] eqn:Hc; [|done]. intros [= <- <-].
  exists o, o'. split_and!; try done.
  apply length_collect in Hc. destruct Hsame as (_ & _ & <- & _). done.
Qed.

Lemma getBasisFuncs_length σ self bs σ1 :
  _getBasisFuncs self σ = (Ok bs, σ1) →
  ∃ o o1, objs σ !! self = Some o ∧ objs σ1 !! self = Some o1 ∧
          same_parameters o o1 ∧ length bs = length (jq_indices (jmax o)).
Proof.
  unfold Affine._getBasisFuncs. unfold bind at 1.
  destruct (_decomposeA self σ) as [[[[[e p] sr] D]|x] σ'] eqn:Hd; [|done].
  apply decomposeA_inv in Hd as (o & o' & Ho & Ho' & Hsame & _).
  unfold bind, get_obj, ret. rewrite Ho'. intros [= <- <-].
  exists o, o'. split_and!; try done.
  rewrite length_map. destruct Hsame as (_ & _ & <- & _). done.
Qed.

(** [_getCoeffs] and [_getBasisFuncs] succeed wherever the decomposition
    does. *)
Lemma getCoeffs_ok σ self o A :
  (∀ eta, -1 < shear_e1 eta < 1) →
  wf σ → objs σ !! self = Some o → mats σ !! _A o = Some A →
  0 < det A → dlnr o ≠ 0 →
  ∃ cs σ1, _getCoeffs self σ = (Ok cs, σ1) ∧ wf σ1 ∧ mats σ1 = mats σ ∧
           ∃ o1, objs σ1 !! self = Some o1 ∧ same_parameters o o1.
Proof.
  intros He Hwf Ho HA Hdet Hdl.
  destruct (decompose_ok (kind o) (dlnr o) A He Hdet Hdl) as [[[[e p] sr] D] Hd].
  destruct (decomposeA_spec _ _ _ _ _ _ _ _ Hwf Ho HA Hd)
    as (σ' & Hrun & Hwf' & Hobjs & Hmats & _).
  assert (-1 < e < 1) as Hrange.
  { pose proof Hd as Hd'. unfold Affine.decompose in Hd'. cbv zeta in Hd'.
    step Hd' mu. step Hd' x. step Hd' eta. step Hd' s1. step Hd' s2. step Hd' r0.
    step Hd' lg. step Hd' y. destruct (nearest_step y) as [f i]. step Hd' Dl.
    injection Hd' as <- _ _ _. apply He. }
  destruct (collect_ok (coeff (kind o) (flux o) e p D) (jq_indices (jmax o)))
    as [cs Hcs]; [intros x _; by apply coeff_ok|].
  exists cs, σ'. split_and!; try done.
  - unfold Affine._getCoeffs. unfold bind at 1. fold _decomposeA. rewrite Hrun.
    unfold bind, get_obj, lift. rewrite Hobjs, lookup_insert_eq.
    cbn [kind flux jmax with_decomposition]. by rewrite Hcs.
  - eexists. rewrite Hobjs, lookup_insert_eq. split; [done|]. by repeat split.
Qed.

Lemma getBasisFuncs_ok σ self o A :
  (∀ eta, -1 < shear_e1 eta < 1) →
  wf σ → objs σ !! self = Some o → mats σ !! _A o = Some A →
  0 < det A → dlnr o ≠ 0 →
  ∃ bs σ1, _getBasisFuncs self σ = (Ok bs, σ1) ∧ wf σ1 ∧ mats σ1 = mats σ ∧
           ∃ o1, objs σ1 !! self = Some o1 ∧ same_parameters o o1.
Proof.
  intros He Hwf Ho HA Hdet Hdl.
  destruct (decompose_ok (kind o) (dlnr o) A He Hdet Hdl) as [[[[e p] sr] D] Hd].
  destruct (decomposeA_spec _ _ _ _ _ _ _ _ Hwf Ho HA Hd)
    as (σ' & Hrun & Hwf' & Hobjs & Hmats & _).
  eexists _, σ'. split_and!; try done.
  - unfold Affine._getBasisFuncs. unfold bind at 1. fold _decomposeA. rewrite Hrun.
    unfold bind, get_obj, ret. rewrite Hobjs, lookup_insert_eq. done.
  - eexists. rewrite Hobjs, lookup_insert_eq. split; [done|]. by repeat split.
Qed.

(** The two loops run over [(jmax+1)^2] index pairs. *)
Lemma length_jq_indices n :
  length (jq_indices n) = (Z.to_nat (n + 1) * Z.to_nat (n + 1))%nat.
Proof.
  unfold jq_indices. unfold xrange at 2. rewrite Z.sub_0_r.
  generalize (Z.to_nat (n + 1)) as N. intros N. induction N as [|N IH]; [done|].
  rewrite seq_S, map_app, flat_map_app, length_app, IH. cbn [map flat_map].
  rewrite app_nil_r, length_map, length_xrange. lia.
Qed.

Lemma wf_empty : wf empty_store.
Proof. split; intros a; cbn; [intros o|]; rewrite lookup_empty; [done|by intros []]. Qed.

(** The constructor called with a scale radius makes an object with the
    matrix [scale_radius * identity] and nothing cached. *)
Lemma series_init_spec σ k idx jmx dl sr flx gsp :
  wf σ →
  let self := next_id σ in
  let a := S (next_id σ) in
  let o := Obj k idx jmx (match dl with Some x => x | None => ln (13 / 10) end)
               flx gsp a None None sr None in
  let σ' := Store (<[self := o]> (objs σ))
                  (<[a := Matrix (1 * sr) (0 * sr) (0 * sr) (1 * sr)]> (mats σ)) (S a) in
  __init__ getScaleRadius k idx jmx dl None (Some sr) None flx gsp σ
    = (Ok self, σ') ∧ wf σ'.
Proof.
  intros [Hobjs Hmats] self a o σ'. split.
  - unfold Affine.__init__. destruct k; done.
  - unfold σ'. split.
    + intros b ob. cbn [objs mats next_id].
      destruct (decide (b = self)) as [->|Hne].
      * rewrite lookup_insert_eq. intros [= <-]. split; [unfold self, a; lia|].
        eexists. cbn [_A o mats]. rewrite lookup_insert_eq. split; [done|]. done.
      * rewrite lookup_insert_ne by done. intros Hb.
        destruct (Hobjs _ _ Hb) as [Hlt (Ab & HAb & Hc)]. split; [unfold a; lia|].
        exists Ab. cbn [mats]. split; [|done]. rewrite lookup_insert_ne; [done|].
        assert (_A ob < next_id σ)%nat by (apply Hmats; eauto). unfold a. lia.
    + intros b. cbn [mats next_id]. destruct (decide (b = a)) as [->|Hne].
      * lia.
      * rewrite lookup_insert_ne by done. intros Hb%Hmats. unfold a. lia.
Qed.

(** Without a size the constructor raises. *)
Lemma init_without_size k idx jmx dl flx gsp σ :
  ∃ σ', __init__ getScaleRadius k idx jmx dl None None None flx gsp σ
        = (Raise (TypeError "unsupported operand type(s) for *: 'float' and 'NoneType'"), σ').
Proof. unfold Affine.__init__. destruct k; eexists; done. Qed.

(** Whenever both methods return, the lists have one entry per index
    pair. *)
Lemma series_lengths_agree σ self cs σ1 bs σ2 :
  _getCoeffs self σ = (Ok cs, σ1) → _getBasisFuncs self σ1 = (Ok bs, σ2) →
  ∃ o, objs σ !! self = Some o ∧
       length cs = (Z.to_nat (jmax o + 1) * Z.to_nat (jmax o + 1))%nat ∧
       length bs = length cs.
Proof.
  intros (o & o1 & Ho & Ho1 & Hs & Hlc)%getCoeffs_length
         (o1' & o2 & Ho1' & Ho2 & Hs' & Hlb)%getBasisFuncs_length.
  assert (o1' = o1) as -> by congruence.
  exists o. split; [done|]. rewrite Hlc, Hlb, !length_jq_indices.
  destruct Hs as (_ & _ & -> & _). done.
Qed.

(** On a well-formed object whose matrix has a positive determinant both
    methods do return. *)
Lemma series_lengths_ok σ self o A :
  (∀ eta, -1 < shear_e1 eta < 1) →
  wf σ → objs σ !! self = Some o → mats σ !! _A o = Some A →
  0 < det A → dlnr o ≠ 0 →
  ∃ cs σ1 bs σ2,
    _getCoeffs self σ = (Ok cs, σ1) ∧ _getBasisFuncs self σ1 = (Ok bs, σ2).
Proof.
  intros He Hwf Ho HA Hdet Hdl.
  destruct (getCoeffs_ok σ self o A He Hwf Ho HA Hdet Hdl)
    as (cs & σ1 & Hc & Hwf1 & Hm1 & o1 & Ho1 & Hs).
  destruct Hs as (Hk & _ & _ & Hd & _ & _ & HAeq).
  destruct (getBasisFuncs_ok σ1 self o1 A He Hwf1 Ho1) as (bs & σ2 & Hb & _).
  - by rewrite Hm1, HAeq.
  - done.
  - by rewrite Hd.
  - by exists cs, σ1, bs, σ2.
Qed.

End Facts.

Lemma wf_toy_store : wf toy_atan2 toy_acosh toy_e1 toy_store.
Proof.
  destruct (series_init_spec toy_atan2 toy_acosh toy_e1 toy_getScaleRadius empty_store
              SpergelSeries (1 / 2) 2 (Some 1) 1 1 None
              (wf_empty _ _ _)) as [_ Hwf].
  exact Hwf.
Qed.

(** [s = SpergelSeries(nu=1/2, jmax=2, dlnr=1, scale_radius=1)], then
    [s._decomposeA()] and [s.dilate(2)._decomposeA()]. *)
Lemma decomposeA_snaps_to_grid_witness :
  let A := Matrix (1 * 1) (0 * 1) (0 * 1) (1 * 1) in
  let A' := mmul A (Matrix 2 0 0 2) in
  (∃ e p sr D mu r0 i σ',
     Affine._decomposeA toy_atan2 toy_acosh toy_e1 0%nat toy_store
       = (Ok (e, p, sr, D), σ') ∧
     wf toy_atan2 toy_acosh toy_e1 σ' ∧
     Affine.continuous_scale toy_acosh toy_e1 A = Ok (mu, e, r0) ∧ 0 < r0 ∧
     sr = exp (1 * IZR i) ∧
     Rabs (ln r0 / 1 - IZR i) <= 1 / 2 ∧
     Rabs (ln (r0 / sr)) <= 1 / 2) ∧
  (∃ r σ1 e p sr D mu r0 i σ2,
     Affine.dilate 0%nat 2 toy_store = (Ok r, σ1) ∧
     Affine._decomposeA toy_atan2 toy_acosh toy_e1 r σ1 = (Ok (e, p, sr, D), σ2) ∧
     Affine.decompose toy_atan2 toy_acosh toy_e1 SpergelSeries 1 A' = Ok (e, p, sr, D) ∧
     Affine.continuous_scale toy_acosh toy_e1 A' = Ok (mu, e, r0) ∧ 0 < r0 ∧
     sr = exp (1 * IZR i) ∧
     Rabs (ln r0 / 1 - IZR i) <= 1 / 2 ∧
     Rabs (ln (r0 / sr)) <= 1 / 2).
Proof.
  intros A A'.
  assert (∀ eta, -1 < toy_e1 eta < 1) as He by (intros eta; unfold toy_e1; lra).
  assert (0 < dlnr toy_obj) as Hdl by (cbn; lra).
  destruct (decomposeA_snaps_to_grid toy_atan2 toy_acosh toy_e1 toy_getMatrix
              toy_make_Shear toy_store 0%nat toy_obj A He wf_toy_store eq_refl eq_refl Hdl)
    as [H1 H2].
  split.
  - apply H1. unfold det, A. cbn. lra.
  - apply (H2 (Dilate 2)). unfold det, A. cbn. lra.
Defined.

(** [s.dilate(2)] on the same object. *)
Lemma transform_leaves_receiver_witness :
  let A := Matrix (1 * 1) (0 * 1) (0 * 1) (1 * 1) in
  ∃ r σ' o',
    Affine.dilate 0%nat 2 toy_store = (Ok r, σ') ∧
    r ≠ 0%nat ∧ objs toy_store !! r = None ∧
    objs σ' !! r = Some o' ∧ _A o' ≠ _A toy_obj ∧ mats toy_store !! _A o' = None ∧
    mats σ' !! _A o' = Some (mmul A (Matrix 2 0 0 2)) ∧
    objs σ' !! 0%nat = Some toy_obj ∧ mats σ' !! _A toy_obj = Some A ∧
    (∀ b ob, objs toy_store !! b = Some ob → objs σ' !! b = Some ob) ∧
    (∀ a Aa, mats toy_store !! a = Some Aa → mats σ' !! a = Some Aa) ∧
    fst (Affine._decomposeA toy_atan2 toy_acosh toy_e1 0%nat σ')
      = fst (Affine._decomposeA toy_atan2 toy_acosh toy_e1 0%nat toy_store).
Proof.
  intros A.
  exact (transform_leaves_receiver toy_atan2 toy_acosh toy_e1 toy_getMatrix toy_make_Shear
           toy_store 0%nat toy_obj A (Dilate 2) wf_toy_store eq_refl eq_refl).
Defined.

End AffineFacts.

(** ** LinearOpticalSeries *)

Module OpticalFacts.
Import Affine Optical.
#[local] Open Scope R_scope.

Lemma length_combinations2 {X Y} (l : list X) (l' : list Y) :
  length l = length l' → length (combinations2 l) = length (combinations2 l').
Proof.
  revert l'. induction l as [|x l IH]; intros [|y l']; try done.
  intros [= Hl]. cbn [combinations2]. rewrite !length_app, !length_map, Hl.
  f_equal. by apply IH.
Qed.

Lemma classify_lengths n m ab acc acc' :
  classify n m ab acc = Ok acc' →
  length (t_realcoeffs acc) = length (t_realindices acc) →
  length (t_imagcoeffs acc) = length (t_imagindices acc) →
  length (t_realcoeffs acc') = length (t_realindices acc') ∧
  length (t_imagcoeffs acc') = length (t_imagindices acc').
Proof.
  unfold classify. cbv zeta. intros Hacc Hr Hi.
  repeat (destruct (_ =? _)%Z in Hacc); try done;
    destruct (norm n m); cbn [and_then] in Hacc; try done;
    injection Hacc as <-; cbn; rewrite ?length_app; cbn; lia.
Qed.

(** The loop appends coefficients and indices in step. *)
Lemma separate_lengths abs : ∀ j acc t,
  separate j abs acc = Ok t →
  length (t_realcoeffs acc) = length (t_realindices acc) →
  length (t_imagcoeffs acc) = length (t_imagindices acc) →
  length (t_realcoeffs t) = length (t_realindices t) ∧
  length (t_imagcoeffs t) = length (t_imagindices t).
Proof.
  induction abs as [|ab rest IH]; intros j acc t; cbn [separate].
  - by intros [= <-].
  - destruct (j <? 2)%Z; [apply IH|].
    destruct (nollZernike !! j) as [[n m]|]; [|done].
    destruct (classify n m ab acc) as [acc'|] eqn:Hacc; cbn [and_then]; [|done].
    intros Hs Hr Hi.
    destruct (classify_lengths _ _ _ _ _ Hacc Hr Hi). by apply (IH _ _ _ Hs).
Qed.

(** An instance the constructor returns has as many coefficients as basis
    functions. *)
Lemma optical_lengths lod lam diam flx s ab self :
  __init__ lod lam diam flx s ab = Ok self →
  length (_getCoeffs self) = length (_getBasisFuncs self).
Proof.
  unfold __init__. intros H.
  destruct (match lod with Some _ => _ | None => _ end) as [[]|]; cbn [and_then] in H; [|done].
  destruct (match ab with Some _ => _ | None => _ end) as [a|]; cbn [and_then] in H; [|done].
  destruct (separate _ _ _) as [t|] eqn:Ht; cbn [and_then] in H; [|done].
  injection H as <-. unfold _getCoeffs, _getBasisFuncs. cbn [coeffs indices].
  apply separate_lengths in Ht as [Hr Hi]; [|done|done].
  rewrite !length_map, !length_app, !length_map.
  rewrite (length_combinations2 _ _ Hr), (length_combinations2 _ _ Hi). lia.
Qed.

Lemma Reqb_refl x : Reqb x x = true.
Proof. unfold Reqb. by destruct (Req_dec_T x x). Qed.

(** 101 rows are enough for [nollZernikeDict(100)]; the first entries
    follow the Noll convention. *)
Lemma nollZernike_computed :
  nollZernikeDict 101 100 = Some nollZernike ∧
  nollZernike !! 1%Z = Some (0, 0)%Z ∧ nollZernike !! 2%Z = Some (1, 1)%Z ∧
  nollZernike !! 3%Z = Some (1, -1)%Z ∧ nollZernike !! 4%Z = Some (2, 0)%Z ∧
  nollZernike !! 5%Z = Some (2, -2)%Z ∧ nollZernike !! 6%Z = Some (2, 2)%Z ∧
  nollZernike !! 0%Z = None.
Proof. split_and!; vm_compute; reflexivity. Qed.

Lemma init_plain_pupil :
  __init__ (Some 1) None None 1 no_singles None = Ok plain_pupil.
Proof.
  unfold __init__. cbn [and_then]. unfold no_singles, singles_list.
  cbn [tip tilt defocus astig1 astig2 coma1 coma2 trefoil1 trefoil2 spher app nonzero_from].
  rewrite !Reqb_refl. cbn [last take map separate Z.ltb Z.compare Z.add Pos.compare
    Pos.compare_cont and_then t_realcoeffs t_imagcoeffs t_realindices t_imagindices
    combinations2 app Pos.add].
  reflexivity.
Qed.

End OpticalFacts.

(** ** Coefficients and basis functions of every Series *)

Module SeriesFacts.
#[local] Open Scope R_scope.

(** C8.  Whenever [_getCoeffs] and [_getBasisFuncs] both return, their
    lists have the same length, for every kind of Series; but the
    coefficients of a [SeriesConvolution] are not always returned.  For a
    [SpergelSeries] or [MoffatSeries], in any state: the lengths agree
    whenever both calls return, and they do return on a well-formed object
    whose matrix has a positive determinant.  For a [LinearOpticalSeries]:
    the lengths agree for every instance the constructor returns.  For a
    [SeriesConvolution] whose Series operands keep the invariant
    themselves: the lengths agree whenever both calls return.  After the
    constructor on Series and profiles [_getBasisFuncs] returns, while
    [_getCoeffs] returns where numpy can reduce the operands' coefficient
    arrays and raises [ValueError] where it cannot.  The code at the
    failing input, the convolution of the plain profile [g1] with the
    two-term series: [_getBasisFuncs] returns two basis functions and
    [_getCoeffs] raises [ValueError], so there is no list of coefficients
    to go with them. *)
Theorem coefficients_match_basis_functions :
  (∀ atan2 acosh shear_e1 σ self cs σ1 bs σ2,
     Affine._getCoeffs atan2 acosh shear_e1 self σ = (Ok cs, σ1) →
     Affine._getBasisFuncs atan2 acosh shear_e1 self σ1 = (Ok bs, σ2) →
     length cs = length bs) ∧
  (∀ atan2 acosh shear_e1 σ self o A,
     (∀ eta, -1 < shear_e1 eta < 1) →
     Affine.wf atan2 acosh shear_e1 σ →
     Affine.objs σ !! self = Some o → Affine.mats σ !! Affine._A o = Some A →
     0 < Affine.det A → Affine.dlnr o ≠ 0 →
     ∃ cs σ1 bs σ2,
       Affine._getCoeffs atan2 acosh shear_e1 self σ = (Ok cs, σ1) ∧
       Affine._getBasisFuncs atan2 acosh shear_e1 self σ1 = (Ok bs, σ2)) ∧
  (∀ lod lam diam flx s ab self,
     Optical.__init__ lod lam diam flx s ab = Ok self →
     length (Optical._getCoeffs self) = length (Optical._getBasisFuncs self)) ∧
  (∀ st self cs bs,
     Forall Convolution.balanced (Convolution.objlist self) →
     Convolution._getCoeffs st self = Ok cs →
     Convolution._getBasisFuncs st self = Ok bs →
     length cs = length bs) ∧
  (∀ args objs coeffs gsp st,
     Convolution.unpack_args args = Ok objs →
     Convolution.collect Convolution.intended_coeffs (Convolution.flatten objs) = Ok coeffs →
     ∃ sc st' bs,
       Convolution.__init__ args gsp [] st = (Ok sc, st') ∧
       Convolution.objlist sc = Convolution.flatten objs ∧
       Convolution._getBasisFuncs st' sc = Ok bs ∧
       if Convolution.reduce_ok coeffs
       then ∃ cs, Convolution._getCoeffs st' sc = Ok cs
       else Convolution._getCoeffs st' sc
            = Raise (ValueError "could not broadcast input array")) ∧
  (∃ sc st,
     Convolution.__init__ [Convolution.Obj Convolution.g1;
                           Convolution.Obj Convolution.spergel] None []
       Convolution.empty_store = (Ok sc, st) ∧
     Convolution.objlist sc
       = [Convolution.Profile 1; Convolution.Prim 10 [100; 101]%nat [2%Q; 3%Q]] ∧
     Forall Convolution.balanced (Convolution.objlist sc) ∧
     Convolution._getBasisFuncs st sc
       = Ok [Convolution.Convolve
               [Convolution.spergel; Convolution.Operand (Convolution.Profile 100)];
             Convolution.Convolve
               [Convolution.spergel; Convolution.Operand (Convolution.Profile 101)]] ∧
     Convolution._getCoeffs st sc = Raise (ValueError "could not broadcast input array")).
Proof.
  split_and!.
  - intros atan2 acosh shear_e1 σ self cs σ1 bs σ2 Hc Hb.
    destruct (AffineFacts.series_lengths_agree _ _ _ _ _ _ _ _ _ Hc Hb) as (o & _ & _ & Hl).
    done.
  - intros atan2 acosh shear_e1 σ self o A. apply AffineFacts.series_lengths_ok.
  - apply OpticalFacts.optical_lengths.
  - apply ConvolutionFacts.convolution_lengths_agree.
  - intros args objs coeffs gsp st Hargs Hc.
    destruct (ConvolutionFacts.convolution_methods_after_init args objs coeffs gsp st Hargs Hc)
      as (sc & st' & bs & Hrun & Hobj & Hb & Hcs).
    exists sc, st', bs. split_and!; [exact Hrun|exact Hobj|exact Hb|].
    destruct (Convolution.reduce_ok coeffs); [by eexists|exact Hcs].
  - eexists _, _. split; [vm_compute; reflexivity|].
    split_and!; [reflexivity|repeat constructor|reflexivity|reflexivity].
Qed.

(** The kinds at work: the Spergel series of the examples, the unaberrated
    pupil, and the convolution of a two-term series with a plain profile,
    the series first. *)
Lemma coefficients_match_basis_functions_witness :
  (∃ cs σ1 bs σ2,
     Affine._getCoeffs Affine.toy_atan2 Affine.toy_acosh Affine.toy_e1 0%nat Affine.toy_store
       = (Ok cs, σ1) ∧
     Affine._getBasisFuncs Affine.toy_atan2 Affine.toy_acosh Affine.toy_e1 0%nat σ1
       = (Ok bs, σ2) ∧
     length cs = length bs) ∧
  length (Optical._getCoeffs Optical.plain_pupil)
    = length (Optical._getBasisFuncs Optical.plain_pupil) ∧
  (∃ sc st' cs bs,
     Convolution.__init__ [Convolution.Obj Convolution.spergel;
                           Convolution.Obj Convolution.g2] None []
       Convolution.empty_store = (Ok sc, st') ∧
     Convolution._getCoeffs st' sc = Ok cs ∧
     Convolution._getBasisFuncs st' sc = Ok bs ∧
     length cs = length bs).
Proof.
  destruct coefficients_match_basis_functions as (HA & HA' & HB & HC & HC' & _).
  split_and!.
  - destruct (HA' Affine.toy_atan2 Affine.toy_acosh Affine.toy_e1 Affine.toy_store 0%nat
                Affine.toy_obj (Affine.Matrix (1 * 1) (0 * 1) (0 * 1) (1 * 1)))
      as (cs & σ1 & bs & σ2 & Hc & Hb).
    + intros eta. unfold Affine.toy_e1. lra.
    + exact AffineFacts.wf_toy_store.
    + reflexivity.
    + reflexivity.
    + unfold Affine.det. cbn. lra.
    + cbn. lra.
    + exists cs, σ1, bs, σ2. split_and!; [exact Hc|exact Hb|exact (HA _ _ _ _ _ _ _ _ _ Hc Hb)].
  - exact (HB _ _ _ _ _ _ _ OpticalFacts.init_plain_pupil).
  - destruct (HC' [Convolution.Obj Convolution.spergel; Convolution.Obj Convolution.g2]
                [Convolution.spergel; Convolution.g2] [[2%Q; 3%Q]; [1%Q]] None
                Convolution.empty_store eq_refl eq_refl)
      as (sc & st' & bs & Hrun & Hobj & Hb & Hcs).
    cbn in Hcs. destruct Hcs as [cs Hc].
    exists sc, st', cs, bs. split_and!; [exact Hrun|exact Hc|exact Hb|].
    apply (HC st' sc cs bs); [|exact Hc|exact Hb].
    rewrite Hobj. repeat constructor.
Defined.

End SeriesFacts.

(** * Further properties of the code *)

(** ** The Series cache *)

Module CacheExtras.
Import SeriesCache.

Section Cache.
Context {Idx Arg Val : Type}.
Context `{Countable Idx, Countable Arg, Countable Val}.
Context {B : Type}.
Variable drawImage_basis : B → Arg → gmap string Val → result ndarray.

Abbreviation state := (@state Idx Arg Val _ _ _ _ _ _ B).
Abbreviation Series := (@Series Idx B).
Abbreviation ckey := (@ckey Idx Arg Val).
Abbreviation key := (@key Idx Arg Val).

(** X1.  [Series.__init__] with [maxcache >= 1] on a fresh interpreter
    returns with the real-space cache set up: a ring of [maxcache] links
    after the root, each holding a placeholder key and no table, the dict
    mapping exactly these keys to their links; nothing has been drawn. *)
Theorem init_builds_ring (n : nat) :
  1 ≤ n →
  ∃ (σ : state) r l ents,
    Series__init__ (Z.of_nat n) empty_state = (Ok tt, σ) ∧
    cache_inv σ r l ents ∧ length l = n ∧ drawn σ = [] ∧
    Forall (λ e, (∃ i, fst e = Placeholder i) ∧ snd e = None) ents.
Proof. apply SeriesCacheFacts.Series_init_ok. Qed.

(** X2.  After [Series.__init__] with [maxcache = n >= 1] and any sequence
    of look-ups whose basis images can be drawn, the keys in the ring, from
    least to most recently used, are the last [n] of: the unused
    placeholders followed by the distinct keys looked up, in order of
    their last look-up.  So the cache holds the [n] most recently used
    keys. *)
Theorem cache_holds_most_recent_keys (n : nat) (calls : list (Series * ckey)) :
  1 ≤ n → Forall (drawable drawImage_basis) calls →
  ∃ σ r l ents ph,
    fresh_run drawImage_basis (Z.of_nat n) calls = (Ok tt, σ) ∧
    cache_inv σ r l ents ∧ length ph = n ∧
    (∀ k : ckey, Tuple k ∉ ph) ∧
    ents.*1 = LRU.lastn n (ph ++ LRU.recency (Tuple <$> calls.*2)).
Proof. apply SeriesCacheFacts.cache_is_lru. Qed.

Lemma fill_cube_raise_log objs args kwargs width e : ∀ σ : state,
  build_rows drawImage_basis objs args kwargs width = Raise e →
  ∃ cs, map_M (λ obj, bind (draw drawImage_basis obj args kwargs)
                        (λ im, lift (assign_row width (ravel im)))) objs σ
        = (Raise e, log_draws cs σ).
Proof.
  induction objs as [|o objs IH]; intros σ Hb; simpl in *; [done|].
  unfold bind at 1. unfold bind at 1. rewrite SeriesCacheFacts.draw_eval.
  destruct (drawImage_basis o args kwargs) as [im|e1]; [|injection Hb as <-; eauto].
  unfold lift at 1.
  destruct (assign_row width (ravel im)) as [row|e2]; [|injection Hb as <-; eauto].
  destruct (build_rows drawImage_basis objs args kwargs width) as [rows|e3] eqn:Hr; [done|].
  injection Hb as <-. unfold bind at 1.
  destruct (IH (log_draws [(o, args, kwargs)] σ) eq_refl) as [cs ->].
  rewrite SeriesCacheFacts.log_draws_app. eauto.
Qed.

(** X3.  A miss whose basis images cannot all be drawn into one cube raises
    the exception of the first failure and leaves both caches as they
    were: dicts, roots and every link are unchanged, only draw calls were
    made. *)
Theorem failed_miss_leaves_cache (self : Series) (k : ckey) (σ : state) e :
  _cache σ !! Tuple k = None →
  build_table drawImage_basis self k = Raise e →
  ∃ cs, _basisCube drawImage_basis self k σ = (Raise e, log_draws cs σ).
Proof.
  intros Hc Hb. unfold _basisCube. unfold build_table in Hb.
  destruct k as [[idx args] items].
  unfold bind at 1. unfold gets at 1. unfold bind at 1. unfold gets at 1.
  rewrite Hc. unfold bind at 1. unfold lift at 1.
  assert (σ = log_draws [] σ) as Hnil.
  { unfold log_draws. destruct σ; simpl. by rewrite app_nil_r. }
  destruct (_getBasisFuncs self) as [[|obj0 objs]|e0].
  - injection Hb as <-. unfold bind at 1. unfold raise at 1. exists []. by rewrite <- Hnil.
  - unfold bind at 1. rewrite SeriesCacheFacts.draw_eval.
    destruct (drawImage_basis obj0 args (list_to_map items)) as [im0|e1];
      [|injection Hb as <-; eauto].
    destruct (build_rows drawImage_basis (obj0 :: objs) args (list_to_map items)
                ((shape im0).1 * (shape im0).2)) as [cube|e2] eqn:Hrows; [done|].
    injection Hb as <-. unfold bind at 1.
    destruct (fill_cube_raise_log _ _ _ _ _ (log_draws [(obj0, args, list_to_map items)] σ) Hrows)
      as [cs Hf].
    rewrite Hf. rewrite SeriesCacheFacts.log_draws_app. eauto.
  - injection Hb as <-. exists []. by rewrite <- Hnil.
Qed.

(** X4.  The keyword part of the cache key determines the keyword dict:
    rebuilding a dict from [tuple(sorted(kwargs.items()))] gives [kwargs]
    back, so two calls have the same key part only for equal keyword
    dicts. *)
Theorem kwargs_key_roundtrip :
  (∀ kwargs : gmap string Val, list_to_map (sorted_items kwargs) = kwargs) ∧
  (∀ kw1 kw2 : gmap string Val, sorted_items kw1 = sorted_items kw2 ↔ kw1 = kw2).
Proof.
  split; [apply SeriesCacheFacts.dict_sorted_items|].
  intros kw1 kw2. split; [apply SeriesCacheFacts.sorted_items_inj|by intros ->].
Qed.

(** X5.  While the real-space ring is intact, a real-space hit returns the
    cached table without drawing and writes only into links of the
    real-space ring: every other link, the Fourier-space dict and the
    Fourier-space root are unchanged. *)
Theorem real_hit_stays_in_real_ring (self : Series) (k : ckey) (σ : state) r l ents a :
  cache_inv σ r l ents → _cache σ !! Tuple k = Some a →
  ∃ σ',
    _basisCube drawImage_basis self k σ = (Ok (resultof σ a), σ') ∧
    drawn σ' = drawn σ ∧ _cache σ' = _cache σ ∧
    (∀ b, b ∉ r :: l → heap σ' !! b = heap σ !! b) ∧
    _kcache σ' = _kcache σ ∧ _kroot σ' = _kroot σ.
Proof.
  intros Hinv Hc.
  destruct (SeriesCacheFacts.basisCube_hit drawImage_basis self k _ _ _ _ _ Hinv Hc)
    as (l1 & l2 & e1 & e & e2 & σ' & _ & _ & _ & _ & Hrun & _ & Hdr & Hc' & _ & Hfr & Hkc & Hkr
        & _ & Hres).
  exists σ'. rewrite <- Hres. done.
Qed.

End Cache.

(** [Series.__init__(maxcache=2)]. *)
Lemma init_builds_ring_witness :
  ∃ (σ : @state nat nat nat _ _ _ _ _ _ nat) r l ents,
    Series__init__ (Z.of_nat 2) empty_state = (Ok tt, σ) ∧
    cache_inv σ r l ents ∧ length l = 2 ∧ drawn σ = [] ∧
    Forall (λ e, (∃ i, fst e = Placeholder i) ∧ snd e = None) ents.
Proof. apply (init_builds_ring 2). lia. Defined.

(** Capacity 2 and the look-ups 0, 1, 0, 2. *)
Lemma cache_holds_most_recent_keys_witness :
  ∃ σ r l ents ph,
    fresh_run unit_draw (Z.of_nat 2) (toy_call <$> [0; 1; 0; 2]) = (Ok tt, σ) ∧
    cache_inv σ r l ents ∧ length ph = 2 ∧
    (∀ k, Tuple k ∉ ph) ∧
    ents.*1 = LRU.lastn 2 (ph ++ LRU.recency (Tuple <$> (toy_call <$> [0; 1; 0; 2]).*2)).
Proof.
  apply (cache_holds_most_recent_keys unit_draw 2 (toy_call <$> [0; 1; 0; 2])).
  - lia.
  - repeat constructor.
Defined.

(** A series without basis functions, looked up in an empty cache:
    [objs[0]] raises [IndexError]. *)
Lemma failed_miss_leaves_cache_witness :
  ∃ cs, _basisCube unit_draw (MkSeries (Ok 0) (Ok []) (Ok [])) (toy_key 0) empty_state
        = (Raise IndexError, log_draws cs empty_state).
Proof.
  apply (failed_miss_leaves_cache unit_draw (MkSeries (Ok 0) (Ok []) (Ok [])) (toy_key 0)
           empty_state IndexError); reflexivity.
Defined.

(** Capacity 2, one look-up of key 0, then the same look-up again. *)
Lemma real_hit_stays_in_real_ring_witness :
  ∃ σ r l ents a σ',
    fresh_run unit_draw (Z.of_nat 2) [toy_call 0] = (Ok tt, σ) ∧
    cache_inv σ r l ents ∧ _cache σ !! Tuple (toy_key 0) = Some a ∧
    _basisCube unit_draw (toy_series 0) (toy_key 0) σ = (Ok (resultof σ a), σ') ∧
    drawn σ' = drawn σ ∧ _cache σ' = _cache σ ∧
    (∀ b, b ∉ r :: l → heap σ' !! b = heap σ !! b) ∧
    _kcache σ' = _kcache σ ∧ _kroot σ' = _kroot σ.
Proof.
  destruct (SeriesCacheFacts.cache_is_lru unit_draw 2 [toy_call 0])
    as (σ & r & l & ents & ph & Hrun & Hinv & _); [lia|repeat constructor|].
  assert (_cache σ !! Tuple (toy_key 0) = Some 0) as Hc.
  { replace σ with (snd (fresh_run unit_draw (Z.of_nat 2) [toy_call 0])) by (by rewrite Hrun).
    vm_compute. reflexivity. }
  destruct (real_hit_stays_in_real_ring unit_draw (toy_series 0) (toy_key 0) σ r l ents 0 Hinv Hc)
    as (σ' & H').
  exists σ, r, l, ents, 0, σ'. split_and!; [exact Hrun|exact Hinv|exact Hc|apply H'..].
Defined.

End CacheExtras.

(** ** drawImage *)

Module DrawExtras.
Import Draw.
#[local] Open Scope Q_scope.

Section Renderer.
Context {Px : Type}.
Variable zeros : BoundsI → Px.
Variable nyquistScale : Profile → Q.
Variable getGoodImageSize : Profile → Q → Q → Z.
Variable trueCenter : BoundsI → PositionD.
Variable center : BoundsI → PositionD.
Variable local_at : nat → PositionD → LocalWCS.
Variable SBdraw : Profile → BoundsI → Px → Q → Px * Q.
Variable SBdrawShoot :
  Profile → BoundsI → Px → Q → option nat → Q → bool → bool → result (Px * Q).

Abbreviation world := (@world Px).
Abbreviation Image := (@Image Px).
Abbreviation DrawArgs := (@DrawArgs Px).
Abbreviation prepare :=
  (prepare zeros nyquistScale getGoodImageSize trueCenter center local_at).
Abbreviation drawImage :=
  (drawImage zeros nyquistScale getGoodImageSize trueCenter center local_at
     SBdraw SBdrawShoot).
Abbreviation prepare_inv :=
  (DrawFacts.prepare_inv zeros nyquistScale getGoodImageSize trueCenter center local_at).

Implicit Types (w : world) (a : DrawArgs) (e : exn).

Lemma drawImage_setup_inv self a w im w' :
  drawImage self a w = (Ok im, w') → a_setup_only a = true →
  ∃ prof lw wmult pf w1 i,
    prepare self a w = (Ok (prof, lw, wmult, pf), w1) ∧ image w1 = Some i ∧
    im = set_added_flux 0 i ∧ w' = World (Some im) (drawn w1).
Proof.
  intros Hrun Hso. unfold Draw.drawImage in Hrun. unfold bind at 1 in Hrun.
  destruct (prepare self a w) as [[[[[prof lw] wmult] pf]|e] w1] eqn:Hprep; [|done].
  rewrite Hso in Hrun. exists prof, lw, wmult, pf, w1.
  revert Hrun. unfold bind, with_image, modify, ret, gets, raise. cbn [image drawn].
  destruct (image w1) as [i|]; cbn; [|done]. intros [= <- <-]. by exists i.
Qed.

(** Every returned image went through [prepare]. *)
Lemma drawImage_prepared self a w im w' :
  drawImage self a w = (Ok im, w') →
  ∃ prof lw wmult pf w1 i,
    prepare self a w = (Ok (prof, lw, wmult, pf), w1) ∧ image w1 = Some i ∧
    wcs im = wcs i ∧ bounds im = bounds i.
Proof.
  intros Hrun. destruct (a_setup_only a) eqn:Hso.
  - destruct (drawImage_setup_inv _ _ _ _ _ Hrun Hso)
      as (prof & lw & wmult & pf & w1 & i & Hp & Hi & -> & _).
    by exists prof, lw, wmult, pf, w1, i.
  - destruct (DrawFacts.drawImage_success_inv _ _ _ _ _ _ _ _ _ _ _ _ _ Hrun Hso)
      as (prof & lw & wmult & pf & w1 & i & fs & px & n & Hp & Hi & _ & _ & -> & _).
    by exists prof, lw, wmult, pf, w1, i.
Qed.

Lemma check_phot_ok a pf : check_phot a = Ok pf → ¬ bad_photon_args a.
Proof.
  unfold check_phot. intros Hphot [[Hmeth Hb]|[Hmeth Hb]].
  - rewrite Hmeth in Hphot. cbn [String.eqb Ascii.eqb Bool.eqb] in Hphot.
    destruct (Qle_bool 0 (a_n_photons a)) eqn:Hn; cbn [negb] in Hphot; [|done].
    apply Qle_bool_iff in Hn. destruct Hb as [Hb|Hb].
    + by apply Qle_not_lt in Hn.
    + by rewrite Hb in Hphot.
  - destruct (String.eqb (a_method a) "phot") eqn:Heq.
    { by apply String.eqb_eq in Heq. }
    unfold Qeqb0 in Hphot.
    destruct (Qeq_bool (a_n_photons a) 0) eqn:Hn; cbn [negb] in Hphot; [|done].
    destruct (a_rng a) eqn:Hr; cbn [negb] in Hphot; try done.
    destruct (Qeq_bool (a_max_extra_noise a) 0) eqn:Hx; cbn [negb] in Hphot; [|done].
    destruct (a_poisson_flux a) eqn:Hpf; [done|].
    apply Qeq_bool_iff in Hn, Hx. destruct Hb as [Hb|[Hb|[Hb|Hb]]]; done.
Qed.

(** X6.  With [setup_only=True] a call that returns has handed nothing to
    the back end; the image it returns is the image left in place, with
    [added_flux] set to 0. *)
Theorem setup_only_draws_nothing self a im :
  fst (drawImage self a (start a)) = Ok im → a_setup_only a = true →
  drawn (snd (drawImage self a (start a))) = [] ∧
  image (snd (drawImage self a (start a))) = Some im ∧
  added_flux im = Some 0.
Proof.
  intros Hrun Hso.
  destruct (drawImage self a (start a)) as [r w'] eqn:Hd. simpl in Hrun. subst r.
  destruct (drawImage_setup_inv _ _ _ _ _ Hd Hso)
    as (prof & lw & wmult & pf & w1 & i & Hp & Hi & -> & ->).
  pose proof (prepare_inv _ _ _ _ _ Hp) as (Hdr & _).
  cbn [snd drawn image]. by rewrite Hdr.
Qed.

(** X7.  An image is returned only for arguments that pass every check:
    the image argument is an image or absent, gain, area and exptime are
    positive, the method is a valid name, the offset is a position, and the
    photon-shooting parameters fit the method. *)
Theorem returned_image_had_valid_arguments self a im :
  fst (drawImage self a (start a)) = Ok im →
  a_image a ≠ NotAnImage ∧
  0 < a_gain a ∧ 0 < a_area a ∧ 0 < a_exptime a ∧
  a_method a ∈ valid_methods ∧ a_offset a ≠ BadOffset ∧
  ¬ misconfigured a ∧ ¬ bad_photon_args a.
Proof.
  intros Hrun.
  destruct (drawImage self a (start a)) as [r w'] eqn:Hd. simpl in Hrun. subst r.
  destruct (drawImage_prepared _ _ _ _ _ Hd) as (prof & lw & wmult & pf & w1 & i & Hp & _).
  pose proof (prepare_inv _ _ _ _ _ Hp)
    as (_ & _ & Himg & Hg & Ha & He & Hm & Hphot & Hsc & Hboth & Hgiven & _ & offset & _
        & Hoff & _).
  assert (0 < a_gain a) as Hg' by (apply Qnot_le_lt; intros ?%Qle_bool_iff; congruence).
  assert (0 < a_area a) as Ha' by (apply Qnot_le_lt; intros ?%Qle_bool_iff; congruence).
  assert (0 < a_exptime a) as He' by (apply Qnot_le_lt; intros ?%Qle_bool_iff; congruence).
  split_and!; try done.
  - intros Hbad. by rewrite Hbad in Hoff.
  - intros [?|[Hb|[Hb|[Hb|[Hb|[Hb|Hb]]]]]].
    + done.
    + by apply Qle_not_lt in Hb.
    + by apply Qle_not_lt in Hb.
    + by apply Qle_not_lt in Hb.
    + apply Hsc. tauto.
    + destruct Hb as [Hi Hn]. destruct (Hgiven Hi) as (? & ? & ?). tauto.
    + by apply Hboth.
  - by eapply check_phot_ok.
Qed.

(** X8.  Photon-shooting parameters that do not fit the method make
    [drawImage] raise before anything is drawn, leaving the pixels of a
    given image as they were. *)
Theorem bad_photon_arguments_raise self a :
  bad_photon_args a →
  ∃ e w',
    drawImage self a (start a) = (Raise e, w') ∧
    is_ConfigurationError e = true ∧
    drawn w' = [] ∧
    pixels <$> image w' = pixels <$> image (start a).
Proof.
  intros Hbad.
  destruct (prepare self a (start a)) as [[[[[prof lw] wmult] pf]|e] w1] eqn:Hp;
    pose proof (prepare_inv _ _ _ _ _ Hp) as Hinv.
  - exfalso. destruct Hinv as (_ & _ & _ & _ & _ & _ & _ & Hphot & _).
    by apply (check_phot_ok _ _ Hphot).
  - destruct Hinv as ((Hdr & Hpx & _) & Hc & _).
    exists e, w1. split_and!; try done.
    by apply DrawFacts.drawImage_raise.
Qed.

(** X9.  The image a call returns carries the coordinate system the call
    resolved.  With a positive [scale] (and no [wcs]) that is the pixel
    scale given; with a [scale] that is not positive it is the Nyquist
    scale of the profile. *)
Theorem returned_image_scale self a im s :
  fst (drawImage self a (start a)) = Ok im → effective_scale a = Some s →
  wcs im = Some (PixelScale (if Qle_bool s 0 then nyquistScale self else s)).
Proof.
  intros Hrun Hs.
  destruct (drawImage self a (start a)) as [r w'] eqn:Hd. simpl in Hrun. subst r.
  destruct (drawImage_prepared _ _ _ _ _ Hd)
    as (prof & lw & wmult & pf & w1 & i & Hp & Hi & -> & _).
  pose proof (prepare_inv _ _ _ _ _ Hp)
    as (_ & _ & _ & _ & _ & _ & _ & _ & _ & Hboth & _ & _ & offset & wc & _ & _ & Hdet & Hw).
  rewrite Hi in Hw. injection Hw as ->. f_equal.
  rewrite Hs in Hdet, Hboth.
  destruct (a_wcs a) as [x|]; [exfalso; apply Hboth; eauto|].
  revert Hdet. unfold _determine_wcs, bind, gets, with_image, modify, ret. cbn.
  destruct (Qle_bool s 0); cbn; by intros [= <-].
Qed.

End Renderer.

(** [drawImage(image4, method='no_pixel', setup_only=True)]. *)
Lemma setup_only_draws_nothing_witness :
  drawn (snd (toy_drawImage (Base 0) setup_only_args)) = [] ∧
  image (snd (toy_drawImage (Base 0) setup_only_args))
    = Some (MkImage (Bounds 1 4 1 4) (Some (PixelScale 1)) tt (Some 0)) ∧
  added_flux (MkImage (Bounds 1 4 1 4) (Some (PixelScale 1)) tt (Some 0)) = Some 0.
Proof.
  apply (setup_only_draws_nothing toy_zeros toy_nyquist toy_size toy_center toy_center
           toy_local toy_draw toy_shoot (Base 0) setup_only_args
           (MkImage (Bounds 1 4 1 4) (Some (PixelScale 1)) tt (Some 0))).
  - vm_compute. reflexivity.
  - reflexivity.
Defined.

(** [drawImage(image4, method='no_pixel')]. *)
Lemma returned_image_had_valid_arguments_witness :
  a_image true_center_args ≠ NotAnImage ∧
  0 < a_gain true_center_args ∧ 0 < a_area true_center_args ∧
  0 < a_exptime true_center_args ∧
  a_method true_center_args ∈ valid_methods ∧ a_offset true_center_args ≠ BadOffset ∧
  ¬ misconfigured true_center_args ∧ ¬ bad_photon_args true_center_args.
Proof.
  apply (returned_image_had_valid_arguments toy_zeros toy_nyquist toy_size toy_center
           toy_center toy_local toy_draw toy_shoot (Base 0) true_center_args
           (MkImage (Bounds 1 4 1 4) (Some (PixelScale 1)) tt (Some 1))).
  vm_compute. reflexivity.
Defined.

(** [drawImage(method='fft', n_photons=10)]. *)
Lemma bad_photon_arguments_raise_witness :
  bad_photon_args photon_args ∧
  ∃ e w',
    toy_drawImage (Base 0) photon_args = (Raise e, w') ∧
    is_ConfigurationError e = true ∧
    drawn w' = [] ∧
    pixels <$> image w' = pixels <$> image (start photon_args).
Proof.
  assert (bad_photon_args photon_args) as Hbad.
  { right. split; [discriminate|]. left. vm_compute. discriminate. }
  split; [exact Hbad|].
  exact (bad_photon_arguments_raise toy_zeros toy_nyquist toy_size toy_center toy_center
           toy_local toy_draw toy_shoot (Base 0) photon_args Hbad).
Defined.

(** [drawImage(scale=2, method='no_pixel')]. *)
Lemma returned_image_scale_witness :
  wcs (MkImage (Bounds 1 16 1 16) (Some (PixelScale 2)) tt (Some 1))
  = Some (PixelScale (if Qle_bool 2 0 then toy_nyquist (Base 0) else 2)).
Proof.
  apply (returned_image_scale toy_zeros toy_nyquist toy_size toy_center toy_center
           toy_local toy_draw toy_shoot (Base 0) scaled_args _ 2).
  - vm_compute. reflexivity.
  - reflexivity.
Defined.

End DrawExtras.

(** ** SeriesConvolution *)

Module ConvolutionExtras.
Import Convolution.

(** X10.  Nested convolutions flatten: the constructor applied to a
    convolution of [a] and [b] and to [c] builds the operand list of the
    constructor applied to [a], [b] and [c], and the two objects answer the
    same basis functions and coefficients. *)
Theorem nested_convolution_flattens (a b c : pyobj) st :
  ∃ ab nested flat st1 st2 st3,
    __init__ [Obj a; Obj b] None [] st = (Ok ab, st1) ∧
    __init__ [Obj (SC (objlist ab)); Obj c] None [] st1 = (Ok nested, st2) ∧
    __init__ [Obj a; Obj b; Obj c] None [] st = (Ok flat, st3) ∧
    objlist nested = objlist flat ∧
    _getBasisFuncs st2 nested = _getBasisFuncs st3 flat ∧
    _getCoeffs st2 nested = _getCoeffs st3 flat.
Proof. apply ConvolutionFacts.flattening. Qed.

(** X11.  After the constructor, [_getCoeffs] either returns one
    coefficient for every tuple of the Cartesian product of the operands'
    coefficient lists, the last operand varying fastest, each the product
    of its tuple, where a plain profile counts as the list [[1.0]]; or it
    raises [ValueError].  It returns for a single operand, for a first
    operand with other than one coefficient, and for operands of one
    coefficient each; it raises for a first operand with one coefficient
    followed by an operand with another number of them. *)
Theorem convolution_coefficients (args : list posarg) (objs : list pyobj)
    (coeffs : list (list Q)) gsp st :
  unpack_args args = Ok objs →
  collect intended_coeffs (flatten objs) = Ok coeffs →
  ∃ sc st', __init__ args gsp [] st = (Ok sc, st') ∧
    objlist sc = flatten objs ∧
    _getCoeffs st' sc =
      if reduce_ok coeffs then Ok (map tuple_product (product coeffs))
      else Raise (ValueError "could not broadcast input array").
Proof.
  intros Hargs Hc.
  destruct (ConvolutionFacts.init_spec args objs gsp st Hargs) as (st' & Hrun & Hcs & _).
  eexists _, st'. split; [exact Hrun|]. split; [done|].
  unfold _getCoeffs. cbn [objlist].
  rewrite (ConvolutionFacts.collect_ext _ intended_coeffs) by eauto.
  by rewrite Hc, ConvolutionFacts.multiply_reduce_ix_spec.
Qed.

(** X12.  The constructor refuses, before it patches any profile: no
    argument at all ([ValueError]), a single argument that is neither a
    Series, a profile nor a list ([TypeError]), and any keyword other than
    [gsparams] ([TypeError]). *)
Theorem constructor_refuses :
  (∀ gsp extra st,
     __init__ [] gsp extra st
     = (Raise (ValueError "Must provide at least one Series or GSObject"), st)) ∧
  (∀ gsp extra st,
     __init__ [Obj (Operand Junk)] gsp extra st
     = (Raise (TypeError
          "Single input argument must be a Series or GSObject or a list of them."), st)) ∧
  (∀ args gsp kw extra st,
     is_ok (unpack_args args) = true →
     __init__ args gsp (kw :: extra) st
     = (Raise (TypeError "Got unexpected keyword argument(s)"), st)).
Proof.
  split_and!; try done.
  intros args gsp kw extra st Hok. unfold __init__, bind, lift.
  by destruct (unpack_args args).
Qed.

(** The convolution of the two-term series with the profile [g2], which
    returns, and of the profile [g1] with the two-term series, which
    raises. *)
Lemma convolution_coefficients_witness :
  (∃ sc st', __init__ [Obj spergel; Obj g2] None [] empty_store = (Ok sc, st') ∧
     objlist sc = flatten [spergel; g2] ∧
     _getCoeffs st' sc = Ok (map tuple_product (product [[2%Q; 3%Q]; [1%Q]]))) ∧
  (∃ sc st', __init__ [Obj g1; Obj spergel] None [] empty_store = (Ok sc, st') ∧
     objlist sc = flatten [g1; spergel] ∧
     _getCoeffs st' sc = Raise (ValueError "could not broadcast input array")).
Proof.
  split.
  - exact (convolution_coefficients [Obj spergel; Obj g2] [spergel; g2]
             [[2%Q; 3%Q]; [1%Q]] None empty_store eq_refl eq_refl).
  - exact (convolution_coefficients [Obj g1; Obj spergel] [g1; spergel]
             [[1%Q]; [2%Q; 3%Q]] None empty_store eq_refl eq_refl).
Defined.

(** [SeriesConvolution(s, g2, flux=...)]: the keyword is refused. *)
Lemma constructor_refuses_witness :
  __init__ [Obj spergel; Obj g2] None ["flux"] empty_store
  = (Raise (TypeError "Got unexpected keyword argument(s)"), empty_store).
Proof.
  apply (proj2 (proj2 constructor_refuses) [Obj spergel; Obj g2] None "flux" [] empty_store).
  reflexivity.
Defined.

End ConvolutionExtras.

(** ** SpergelSeries and MoffatSeries *)

Module AffineExtras.
Import Affine.
#[local] Open Scope R_scope.

Section Library.
Variable atan2 : R → R → R.
Variable acosh : R → R.
Variable shear_e1 : R → R.
Variable getScaleRadius : cls → R → bool → R → result R.
Context {Shear : Type}.
Variable getMatrix : Shear → matrix.
Variable make_Shear : gmap string (pyarg Shear) → result Shear.

Abbreviation decompose := (decompose atan2 acosh shear_e1).
Abbreviation _decomposeA := (_decomposeA atan2 acosh shear_e1).
Abbreviation _getCoeffs := (_getCoeffs atan2 acosh shear_e1).
Abbreviation _getBasisFuncs := (_getBasisFuncs atan2 acosh shear_e1).
Abbreviation _series_idx := (_series_idx atan2 acosh shear_e1).
Abbreviation wf := (wf atan2 acosh shear_e1).
Abbreviation apply_transform := (apply_transform getMatrix make_Shear).
Abbreviation transform_matrix := (transform_matrix getMatrix).
Abbreviation keeps_orientation := (keeps_orientation getMatrix).

Ltac exec :=
  cbv beta iota zeta delta
    [Affine._decomposeA bind get_obj get_mat set_obj set_mat lift ret raise modify];
  cbn [objs mats next_id].
Ltac step := cbv beta iota; cbn [objs mats next_id].

Lemma det_mmul A J : det (mmul A J) = det A * det J.
Proof. unfold det, mmul. cbn. ring. Qed.

(** X13.  A dilation by a non-zero scale, a rotation and a shear with a
    matrix of positive determinant keep the determinant positive, so
    [_decomposeA] succeeds on the transformed object whenever it can on the
    receiver. *)
Theorem transforms_keep_decomposable σ self o A (t : transform) :
  (∀ eta, -1 < shear_e1 eta < 1) →
  wf σ → objs σ !! self = Some o → mats σ !! _A o = Some A →
  0 < det A → dlnr o ≠ 0 → keeps_orientation t →
  0 < det (mmul A (transform_matrix t)) ∧
  ∃ r σ1 d σ2,
    apply_transform t self σ = (Ok r, σ1) ∧
    _decomposeA r σ1 = (Ok d, σ2) ∧
    decompose (kind o) (dlnr o) (mmul A (transform_matrix t)) = Ok d.
Proof.
  intros He Hwf Ho HA Hdet Hdl Ht.
  assert (0 < det (mmul A (transform_matrix t))) as Hdet'.
  { rewrite det_mmul. apply Rmult_lt_0_compat; [done|].
    destruct t as [scale|s|rad]; cbn [Affine.transform_matrix Affine.keeps_orientation] in *.
    - unfold det. cbn. nra.
    - done.
    - unfold det. cbn. pose proof (sin2_cos2 rad) as Hsc. unfold Rsqr in Hsc. nra. }
  split; [done|].
  destruct (AffineFacts.applyMatrix_spec atan2 acosh shear_e1 σ self o A
              (transform_matrix t) Hwf Ho HA) as [Hrun Hwf1].
  cbv zeta in Hrun, Hwf1.
  set (r := next_id σ) in *. set (a := S r) in *. set (σ1 := Store _ _ _) in *.
  set (o1 := del_ellip (with_A a o)).
  assert (objs σ1 !! r = Some o1) as Ho1 by (unfold σ1; cbn [objs]; by rewrite lookup_insert_eq).
  assert (mats σ1 !! _A o1 = Some (mmul A (transform_matrix t))) as HA1
    by (unfold σ1; cbn [mats _A o1 del_ellip with_A]; by rewrite lookup_insert_eq).
  destruct (AffineFacts.decompose_ok atan2 acosh shear_e1 (kind o) (dlnr o) _ He Hdet' Hdl)
    as [[[[e p] sr] D] Hd].
  destruct (AffineFacts.decomposeA_spec atan2 acosh shear_e1 σ1 r o1 _ e p sr D Hwf1 Ho1 HA1 Hd)
    as (σ2 & Hrun2 & _).
  exists r, σ1, (e, p, sr, D), σ2. split_and!; try done.
  by rewrite AffineFacts.apply_transform_eq.
Qed.

Lemma decomposeA_again σ self d σ1 :
  _decomposeA self σ = (Ok d, σ1) → _decomposeA self σ1 = (Ok d, σ1).
Proof.
  exec. destruct (objs σ !! self) as [o|] eqn:Ho; step; [|done].
  destruct (ellip o) as [e|] eqn:He.
  - step. rewrite Ho, He.
    destruct (phi0 o) as [p|] eqn:Hp; [|done]. destruct (Delta o) as [D|] eqn:HD; [|done].
    intros [= <- <-]. rewrite Ho, He. step. by rewrite Ho, He, Hp, HD.
  - destruct (mats σ !! _A o) as [A|]; step; [|done].
    destruct (Affine.decompose _ _ _ _ _ A) as [[[[e p] s] D]|x]; step; [|done].
    rewrite lookup_insert_eq. cbn [ellip phi0 Delta scale_radius with_decomposition].
    intros [= <- <-]. cbn [objs]. rewrite lookup_insert_eq.
    cbn [ellip phi0 Delta scale_radius with_decomposition]. step.
    rewrite lookup_insert_eq. done.
Qed.

(** X14.  The decomposition is computed once: after a [_decomposeA] that
    returned, the next [_decomposeA] returns the same four values and
    changes nothing. *)
Theorem decomposeA_is_cached σ self d σ1 :
  _decomposeA self σ = (Ok d, σ1) → _decomposeA self σ1 = (Ok d, σ1).
Proof. apply decomposeA_again. Qed.

(** X15.  For an ellipticity strictly between -1 and 1 no coefficient
    computation raises: every factorial is taken of a non-negative number,
    no denominator is zero, and the square root is taken of a positive
    number. *)
Theorem coefficients_never_raise k flx e p D (jq : Z * Z) :
  -1 < e < 1 → ∃ c, coeff k flx e p D jq = Ok c.
Proof. apply AffineFacts.coeff_ok. Qed.

(** X16.  The basis functions are determined by what [_series_idx]
    reports, together with [gsparams]: one basis profile for every index
    pair [(j, q)] of [jmax], each with the class, the index [nu] or [beta]
    and the snapped scale radius of the key; there are [(jmax+1)^2] of
    them. *)
Theorem basis_matches_series_idx σ self bs σ1 k idx jmx sr σ2 :
  _getBasisFuncs self σ = (Ok bs, σ1) →
  _series_idx self σ1 = (Ok (k, idx, jmx, sr), σ2) →
  ∃ gsp, bs = map (λ jq, Basislet k idx sr (fst jq) (snd jq) gsp) (jq_indices jmx) ∧
         length bs = (Z.to_nat (jmx + 1) * Z.to_nat (jmx + 1))%nat.
Proof.
  unfold Affine._getBasisFuncs, Affine._series_idx. unfold bind at 1.
  destruct (_decomposeA self σ) as [[[[[e p] s] D]|x] σ'] eqn:Hd; [|done].
  pose proof (decomposeA_again _ _ _ _ Hd) as Hd2.
  apply AffineFacts.decomposeA_inv in Hd as (o & o' & Ho & Ho' & Hsame & Hsr).
  unfold bind at 1. unfold get_obj at 1. rewrite Ho'. unfold ret at 1.
  intros [= <- <-]. unfold bind at 1. rewrite Hd2.
  unfold bind, get_obj, ret. rewrite Ho'. intros [= <- <- <- <- <-].
  exists (gsparams o'). split; [done|].
  by rewrite length_map, AffineFacts.length_jq_indices.
Qed.

(** X17.  The constructor called with a scale radius allocates the object
    and its matrix [scale_radius * identity] with nothing cached and keeps
    the store well formed; called without any size it raises
    [TypeError]. *)
Theorem constructor_builds_scaled_identity :
  (∀ σ k idx jmx dl sr flx gsp,
     wf σ →
     ∃ self σ' o,
       __init__ getScaleRadius k idx jmx dl None (Some sr) None flx gsp σ = (Ok self, σ') ∧
       wf σ' ∧ objs σ !! self = None ∧ objs σ' !! self = Some o ∧
       mats σ' !! _A o = Some (Matrix (1 * sr) (0 * sr) (0 * sr) (1 * sr)) ∧
       ellip o = None ∧ scale_radius o = sr ∧ jmax o = jmx ∧
       dlnr o = match dl with Some x => x | None => ln (13 / 10) end) ∧
  (∀ σ k idx jmx dl flx gsp,
     ∃ σ', __init__ getScaleRadius k idx jmx dl None None None flx gsp σ
           = (Raise (TypeError "unsupported operand type(s) for *: 'float' and 'NoneType'"),
              σ')).
Proof.
  split.
  - intros σ k idx jmx dl sr flx gsp Hwf.
    destruct (AffineFacts.series_init_spec atan2 acosh shear_e1 getScaleRadius
                σ k idx jmx dl sr flx gsp Hwf) as [Hrun Hwf'].
    cbv zeta in Hrun, Hwf'. eexists _, _, _. split; [exact Hrun|].
    split; [exact Hwf'|]. cbn [objs mats].
    split.
    { destruct (objs σ !! next_id σ) as [o|] eqn:Ho; [|done].
      destruct Hwf as [Hobjs _]. apply Hobjs in Ho as [Hlt _]. lia. }
    split; [by rewrite lookup_insert_eq|].
    cbn [_A ellip scale_radius jmax dlnr]. by rewrite lookup_insert_eq.
  - intros. apply AffineFacts.init_without_size.
Qed.

End Library.

(** [s.dilate(2)] on the Spergel series of the examples. *)
Lemma transforms_keep_decomposable_witness :
  let A := Matrix (1 * 1) (0 * 1) (0 * 1) (1 * 1) in
  0 < det (mmul A (Matrix 2 0 0 2)) ∧
  ∃ r σ1 d σ2,
    Affine.dilate 0%nat 2 toy_store = (Ok r, σ1) ∧
    Affine._decomposeA toy_atan2 toy_acosh toy_e1 r σ1 = (Ok d, σ2) ∧
    Affine.decompose toy_atan2 toy_acosh toy_e1 SpergelSeries 1 (mmul A (Matrix 2 0 0 2)) = Ok d.
Proof.
  intros A.
  apply (transforms_keep_decomposable toy_atan2 toy_acosh toy_e1 toy_getMatrix toy_make_Shear
           toy_store 0%nat toy_obj A (Dilate 2)).
  - intros eta. unfold toy_e1. lra.
  - exact AffineFacts.wf_toy_store.
  - reflexivity.
  - reflexivity.
  - unfold det, A. cbn. lra.
  - cbn. lra.
  - cbn. lra.
Defined.

(** [s._decomposeA()] twice on the Spergel series of the examples. *)
Lemma decomposeA_is_cached_witness :
  ∃ d σ1,
    Affine._decomposeA toy_atan2 toy_acosh toy_e1 0%nat toy_store = (Ok d, σ1) ∧
    Affine._decomposeA toy_atan2 toy_acosh toy_e1 0%nat σ1 = (Ok d, σ1).
Proof.
  destruct (AffineFacts.decompose_ok toy_atan2 toy_acosh toy_e1 SpergelSeries 1
              (Matrix (1 * 1) (0 * 1) (0 * 1) (1 * 1)))
    as [[[[e p] sr] D] Hd].
  { intros eta. unfold toy_e1. lra. }
  { unfold det. cbn. lra. }
  { lra. }
  destruct (AffineFacts.decomposeA_spec toy_atan2 toy_acosh toy_e1 toy_store 0%nat toy_obj
              _ e p sr D AffineFacts.wf_toy_store eq_refl eq_refl Hd) as (σ1 & Hrun & _).
  exists (e, p, sr, D), σ1. split; [exact Hrun|].
  exact (decomposeA_is_cached toy_atan2 toy_acosh toy_e1 toy_store 0%nat _ σ1 Hrun).
Defined.

(** [s._getBasisFuncs()] and [s._series_idx()] on the same series. *)
Lemma basis_matches_series_idx_witness :
  ∃ bs σ1 k idx jmx sr σ2 gsp,
    Affine._getBasisFuncs toy_atan2 toy_acosh toy_e1 0%nat toy_store = (Ok bs, σ1) ∧
    Affine._series_idx toy_atan2 toy_acosh toy_e1 0%nat σ1 = (Ok (k, idx, jmx, sr), σ2) ∧
    bs = map (λ jq, Basislet k idx sr (fst jq) (snd jq) gsp) (jq_indices jmx) ∧
    length bs = (Z.to_nat (jmx + 1) * Z.to_nat (jmx + 1))%nat.
Proof.
  destruct (AffineFacts.getBasisFuncs_ok toy_atan2 toy_acosh toy_e1 toy_store 0%nat toy_obj
              (Matrix (1 * 1) (0 * 1) (0 * 1) (1 * 1)))
    as (bs & σ1 & Hb & Hwf1 & Hm1 & o1 & Ho1 & Hs).
  { intros eta. unfold toy_e1. lra. }
  { exact AffineFacts.wf_toy_store. }
  { reflexivity. }
  { reflexivity. }
  { unfold det. cbn. lra. }
  { cbn. lra. }
  destruct Hs as (Hk & _ & _ & Hdl & _ & _ & HA).
  destruct (AffineFacts.decompose_ok toy_atan2 toy_acosh toy_e1 (kind o1) (dlnr o1)
              (Matrix (1 * 1) (0 * 1) (0 * 1) (1 * 1)))
    as [[[[e p] sr] D] Hd].
  { intros eta. unfold toy_e1. lra. }
  { unfold det. cbn. lra. }
  { rewrite Hdl. cbn. lra. }
  assert (mats σ1 !! _A o1 = Some (Matrix (1 * 1) (0 * 1) (0 * 1) (1 * 1))) as HA1
    by (rewrite Hm1, HA; reflexivity).
  destruct (AffineFacts.decomposeA_spec toy_atan2 toy_acosh toy_e1 σ1 0%nat o1
              _ e p sr D Hwf1 Ho1 HA1 Hd) as (σ2 & Hrun & _ & Hobjs & _).
  assert (Affine._series_idx toy_atan2 toy_acosh toy_e1 0%nat σ1
          = (Ok (kind o1, index o1, jmax o1, sr), σ2)) as Hidx.
  { unfold Affine._series_idx. unfold bind at 1. rewrite Hrun.
    unfold bind, get_obj, ret. rewrite Hobjs, lookup_insert_eq. done. }
  destruct (basis_matches_series_idx toy_atan2 toy_acosh toy_e1 toy_store 0%nat bs σ1
              (kind o1) (index o1) (jmax o1) sr σ2 Hb Hidx) as (gsp & Hbs & Hlen).
  exists bs, σ1, (kind o1), (index o1), (jmax o1), sr, σ2, gsp. done.
Defined.

(** The coefficient of [(j, q) = (2, 1)] for a round Spergel profile. *)
Lemma coefficients_never_raise_witness :
  ∃ c, coeff SpergelSeries 1 0 0 0 (2, 1)%Z = Ok c.
Proof. apply (coefficients_never_raise SpergelSeries 1 0 0 0 (2, 1)%Z). lra. Defined.

(** [SpergelSeries(nu=1/2, jmax=2, scale_radius=3)] on a fresh
    interpreter. *)
Lemma constructor_builds_scaled_identity_witness :
  ∃ self σ' o,
    Affine.__init__ toy_getScaleRadius SpergelSeries (1 / 2) 2 None None (Some 3) None 1 None
      empty_store = (Ok self, σ') ∧
    Affine.wf toy_atan2 toy_acosh toy_e1 σ' ∧
    objs empty_store !! self = None ∧ objs σ' !! self = Some o ∧
    mats σ' !! _A o = Some (Matrix (1 * 3) (0 * 3) (0 * 3) (1 * 3)) ∧
    ellip o = None ∧ scale_radius o = 3 ∧ jmax o = 2%Z ∧
    dlnr o = ln (13 / 10).
Proof.
  apply (proj1 (constructor_builds_scaled_identity toy_atan2 toy_acosh toy_e1 toy_getScaleRadius)
           empty_store SpergelSeries (1 / 2) 2%Z None 3 1 None).
  apply AffineFacts.wf_empty.
Defined.

End AffineExtras.

(** ** nollZernikeDict and LinearOpticalSeries *)

Module OpticalExtras.
Import Affine Optical.
#[local] Open Scope R_scope.

(** One row of [nollZernikeDict]: the keys below the running index stay
    defined, the index never decreases, and an even [m+n] in the row
    advances it. *)
Lemma noll_inner_spec n jmax ms : ∀ j ret,
  (1 <= j)%Z → (∀ i, (1 <= i < j)%Z → is_Some (ret !! i)) →
  match noll_inner ms n jmax j ret with
  | Return r => ∀ i, (1 <= i <= jmax)%Z → is_Some (r !! i)
  | Continue j' r =>
      (j <= j')%Z ∧ (j' = j ∨ j' <= jmax)%Z ∧
      (∀ i, (1 <= i < j')%Z → is_Some (r !! i)) ∧
      ((∃ m, m ∈ ms ∧ (m + n) mod 2 ≠ 1)%Z → (j < j')%Z)
  end.
Proof.
  unfold dict. induction ms as [|m ms IH]; intros j ret Hj Hkeys; cbn [noll_inner].
  - split_and!; [lia|by left|done|]. intros (m & Hm & _). by apply elem_of_nil in Hm.
  - destruct ((m + n) mod 2 =? 1)%Z eqn:Hpar.
    + specialize (IH j ret Hj Hkeys). destruct (noll_inner ms n jmax j ret); [|done].
      destruct IH as (H1 & H2 & H3 & H4). split_and!; try done.
      intros (m' & Hm' & Hp'). apply H4. exists m'. split; [|done].
      apply elem_of_cons in Hm' as [->|Hm']; [|done]. apply Z.eqb_eq in Hpar. done.
    + match goal with
      | |- match (match ?s with _ => _ end) with _ => _ end => set (step := s)
      end.
      assert ((j < step.1)%Z ∧ ∀ i, (1 <= i < step.1)%Z → is_Some (step.2 !! i)) as [Hlt Hk'].
      { unfold step, dict. destruct (m =? 0)%Z; [|destruct (j mod 2 =? 0)%Z]; cbn [fst snd].
        - split; [lia|]. intros i Hi. destruct (decide (i = j)) as [->|?].
          + by rewrite lookup_insert_eq.
          + rewrite lookup_insert_ne by done. apply Hkeys. lia.
        - split; [lia|]. intros i Hi. destruct (decide (i = (j + 1)%Z)) as [->|?].
          + by rewrite lookup_insert_eq.
          + rewrite lookup_insert_ne by done. destruct (decide (i = j)) as [->|?].
            * by rewrite lookup_insert_eq.
            * rewrite lookup_insert_ne by done. apply Hkeys. lia.
        - split; [lia|]. intros i Hi. destruct (decide (i = (j + 1)%Z)) as [->|?].
          + by rewrite lookup_insert_eq.
          + rewrite lookup_insert_ne by done. destruct (decide (i = j)) as [->|?].
            * by rewrite lookup_insert_eq.
            * rewrite lookup_insert_ne by done. apply Hkeys. lia. }
      destruct step as [j' ret']. cbn [fst snd] in Hlt, Hk'.
      destruct (jmax <? j')%Z eqn:Hmax.
      * apply Z.ltb_lt in Hmax. cbv beta iota. intros i Hi. apply Hk'. lia.
      * apply Z.ltb_ge in Hmax. cbv beta iota.
        specialize (IH j' ret' ltac:(lia) Hk').
        destruct (noll_inner ms n jmax j' ret'); [|done].
        destruct IH as (H1 & H2 & H3 & H4). split_and!; [lia|right; lia|done|lia].
Qed.

Lemma noll_outer_spec jmax fuel : ∀ n j ret,
  (0 <= n)%Z → (1 <= j)%Z → (∀ i, (1 <= i < j)%Z → is_Some (ret !! i)) →
  (Z.to_nat (jmax + 1 - j) < fuel)%nat →
  ∃ d, noll_outer fuel n jmax j ret = Some d ∧
       ∀ i, (1 <= i <= jmax)%Z → is_Some (d !! i).
Proof.
  induction fuel as [|fuel IH]; intros n j ret Hn Hj Hkeys Hfuel; [lia|].
  cbn [noll_outer].
  pose proof (noll_inner_spec n jmax (xrange 0 (n + 1)) j ret Hj Hkeys) as Hrow.
  destruct (noll_inner (xrange 0 (n + 1)) n jmax j ret) as [j' r|r]; [|eauto].
  destruct Hrow as (H1 & H2 & H3 & H4).
  assert (j < j')%Z as Hlt.
  { apply H4. exists n. split; [apply AffineFacts.elem_of_xrange; lia|].
    replace (n + n)%Z with (n * 2)%Z by lia. rewrite Z.mod_mul by done. done. }
  apply IH; [lia|lia|done|lia].
Qed.

(** X18.  [nollZernikeDict(jmax)] returns for every [jmax], within
    [jmax + 1] rows (or one row when [jmax <= 0]), and the dict it returns
    has an entry for every index from 1 to [jmax]. *)
Theorem nollZernikeDict_total (jmax : Z) :
  ∃ d, nollZernikeDict (Z.to_nat jmax + 1) jmax = Some d ∧
       ∀ i, (1 <= i <= jmax)%Z → is_Some (d !! i).
Proof.
  apply noll_outer_spec; [lia|lia| |lia]. intros i Hi. lia.
Qed.

Lemma init_lam_diam_pupil :
  __init__ None (Some 500) (Some 2) 1 no_singles None = Ok lam_diam_pupil.
Proof.
  unfold __init__. cbn [and_then]. unfold no_singles, singles_list.
  cbn [tip tilt defocus astig1 astig2 coma1 coma2 trefoil1 trefoil2 spher app nonzero_from].
  rewrite !OpticalFacts.Reqb_refl. cbn [last take map separate Z.ltb Z.compare Z.add Pos.compare
    Pos.compare_cont and_then t_realcoeffs t_imagcoeffs t_realindices t_imagindices
    combinations2 app Pos.add].
  reflexivity.
Qed.

(** X19.  The constructor never computes [lam_over_diam] from [lam] and
    [diam]: an instance built without [lam_over_diam] was given both
    [lam] and [diam], and its [lam_over_diam] is [None]. *)
Theorem lam_over_diam_never_computed lam diam flx s ab self :
  __init__ None lam diam flx s ab = Ok self →
  lam_over_diam self = None ∧ is_Some lam ∧ is_Some diam.
Proof.
  unfold __init__. intros H0.
  destruct lam as [l|], diam as [dm|]; cbn [and_then] in H0; try done.
  destruct (match ab with Some _ => _ | None => _ end) as [a|]; cbn [and_then] in H0; [|done].
  destruct (separate _ _ _) as [t|]; cbn [and_then] in H0; [|done].
  injection H0 as <-. cbn [lam_over_diam]. eauto.
Qed.

(** X20.  The constructor refuses: [lam_over_diam] together with [lam] or
    [diam], and neither [lam_over_diam] nor both of [lam] and [diam]
    ([TypeError]); an aberration array of length 2 or less
    ([ValueError]); an array together with a non-zero single aberration
    ([TypeError]). *)
Theorem optical_constructor_refuses :
  (∀ x lam diam flx s ab,
     is_Some lam ∨ is_Some diam →
     __init__ (Some x) lam diam flx s ab
     = Raise (TypeError "If specifying lam_over_diam, then do not specify lam or diam")) ∧
  (∀ lam diam flx s ab,
     lam = None ∨ diam = None →
     __init__ None lam diam flx s ab
     = Raise (TypeError "If not specifying lam_over_diam, then specify lam AND diam")) ∧
  (∀ x flx s a,
     (length a <= 2)%nat →
     __init__ (Some x) None None flx s (Some a)
     = Raise (ValueError "Aberrations keyword must have length > 2")) ∧
  (∀ x flx s a,
     (2 < length a)%nat → Exists (λ v, v ≠ 0) (singles_list s) →
     __init__ (Some x) None None flx s (Some a)
     = Raise (TypeError "Cannot pass in individual aberrations and array!")).
Proof.
  split_and!.
  - intros x lam diam flx s ab Hgiven. unfold __init__.
    destruct lam, diam; try done. by destruct Hgiven as [[? [=]]|[? [=]]].
  - intros lam diam flx s ab Hmissing. unfold __init__.
    destruct lam, diam; try done. by destruct Hmissing.
  - intros x flx s a Hlen. unfold __init__. cbn [and_then].
    by rewrite (proj2 (Nat.leb_le _ _) Hlen).
  - intros x flx s a Hlen Hex. unfold __init__. cbn [and_then].
    rewrite (proj2 (Nat.leb_gt _ _) Hlen).
    assert (existsb (λ v, negb (Reqb v 0)) (singles_list s) = true) as ->; [|done].
    apply existsb_exists. apply Exists_exists in Hex as (v & Hv & Hnz).
    exists v. split; [by apply list_elem_of_In|].
    unfold Reqb. by destruct (Req_dec_T v 0).
Qed.

Lemma length_combinations2_closed {X} (l : list X) :
  (2 * length (combinations2 l) + length l = length l * length l)%nat.
Proof.
  induction l as [|x l IH]; [done|]. cbn [combinations2 length].
  rewrite length_app, length_map. nia.
Qed.

Lemma separate_count abs : ∀ j acc t,
  (2 <= j)%Z → separate j abs acc = Ok t →
  (length (t_realcoeffs t) + length (t_imagcoeffs t)
   = length (t_realcoeffs acc) + length (t_imagcoeffs acc) + length abs)%nat.
Proof.
  induction abs as [|ab rest IH]; intros j acc t Hj; cbn [separate].
  - intros [= <-]. cbn. lia.
  - rewrite (proj2 (Z.ltb_ge j 2)) by lia.
    destruct (nollZernike !! j) as [[n m]|]; [|done].
    destruct (classify n m ab acc) as [acc'|] eqn:Hacc; cbn [and_then]; [|done].
    intros Hs. assert (2 <= j + 1)%Z as Hj' by lia.
    rewrite (IH _ _ _ Hj' Hs). cbn [length].
    revert Hacc. unfold classify. cbv zeta.
    repeat (destruct (_ =? _)%Z); try done;
      destruct (norm n m); cbn [and_then]; try done;
      intros [= <-]; cbn; rewrite ?length_app; cbn; lia.
Qed.

(** X21.  An instance has one term for the unaberrated pupil and one for
    every aberration from index 2 on, each real or imaginary; with [r]
    real and [i] imaginary terms it has [r(r+1)/2 + i(i+1)/2]
    coefficients. *)
Theorem optical_term_count lod lam diam flx s ab self :
  __init__ lod lam diam flx s ab = Ok self →
  (length (realcoeffs self) + length (imagcoeffs self)
   = 1 + (length (aberrations self) - 2))%nat ∧
  (2 * length (coeffs self)
   = length (realcoeffs self) * (length (realcoeffs self) + 1)
     + length (imagcoeffs self) * (length (imagcoeffs self) + 1))%nat.
Proof.
  unfold __init__. intros H0.
  destruct (match lod with Some _ => _ | None => _ end) as [[]|]; cbn [and_then] in H0; [|done].
  destruct (match ab with Some _ => _ | None => _ end) as [a|]; cbn [and_then] in H0; [|done].
  destruct (separate _ _ _) as [t|] eqn:Ht; cbn [and_then] in H0; [|done].
  injection H0 as <-. cbn [realcoeffs imagcoeffs aberrations coeffs]. split.
  - revert Ht. generalize (map (λ x : R, x * 2 * PI) a). intros l Ht.
    destruct l as [|x0 [|x1 l]].
    + injection Ht as <-. done.
    + injection Ht as <-. done.
    + change (separate 2 l (Terms [1] [] [(0, 0)%Z] []) = Ok t) in Ht.
      apply separate_count in Ht; [|lia].
      cbn [length t_realcoeffs t_imagcoeffs] in *. lia.
  - rewrite !length_app, !length_map.
    pose proof (length_combinations2_closed (t_realcoeffs t)).
    pose proof (length_combinations2_closed (t_imagcoeffs t)). nia.
Qed.

(** [LinearOpticalSeries(lam=500, diam=2)]. *)
Lemma lam_over_diam_never_computed_witness :
  lam_over_diam lam_diam_pupil = None ∧
  is_Some (Some 500 : option R) ∧ is_Some (Some 2 : option R).
Proof.
  exact (lam_over_diam_never_computed (Some 500) (Some 2) 1 no_singles None lam_diam_pupil
           init_lam_diam_pupil).
Defined.

(** [LinearOpticalSeries(lam_over_diam=1)]. *)
Lemma optical_term_count_witness :
  (length (realcoeffs plain_pupil) + length (imagcoeffs plain_pupil)
   = 1 + (length (aberrations plain_pupil) - 2))%nat ∧
  (2 * length (coeffs plain_pupil)
   = length (realcoeffs plain_pupil) * (length (realcoeffs plain_pupil) + 1)
     + length (imagcoeffs plain_pupil) * (length (imagcoeffs plain_pupil) + 1))%nat.
Proof.
  exact (optical_term_count (Some 1) None None 1 no_singles None plain_pupil
           OpticalFacts.init_plain_pupil).
Defined.

(** [LinearOpticalSeries(lam_over_diam=1, aberrations=[0, 0])]. *)
Lemma optical_constructor_refuses_witness :
  __init__ (Some 1) None None 1 no_singles (Some [0; 0])
  = Raise (ValueError "Aberrations keyword must have length > 2").
Proof.
  apply (proj1 (proj2 (proj2 optical_constructor_refuses)) 1 1 no_singles [0; 0]).
  cbn. lia.
Defined.

End OpticalExtras.
